(** * EPIG: photo segmentation and room-clustering engine

    A shallow embedding of the observation extractor
    ([src/ingest_dataset.py]: [detect_slate], [detect_room_marker]), of the
    keypoint similarity scorer ([scripts/room_graph_ransac.py]:
    [ransac_inliers], [build_graph]) and of the sequential segmentation
    ([scripts/room_segments_v2.py]: the loop of [main] with [close_cur],
    [start_segment], [is_valid_marker], [confidence_for]).

    Modelling conventions.
    - Python [str] values are [string]s over 8-bit characters; the text is
      taken to be ASCII, which is what the OCR collaborator emits under the
      letter whitelist.  [str.upper] and [str.isalpha] are the ASCII ones.
    - Python [int] is [Z]; [len] is [Z.of_nat] of the length.
    - [None] is [None]; an exception is the [Raise] branch of [result].
    - The OCR engine, the keypoint detector and the homography estimator are
      external collaborators: they appear as section variables. *)

From Stdlib Require Import ZArith NArith List Bool Ascii String Lia QArith.
From Stdlib Require Import Sorted.
From Stdlib Require Import DecimalString.
Import ListNotations.

Local Open Scope string_scope.
Local Open Scope Z_scope.

(** ** Python strings *)

Definition in_range (lo hi : nat) (c : ascii) : bool :=
  let n := nat_of_ascii c in (Nat.leb lo n && Nat.leb n hi)%bool.

(** [[A-Z]], [[a-z]] and [[0-9]] as character classes. *)
Definition is_AZ (c : ascii) : bool := in_range 65 90 c.
Definition is_az (c : ascii) : bool := in_range 97 122 c.
Definition is_09 (c : ascii) : bool := in_range 48 57 c.
Definition is_AZ09 (c : ascii) : bool := (is_AZ c || is_09 c)%bool.

Definition isalpha_char (c : ascii) : bool := (is_AZ c || is_az c)%bool.

Definition upper_char (c : ascii) : ascii :=
  if is_az c then ascii_of_nat (nat_of_ascii c - 32) else c.

(** [s.upper()] *)
Fixpoint upper (s : string) : string :=
  match s with
  | EmptyString => EmptyString
  | String c s' => String (upper_char c) (upper s')
  end.

(** [re.sub(r"[^CLASS]", "", s)]: the characters of the class, in order. *)
Fixpoint re_sub_not (class : ascii -> bool) (s : string) : string :=
  match s with
  | EmptyString => EmptyString
  | String c s' =>
      if class c then String c (re_sub_not class s') else re_sub_not class s'
  end.

Fixpoint all_chars (p : ascii -> bool) (s : string) : bool :=
  match s with
  | EmptyString => true
  | String c s' => (p c && all_chars p s')%bool
  end.

(** [s.isalpha()]: non-empty and every character alphabetic. *)
Definition isalpha (s : string) : bool :=
  match s with
  | EmptyString => false
  | String _ _ => all_chars isalpha_char s
  end.

(** [len(s)] *)
Definition len (s : string) : Z := Z.of_nat (String.length s).

(** [k in s] on strings: [k] occurs as a contiguous substring of [s]. *)
Fixpoint contains (k s : string) : bool :=
  (prefix k s ||
   match s with
   | EmptyString => false
   | String _ s' => contains k s'
   end)%bool.

(** Truth value of a string, and of an [Optional[str]]. *)
Definition truthy (s : string) : bool :=
  match s with EmptyString => false | String _ _ => true end.

Definition truthy_opt (o : option string) : bool :=
  match o with Some s => truthy s | None => false end.

(** [re.findall(r"[A-Z]{1,2}", s)]: leftmost, greedy, non-overlapping. *)
Fixpoint findall_AZ_1_2 (s : string) : list string :=
  match s with
  | EmptyString => []
  | String c s' =>
      if is_AZ c then
        match s' with
        | EmptyString => [String c EmptyString]
        | String d s'' =>
            if is_AZ d
            then String c (String d EmptyString) :: findall_AZ_1_2 s''
            else String c EmptyString :: findall_AZ_1_2 s'
        end
      else findall_AZ_1_2 s'
  end.

(** [str(n)] for an [int]. *)
Definition str_of_int (n : Z) : string := NilZero.string_of_int (Z.to_int n).

Definition newline : ascii := ascii_of_nat 10.

(** The default validity pattern of the detector, [^[A-Z]{1,2}$], as the
    predicate [room_re.match(s) is not None].  [$] also matches just before
    a final newline. *)
Definition at_dollar (s : string) : bool :=
  match s with
  | EmptyString => true
  | String c EmptyString => Ascii.eqb c newline
  | _ => false
  end.

Definition room_re_default (s : string) : bool :=
  match s with
  | String c rest =>
      (is_AZ c &&
       (match rest with
        | String d rest' => (is_AZ d && at_dollar rest')%bool
        | EmptyString => false
        end || at_dollar rest))%bool
  | EmptyString => false
  end.

(** ** Observation extractor ([src/ingest_dataset.py]) *)

Section Ingest.

(** The page bitmap and the OCR collaborator: [ocr_text img roi psm
    whitelist] crops, binarises and reads the text. *)
Variable image : Type.
Variable ocr_text : image -> string -> Z -> option string -> string.

(** [k.upper() in up or (kc and kc in compact)] *)
Definition keyword_hit (up compact k : string) : bool :=
  let kc := re_sub_not is_AZ09 (upper k) in
  (contains (upper k) up || (truthy kc && contains kc compact))%bool.

(** [all(... for k, kc in zip(strong_keywords, strong_compact))
    if strong_keywords else False] *)
Definition strong_rule (up compact : string) (strong_keywords : list string)
    : bool :=
  match strong_keywords with
  | [] => false
  | _ :: _ => forallb (keyword_hit up compact) strong_keywords
  end.

Definition detect_slate (img : image) (roi : string) (psm : Z)
    (keywords : list string) (min_keywords : Z)
    (strong_keywords : list string) : bool * string * list string :=
  let txt := ocr_text img roi psm None in
  let up := upper txt in
  let compact := re_sub_not is_AZ09 up in
  let found := filter (keyword_hit up compact) keywords in
  let strong := strong_rule up compact strong_keywords in
  let is_slate :=
    ((min_keywords <=? Z.of_nat (List.length found)) || strong)%bool in
  (is_slate, txt, found).

(** The three components of the result, and the two texts that the
    keywords are looked up in. *)
Definition slate_flag (r : bool * string * list string) : bool := fst (fst r).
Definition slate_text (r : bool * string * list string) : string := snd (fst r).
Definition slate_found (r : bool * string * list string) : list string := snd r.

Definition slate_up (img : image) (roi : string) (psm : Z) : string :=
  upper (ocr_text img roi psm None).
Definition slate_compact (img : image) (roi : string) (psm : Z) : string :=
  re_sub_not is_AZ09 (slate_up img roi psm).

(** [re.sub(r"[^A-Z]", "", s.upper()).strip()]; the result holds letters
    only, so [strip] leaves it as it is. *)
Definition clean_letters (s : string) : string :=
  re_sub_not is_AZ (upper s).

Definition best_candidate_from_text (room_re : string -> bool)
    (txt : string) : option string :=
  let cand := clean_letters txt in
  if room_re cand then Some cand
  else
    match filter room_re (findall_AZ_1_2 (upper txt)) with
    | t :: _ => Some t
    | [] => None
    end.

(** [(score, marker, ocr_text, roi_name, psm_used)] *)
Record best_t : Type := mkBest {
  b_score : Z;
  b_marker : string;
  b_text : string;
  b_roi : string;
  b_psm : Z
}.

(** [base + (2 if len(cand) == 2 else 1) + max(0, 5 - len(clean_letters(txt)))] *)
Definition candidate_score (base : Z) (cand txt : string) : Z :=
  base + (if len cand =? 2 then 2 else 1)
       + Z.max 0 (5 - len (clean_letters txt)).

(** One OCR attempt of the multi-ROI loop: read region [r] at mode [p],
    and replace [best] when the candidate scores strictly higher. *)
Definition try_config (img : image) (whitelist : string)
    (room_re : string -> bool) (r : string) (p base : Z)
    (best : option best_t) : option best_t :=
  let txt := ocr_text img r p (Some whitelist) in
  match best_candidate_from_text room_re txt with
  | Some cand =>
      if truthy cand then
        let score := candidate_score base cand txt in
        match best with
        | None => Some (mkBest score cand txt r p)
        | Some b =>
            if b_score b <? score then Some (mkBest score cand txt r p)
            else best
        end
      else best
  | None => best
  end.

Definition roi_list : list string :=
  ["left_band"; "right_band"; "top_band"; "bottom_band"; "center_small"; "full"].

(** The body of [for r in roi_list]: single-character mode (psm 10, base
    10) first, then single-word mode (psm 8, base 8). *)
Definition roi_step (img : image) (whitelist : string)
    (room_re : string -> bool) (best : option best_t) (r : string)
    : option best_t :=
  let best := try_config img whitelist room_re r 10 10 best in
  try_config img whitelist room_re r 8 8 best.

Definition debug_text (b : best_t) : string :=
  "[roi=" ++ b_roi b ++ " psm=" ++ str_of_int (b_psm b) ++ "] " ++ b_text b.

Definition detect_room_marker (img : image) (roi : string) (psm : Z)
    (whitelist : string) (room_re : string -> bool)
    : bool * option string * string :=
  if negb (String.eqb roi "multi") then
    let txt := ocr_text img roi psm (Some whitelist) in
    let cand := best_candidate_from_text room_re txt in
    if truthy_opt cand then (true, cand, txt)
    else
      let txt2 := ocr_text img roi 10 (Some whitelist) in
      let cand2 := best_candidate_from_text room_re txt2 in
      if truthy_opt cand2 then (true, cand2, txt2)
      else (false, None, txt)
  else
    match fold_left (roi_step img whitelist room_re) roi_list None with
    | Some b => (true, Some (b_marker b), debug_text b)
    | None => (false, None, "")
    end.

End Ingest.

(** ** Keypoint similarity scorer ([scripts/room_graph_ransac.py]) *)

(** Exceptions the scorer can raise. *)
Inductive pyerr : Type :=
| ValueError  (* unpacking a row that does not hold two matches *)
| IndexError. (* indexing the keypoint list out of range *)

Inductive result (A : Type) : Type :=
| Ok (a : A)
| Raise (e : pyerr).

Arguments Ok {A} a.
Arguments Raise {A} e.

Definition bind {A B : Type} (r : result A) (k : A -> result B) : result B :=
  match r with
  | Ok a => k a
  | Raise e => Raise e
  end.

Notation "x <- r ;; k" := (bind r (fun x => k))
  (at level 61, r at next level, right associativity).

(** A binary descriptor (one row of the ORB descriptor matrix) is the
    number whose bits are the descriptor's bits. *)
Definition descriptor : Type := N.

Fixpoint popcount_pos (p : positive) : N :=
  match p with
  | xH => 1
  | xO q => popcount_pos q
  | xI q => N.succ (popcount_pos q)
  end.

Definition popcount (n : N) : N :=
  match n with
  | N0 => 0
  | Npos p => popcount_pos p
  end.

(** [cv2.NORM_HAMMING]: the number of differing bits. *)
Definition hamming (a b : descriptor) : N := popcount (N.lxor a b).

(** [cv2.DMatch] *)
Record DMatch : Type := mkDMatch {
  queryIdx : nat;
  trainIdx : nat;
  distance : N
}.

Definition enumerate {A : Type} (l : list A) : list (nat * A) :=
  combine (seq 0 (List.length l)) l.

(** Insertion into a list kept in ascending distance; a match that ties
    with an earlier one stays behind it. *)
Fixpoint insert_match (m : DMatch) (l : list DMatch) : list DMatch :=
  match l with
  | [] => [m]
  | x :: l' =>
      if (distance m <? distance x)%N then m :: l
      else x :: insert_match m l'
  end.

Definition ranked_matches (i : nat) (q : descriptor)
    (train : list descriptor) : list DMatch :=
  fold_left (fun acc jt => insert_match (mkDMatch i (fst jt) (hamming q (snd jt))) acc)
            (enumerate train) [].

(** [cv2.BFMatcher(cv2.NORM_HAMMING).knnMatch(des1, des2, k)]: one row for
    every query row, with its [k] nearest train rows, nearest first.  A row
    that has fewer than [k] train rows to choose from holds fewer matches:
    one match when the train matrix has a single row, none when it is
    empty.  An empty query matrix gives no row. *)
Definition knnMatch (des1 des2 : list descriptor) (k : nat)
    : list (list DMatch) :=
  map (fun iq => firstn k (ranked_matches (fst iq) (snd iq) des2))
      (enumerate des1).

(** [m.distance < 0.75 * n.distance]: both distances are whole numbers up
    to the descriptor width, so the product is exact and the test is
    [4 * m < 3 * n]. *)
Definition passes_ratio (m n : DMatch) : bool :=
  (4 * distance m <? 3 * distance n)%N.

(** The loop [for m, n in knn], which unpacks every row into two matches. *)
Fixpoint ratio_test (knn : list (list DMatch)) (good : list DMatch)
    : result (list DMatch) :=
  match knn with
  | [] => Ok good
  | row :: rest =>
      match row with
      | [m; n] =>
          ratio_test rest (if passes_ratio m n then good ++ [m] else good)
      | _ => Raise ValueError
      end
  end.

(** [nx.Graph()], as far as [build_graph] uses it: the nodes in the order
    in which they were first added, and the undirected edges with their
    weights.  Every edge is held once, as [(u, v, weight)] with the end
    points in the order of the [add_edge] call that created it. *)
Record graph : Type := mkGraph {
  nodes : list string;
  edges : list (string * string * Z)
}.

Definition has_node (G : graph) (n : string) : bool :=
  existsb (String.eqb n) (nodes G).

(** [G.add_node(n)]: a node that the graph has already is not added again. *)
Definition add_node (G : graph) (n : string) : graph :=
  if has_node G n then G else mkGraph (nodes G ++ [n]) (edges G).

(** The edge [e] joins [a] and [b], whichever way round it is held. *)
Definition joins (a b : string) (e : string * string * Z) : bool :=
  ((String.eqb (fst (fst e)) a && String.eqb (snd (fst e)) b) ||
   (String.eqb (fst (fst e)) b && String.eqb (snd (fst e)) a))%bool.

(** [G.add_edge(a, b, weight=w)]: both end points become nodes when they
    are not; an edge that joins them already keeps its place and takes
    the new weight; otherwise the edge is new. *)
Definition add_edge (G : graph) (a b : string) (w : Z) : graph :=
  let G := add_node (add_node G a) b in
  if existsb (joins a b) (edges G)
  then mkGraph (nodes G)
               (map (fun e => if joins a b e then (fst e, w) else e) (edges G))
  else mkGraph (nodes G) (edges G ++ [(a, b, w)]).

Section Ransac.

(** A keypoint is modelled by its position [kp.pt]. *)
Variable pt : Type.

(** [cv2.findHomography(pts1, pts2, cv2.RANSAC, 5.0)[1]]: the inlier
    mask, one 0/1 entry per match, or [None]. *)
Variable findHomography : list pt -> list pt -> option (list Z).

(** [[kp[idx(m)].pt for m in good]] *)
Fixpoint points_of (kp : list pt) (idx : DMatch -> nat)
    (good : list DMatch) : result (list pt) :=
  match good with
  | [] => Ok []
  | m :: rest =>
      match nth_error kp (idx m) with
      | Some p => ps <- points_of kp idx rest ;; Ok (p :: ps)
      | None => Raise IndexError
      end
  end.

Definition mask_sum (mask : list Z) : Z := fold_right Z.add 0 mask.

Definition ransac_inliers (kp1 : list pt) (des1 : option (list descriptor))
    (kp2 : list pt) (des2 : option (list descriptor)) : result Z :=
  match des1, des2 with
  | Some d1, Some d2 =>
      good <- ratio_test (knnMatch d1 d2 2) [] ;;
      if Z.of_nat (List.length good) <? 12 then Ok 0
      else
        pts1 <- points_of kp1 queryIdx good ;;
        pts2 <- points_of kp2 trainIdx good ;;
        match findHomography pts1 pts2 with
        | None => Ok 0
        | Some mask => Ok (mask_sum mask)
        end
  | _, _ => Ok 0
  end.

Variable kps : string -> list pt.
Variable feats : string -> option (list descriptor).

(** [limit_pairs and pairs > limit_pairs] *)
Definition over_limit (limit_pairs : option Z) (pairs : Z) : bool :=
  match limit_pairs with
  | Some l => (negb (l =? 0) && (l <? pairs))%bool
  | None => false
  end.

(** The scoring of one pair and the edge decision (the inner loop's body
    past the pair budget). *)
Definition score_pair (inlier_threshold : Z) (G : graph) (a b : string)
    : result graph :=
  inl <- ransac_inliers (kps a) (feats a) (kps b) (feats b) ;;
  Ok (if inlier_threshold <=? inl then add_edge G a b inl else G).

(** [for j in range(i + 1, len(names))]; returns the pair counter too. *)
Fixpoint inner_loop (inlier_threshold : Z) (limit_pairs : option Z)
    (a : string) (rest : list string) (pairs : Z) (G : graph)
    : result (Z * graph) :=
  match rest with
  | [] => Ok (pairs, G)
  | b :: rest' =>
      let pairs := pairs + 1 in
      if over_limit limit_pairs pairs then Ok (pairs, G)
      else
        G' <- score_pair inlier_threshold G a b ;;
        inner_loop inlier_threshold limit_pairs a rest' pairs G'
  end.

(** [for i in range(len(names))] *)
Fixpoint outer_loop (inlier_threshold : Z) (limit_pairs : option Z)
    (names : list string) (pairs : Z) (G : graph) : result graph :=
  match names with
  | [] => Ok G
  | a :: rest =>
      pg <- inner_loop inlier_threshold limit_pairs a rest pairs G ;;
      if over_limit limit_pairs (fst pg) then Ok (snd pg)
      else outer_loop inlier_threshold limit_pairs rest (fst pg) (snd pg)
  end.

Definition build_graph (names : list string) (inlier_threshold : Z)
    (limit_pairs : option Z) : result graph :=
  outer_loop inlier_threshold limit_pairs names 0
             (fold_left add_node names (mkGraph [] [])).

End Ransac.

(** ** Sequential segmentation ([scripts/room_segments_v2.py]) *)

(** One row of the ordered query: [(efta_id, file_id, loc, shoot, is_slate,
    has_marker, marker)].  The left joins leave [loc], [shoot],
    [has_marker] and [marker] nullable; [is_slate] is coalesced. *)
Record page : Type := mkPage {
  efta_id : Z;
  file_id : string;
  loc : option string;
  shoot : option Z;
  is_slate : bool;
  has_marker : option bool;
  marker : option string
}.

(** The segment dictionary. *)
Record segment : Type := mkSegment {
  segment_id : Z;
  location_label : string;
  shoot_index : option Z;
  marker_text : string;
  start_efta_id : Z;
  start_file_id : string;
  end_efta_id : Z;
  end_file_id : string;
  n_files : Z;
  confidence : Q;
  reset_reason : string
}.

Definition is_valid_marker (m : option string) : bool :=
  match m with
  | None => false
  | Some s =>
      if ((len s =? 1) && isalpha s)%bool then true
      else
        match s with
        | String c0 (String c1 _) =>
            if ((len s =? 2) && Ascii.eqb c0 c1 && isalpha s)%bool then true
            else false
        | _ => false
        end
  end.

Definition confidence_for (n : Z) : Q :=
  if 20 <=? n then 92 # 100
  else if 8 <=? n then 90 # 100
  else if 3 <=? n then 80 # 100
  else 60 # 100.

(** The variables of [main] that the loop threads through. *)
Record seg_state : Type := mkState {
  segments : list segment;
  seg_id : Z;
  cur : option segment;
  prev_loc : option string;
  prev_shoot : option Z
}.

Definition set_reset_reason (reason : string) (s : segment) : segment :=
  mkSegment (segment_id s) (location_label s) (shoot_index s) (marker_text s)
            (start_efta_id s) (start_file_id s) (end_efta_id s) (end_file_id s)
            (n_files s) (confidence s) reason.

Definition set_confidence (c : Q) (s : segment) : segment :=
  mkSegment (segment_id s) (location_label s) (shoot_index s) (marker_text s)
            (start_efta_id s) (start_file_id s) (end_efta_id s) (end_file_id s)
            (n_files s) c (reset_reason s).

(** [cur["end_efta_id"] = efta_id; cur["end_file_id"] = file_id;
    cur["n_files"] += 1] *)
Definition extend_segment (eid : Z) (fid : string) (s : segment) : segment :=
  mkSegment (segment_id s) (location_label s) (shoot_index s) (marker_text s)
            (start_efta_id s) (start_file_id s) eid fid
            (n_files s + 1) (confidence s) (reset_reason s).

Definition close_cur (reason : string) (st : seg_state) : seg_state :=
  match cur st with
  | None => st
  | Some c =>
      mkState (segments st ++ [set_reset_reason reason c]) (seg_id st) None
              (prev_loc st) (prev_shoot st)
  end.

Definition start_segment (l : string) (sh : option Z) (mk : string)
    (eid : Z) (fid : string) (st : seg_state) : seg_state :=
  let id := seg_id st + 1 in
  mkState (segments st) id
          (Some (mkSegment id l sh mk eid fid eid fid 1 0 ""))
          (prev_loc st) (prev_shoot st).

Definition set_prev (l : string) (sh : option Z) (st : seg_state) : seg_state :=
  mkState (segments st) (seg_id st) (cur st) (Some l) sh.

Definition set_cur (c : segment) (st : seg_state) : seg_state :=
  mkState (segments st) (seg_id st) (Some c) (prev_loc st) (prev_shoot st).

Definition opt_Z_eqb (a b : option Z) : bool :=
  match a, b with
  | Some x, Some y => x =? y
  | None, None => true
  | _, _ => false
  end.

(** [loc if loc is not None else "UNKNOWN"] *)
Definition page_loc (p : page) : string :=
  match loc p with
  | Some l => l
  | None => "UNKNOWN"
  end.

(** The hard resets at the head of the loop body. *)
Definition hard_reset (st : seg_state) (p : page) : seg_state :=
  let l := page_loc p in
  match prev_loc st with
  | None => set_prev l (shoot p) st
  | Some pl =>
      if negb (String.eqb l pl)
      then set_prev l (shoot p) (close_cur "location_change" st)
      else if negb (opt_Z_eqb (shoot p) (prev_shoot st))
      then set_prev l (shoot p) (close_cur "shoot_change" st)
      else st
  end.

(** [marker if has_marker and is_valid_marker(marker) else None] *)
Definition new_marker (p : page) : option string :=
  match has_marker p with
  | Some true => if is_valid_marker (marker p) then marker p else None
  | _ => None
  end.

(** The body of [for ... in rows]. *)
Definition main_step (keep_unmarked : bool) (st : seg_state) (p : page)
    : seg_state :=
  let l := page_loc p in
  let st := hard_reset st p in
  if is_slate p then close_cur "slate" st
  else
    match new_marker p with
    | Some nm =>
        match cur st with
        | None => start_segment l (shoot p) nm (efta_id p) (file_id p) st
        | Some c =>
            if negb (String.eqb nm (marker_text c))
            then start_segment l (shoot p) nm (efta_id p) (file_id p)
                               (close_cur "marker_change" st)
            else set_cur (extend_segment (efta_id p) (file_id p) c) st
        end
    | None =>
        match cur st with
        | Some c => set_cur (extend_segment (efta_id p) (file_id p) c) st
        | None =>
            if keep_unmarked
            then start_segment l (shoot p) "UNMARKED" (efta_id p) (file_id p) st
            else st
        end
    end.

Definition init_state : seg_state := mkState [] 0 None None None.

Definition main_loop (keep_unmarked : bool) (rows : list page) : seg_state :=
  fold_left (main_step keep_unmarked) rows init_state.

(** [segments] once the stream has ended and [close_cur("eof")] has run. *)
Definition main_segments (keep_unmarked : bool) (rows : list page)
    : list segment :=
  segments (close_cur "eof" (main_loop keep_unmarked rows)).

(** The post-pass: confidence, then the [UNMARKED] and [min_run] filters. *)
Definition keep_segment (keep_unmarked : bool) (min_run : Z) (s : segment)
    : bool :=
  if (String.eqb (marker_text s) "UNMARKED" && negb keep_unmarked)%bool
  then false
  else min_run <=? n_files s.

Definition main_kept (keep_unmarked : bool) (min_run : Z) (rows : list page)
    : list segment :=
  filter (keep_segment keep_unmarked min_run)
         (map (fun s => set_confidence (confidence_for (n_files s)) s)
              (main_segments keep_unmarked rows)).

(** ** The first segmentation ([scripts/room_segments.py]) *)

(** Its segment dictionary: the location is stored as it is read, and the
    confidence key is set by the post-pass only. *)
Record segment_v1 : Type := mkSegment1 {
  v1_segment_id : Z;
  v1_location_label : option string;
  v1_shoot_index : option Z;
  v1_marker_text : string;
  v1_start_efta_id : Z;
  v1_start_file_id : string;
  v1_end_efta_id : Z;
  v1_end_file_id : string;
  v1_n_files : Z;
  v1_confidence : option Q
}.

(** [segments], [cur] and [seg_id] of its [main]. *)
Record v1_state : Type := mkState1 {
  v1_segments : list segment_v1;
  v1_cur : option segment_v1;
  v1_seg_id : Z
}.

(** [marker = marker if has_marker else None], then
    [new_marker = marker if is_valid_marker(marker) else None]; the query
    of this script reads no slate flag. *)
Definition v1_new_marker (p : page) : option string :=
  let m := match has_marker p with
           | Some true => marker p
           | _ => None
           end in
  if is_valid_marker m then m else None.

Definition v1_open (p : page) (nm : string) (id : Z) : segment_v1 :=
  mkSegment1 id (loc p) (shoot p) nm (efta_id p) (file_id p)
             (efta_id p) (file_id p) 1 None.

Definition v1_extend (p : page) (c : segment_v1) : segment_v1 :=
  mkSegment1 (v1_segment_id c) (v1_location_label c) (v1_shoot_index c)
             (v1_marker_text c) (v1_start_efta_id c) (v1_start_file_id c)
             (efta_id p) (file_id p) (v1_n_files c + 1) (v1_confidence c).

(** The body of its loop. *)
Definition v1_step (st : v1_state) (p : page) : v1_state :=
  match v1_new_marker p with
  | Some nm =>
      match v1_cur st with
      | None =>
          mkState1 (v1_segments st)
                   (Some (v1_open p nm (v1_seg_id st + 1))) (v1_seg_id st + 1)
      | Some c =>
          if negb (String.eqb nm (v1_marker_text c))
          then mkState1 (v1_segments st ++ [c])
                        (Some (v1_open p nm (v1_seg_id st + 1)))
                        (v1_seg_id st + 1)
          else mkState1 (v1_segments st) (Some (v1_extend p c)) (v1_seg_id st)
      end
  | None =>
      match v1_cur st with
      | Some c => mkState1 (v1_segments st) (Some (v1_extend p c)) (v1_seg_id st)
      | None => st
      end
  end.

(** [segments] after the loop and the final append of the open segment. *)
Definition v1_main_segments (rows : list page) : list segment_v1 :=
  let st := fold_left v1_step rows (mkState1 [] None 0) in
  match v1_cur st with
  | Some c => (v1_segments st ++ [c])%list
  | None => v1_segments st
  end.

(** Its confidence heuristic, with three tiers. *)
Definition v1_confidence_for (n : Z) : Q :=
  if 8 <=? n then 90 # 100
  else if 3 <=? n then 80 # 100
  else 60 # 100.

(** The segments it writes: those of at least [min_run] files, each with
    its confidence. *)
Definition v1_main_kept (min_run : Z) (rows : list page) : list segment_v1 :=
  map (fun s =>
         mkSegment1 (v1_segment_id s) (v1_location_label s) (v1_shoot_index s)
                    (v1_marker_text s) (v1_start_efta_id s) (v1_start_file_id s)
                    (v1_end_efta_id s) (v1_end_file_id s) (v1_n_files s)
                    (Some (v1_confidence_for (v1_n_files s))))
      (filter (fun s => min_run <=? v1_n_files s) (v1_main_segments rows)).

(** ** File names and the selection of a run ([src/ingest_dataset.py], [main]) *)

(** A character that [IGNORECASE] takes for the capital [u]. *)
Definition letter_ci (u c : ascii) : bool := Ascii.eqb (upper_char c) u.

(** [\d{n}] at the head of [s]: its [n] digits. *)
Fixpoint take_digits (n : nat) (s : string) : option string :=
  match n with
  | O => Some EmptyString
  | S k =>
      match s with
      | String c s' =>
          if is_09 c then option_map (String c) (take_digits k s') else None
      | EmptyString => None
      end
  end.

(** The default pattern [EFTA(\d{8})] matched at the head of [s]: group 1. *)
Definition efta_at (s : string) : option string :=
  match s with
  | String c0 (String c1 (String c2 (String c3 rest))) =>
      if (letter_ci "E" c0 && letter_ci "F" c1 &&
          letter_ci "T" c2 && letter_ci "A" c3)%bool
      then take_digits 8 rest
      else None
  | _ => None
  end.

(** [efta_re.search(name)]: group 1 of the leftmost match. *)
Fixpoint efta_search (s : string) : option string :=
  match efta_at s with
  | Some d => Some d
  | None =>
      match s with
      | EmptyString => None
      | String _ s' => efta_search s'
      end
  end.

(** [int(d)] on a string of decimal digits. *)
Fixpoint int_of_digits_from (acc : Z) (s : string) : Z :=
  match s with
  | EmptyString => acc
  | String c s' =>
      int_of_digits_from (10 * acc + Z.of_nat (nat_of_ascii c - 48)) s'
  end.

Definition int_of_digits (s : string) : Z := int_of_digits_from 0 s.

(** [parse_efta_id]; it raises [ValueError] on a name without the pattern. *)
Definition parse_efta_id (name : string) : result Z :=
  match efta_search name with
  | Some d => Ok (int_of_digits d)
  | None => Raise ValueError
  end.

Definition digit_char (d : Z) : ascii := ascii_of_nat (48 + Z.to_nat d).

(** The lowest [w] decimal digits of [n], highest first. *)
Fixpoint pad_digits (w : nat) (n : Z) : string :=
  match w with
  | O => EmptyString
  | S k => pad_digits k (n / 10) ++ String (digit_char (n mod 10)) EmptyString
  end.

(** [f"{n:08d}"]: at least eight characters, zeros after the sign. *)
Definition fmt08 (n : Z) : string :=
  if ((0 <=? n) && (n <? 10 ^ 8))%bool then pad_digits 8 n
  else if n <? 0 then
    "-" ++ (if - n <? 10 ^ 7 then pad_digits 7 (- n) else str_of_int (- n))
  else str_of_int n.

(** [file_id = f"EFTA{efta_id:08d}"] *)
Definition file_id_of (n : Z) : string := "EFTA" ++ fmt08 n.

(** The ways in which the selection of a run ends early: the two
    [SystemExit]s and the [ValueError] of a name without the pattern. *)
Inductive ingest_error : Type :=
| NoPdfFound
| NoPdfInRange
| BadFileName (name : string).

(** [m and start <= int(m.group(1)) <= end] *)
Definition name_in_range (lo hi : Z) (name : string) : bool :=
  match efta_search name with
  | Some d => ((lo <=? int_of_digits d) && (int_of_digits d <=? hi))%bool
  | None => false
  end.

Definition range_bounds (start_efta end_efta : option Z) : Z * Z :=
  (match start_efta with Some s => s | None => -1 end,
   match end_efta with Some e => e | None => 10 ^ 12 end).

(** The files of a run: the sorted directory listing, cut down by the
    range filter and then by the limit. *)
Definition select_pdfs (pdfs : list string)
    (start_efta end_efta limit : option Z) : ingest_error + list string :=
  match pdfs with
  | [] => inl NoPdfFound
  | _ :: _ =>
      let ranged :=
        match start_efta, end_efta with
        | None, None => inr pdfs
        | _, _ =>
            let '(lo, hi) := range_bounds start_efta end_efta in
            match filter (name_in_range lo hi) pdfs with
            | [] => inl NoPdfInRange
            | f => inr f
            end
        end in
      match ranged with
      | inl e => inl e
      | inr l =>
          inr (match limit with
               | Some n => firstn (Z.to_nat (Z.max 0 n)) l
               | None => l
               end)
      end
  end.

(** The IDs that the main loop reads off the selected files, in order; the
    first name without the pattern stops the run. *)
Fixpoint parse_all (names : list string) : ingest_error + list Z :=
  match names with
  | [] => inr []
  | name :: rest =>
      match parse_efta_id name with
      | Raise _ => inl (BadFileName name)
      | Ok eid =>
          match parse_all rest with
          | inl e => inl e
          | inr ids => inr (eid :: ids)
          end
      end
  end.

Definition main_ids (pdfs : list string)
    (start_efta end_efta limit : option Z) : ingest_error + list Z :=
  match select_pdfs pdfs start_efta end_efta limit with
  | inl e => inl e
  | inr names => parse_all names
  end.

(** ** Configuration ([src/ingest_dataset.py]: [cfg_get], [seed_from_config]) *)

(** A loaded YAML value.  A mapping is the list of its bindings, of which the
    first one of a key counts; keys are strings. *)
Local Unset Elimination Schemes.

Inductive yaml : Type :=
| YNull
| YBool (b : bool)
| YInt (z : Z)
| YStr (s : string)
| YList (l : list yaml)
| YDict (d : list (string * yaml)).

Local Set Elimination Schemes.

(** [cur[k]], when [k in cur]. *)
Fixpoint dict_get (k : string) (d : list (string * yaml)) : option yaml :=
  match d with
  | [] => None
  | (k', v) :: rest => if String.eqb k k' then Some v else dict_get k rest
  end.

(** [dotted.split(".")]: never empty, with an empty piece between two
    dots and at either end. *)
Fixpoint split_dot (s : string) : list string :=
  match s with
  | EmptyString => [EmptyString]
  | String c s' =>
      if Ascii.eqb c "."
      then EmptyString :: split_dot s'
      else match split_dot s' with
           | piece :: rest => String c piece :: rest
           | [] => [String c EmptyString]
           end
  end.

(** The loop of [cfg_get] over the keys. *)
Fixpoint cfg_walk (cur : yaml) (keys : list string) (default : yaml) : yaml :=
  match keys with
  | [] => cur
  | k :: rest =>
      match cur with
      | YDict d =>
          match dict_get k d with
          | Some v => cfg_walk v rest default
          | None => default
          end
      | _ => default
      end
  end.

Definition cfg_get (cfg : yaml) (dotted : string) (default : yaml) : yaml :=
  cfg_walk cfg (split_dot dotted) default.

(** One shoot of a seed entry: [efta_start] and [efta_end] are read with
    [sh["..."]], which needs the key, [shoot_index] and [confidence] with
    [sh.get]. *)
Record shoot_cfg : Type := mkShoot {
  efta_start : option Z;
  efta_end : option Z;
  shoot_index_cfg : option Z;
  confidence_cfg : option Q
}.

Record seed_entry : Type := mkSeed {
  seed_location : option string;
  seed_shoots : option (list shoot_cfg)
}.

(** [(location, shoot_index, method, confidence)] *)
Definition assignment : Type := (option string * option Z * string * Q)%type.

(** The inner loop over the shoots of one entry: [None] is the [KeyError]
    of a shoot without its bounds, [Some None] is no shoot in range. *)
Fixpoint seed_in_shoots (efta : Z) (l : option string) (shoots : list shoot_cfg)
    : option (option assignment) :=
  match shoots with
  | [] => Some None
  | sh :: rest =>
      match efta_start sh, efta_end sh with
      | Some a, Some b =>
          if ((a <=? efta) && (efta <=? b))%bool
          then Some (Some (l, shoot_index_cfg sh, "range_seed",
                           match confidence_cfg sh with
                           | Some c => c
                           | None => 9 # 10
                           end))
          else seed_in_shoots efta l rest
      | _, _ => None
      end
  end.

(** [seed_from_config]; [None] is its [KeyError]. *)
Fixpoint seed_from_config (efta : Z) (seed_assignments : list seed_entry)
    : option assignment :=
  match seed_assignments with
  | [] => Some (None, None, "range_seed", 1 # 2)
  | entry :: rest =>
      match seed_in_shoots efta (seed_location entry)
              (match seed_shoots entry with Some l => l | None => [] end) with
      | None => None
      | Some (Some a) => Some a
      | Some None => seed_from_config efta rest
      end
  end.

(** ** The first ingest script ([tools/ingest_dataset.py]) *)

(** Its detectors have fixed settings.  Its [ocr_text] crops the regions
    "top" and "center" by the fractions that [crop_roi] uses, and reads
    the text in the same way: both scripts share the OCR collaborator. *)
Module ToolsIngest.

Definition SLATE_KEYWORDS : list string :=
  ["DATE"; "CASE ID"; "PHOTOGRAPHER"; "LOCATION"; "FBI"].

Definition STRONG_KEYWORDS : list string := ["DATE"; "CASE ID"; "LOCATION"].

(** [ROOM_RE.match], for [^[A-Z]{1,2}$]. *)
Definition ROOM_RE : string -> bool := room_re_default.

Section Detectors.

Variable image : Type.
Variable ocr_text : image -> string -> Z -> option string -> string.

Definition detect_slate (img : image) : bool * string * list string :=
  let txt := ocr_text img "top" 6 None in
  let up := upper txt in
  let found := filter (fun k => contains k up) SLATE_KEYWORDS in
  let strong := forallb (fun k => contains k up) STRONG_KEYWORDS in
  (((3 <=? Z.of_nat (List.length found)) || strong)%bool, txt, found).

Definition detect_room_marker (img : image) : bool * option string * string :=
  let txt := ocr_text img "center" 8 (Some "ABCDEFGHIJKLMNOPQRSTUVWXYZ") in
  let cand := re_sub_not is_AZ (upper txt) in
  let cand :=
    if negb (ROOM_RE cand)
    then match filter ROOM_RE (findall_AZ_1_2 (upper txt)) with
         | t :: _ => t
         | [] => EmptyString
         end
    else cand in
  if ROOM_RE cand then (true, Some cand, txt) else (false, None, txt).

End Detectors.

End ToolsIngest.

(** ** Gap report ([tools/check_gaps.py]) *)

(** Python's [sorted] on a list of integers: the ascending rearrangement. *)
Fixpoint insert_sorted (x : Z) (l : list Z) : list Z :=
  match l with
  | [] => [x]
  | y :: l' => if x <=? y then x :: l else y :: insert_sorted x l'
  end.

Definition sorted (l : list Z) : list Z := fold_right insert_sorted [] l.

(** [range(a, b)]. *)
Definition py_range (a b : Z) : list Z :=
  map (fun k => a + Z.of_nat k) (seq 0 (Z.to_nat (b - a))).

(** The body of the loop of [compress_ranges], on [(ranges, s, e)]. *)
Definition compress_step (st : list (Z * Z) * Z * Z) (x : Z)
    : list (Z * Z) * Z * Z :=
  let '(ranges, s, e) := st in
  if x =? e + 1 then (ranges, s, x) else ((ranges ++ [(s, e)])%list, x, x).

Definition compress_ranges (nums : list Z) : list (Z * Z) :=
  match nums with
  | [] => []
  | _ :: _ =>
      match sorted nums with
      | [] => []
      | n0 :: rest =>
          let '(ranges, s, e) := fold_left compress_step rest ([], n0, n0) in
          (ranges ++ [(s, e)])%list
      end
  end.

(** [[i for i in range(lo, hi + 1) if i not in s]], the comprehension
    that [main] evaluates for each block of the report. *)
Definition missing_in (s : list Z) (lo hi : Z) : list Z :=
  filter (fun i => negb (existsb (Z.eqb i) s)) (py_range lo (hi + 1)).

(** The [count_missing] column of a row of the CSV. *)
Definition count_missing (r : Z * Z) : Z := snd r - fst r + 1.

(** ** Notions used to state the properties *)

(** An OCR collaborator that reads the same text in every region and at
    every mode, over a one-point type of images. *)
Definition ocr_const (txt : string)
    : unit -> string -> Z -> option string -> string :=
  fun _ _ _ _ => txt.

(** An OCR collaborator whose reading depends on the region alone: a page
    is the text that each region shows. *)
Definition ocr_by_region
    : (string -> string) -> string -> Z -> option string -> string :=
  fun img roi _ _ => img roi.

(** A page that shows "AB" in its left band, "CC" in its right band and
    nothing that is read elsewhere. *)
Definition page_AB_CC (roi : string) : string :=
  if String.eqb roi "left_band" then "AB"
  else if String.eqb roi "right_band" then "CC"
  else "".

(** The default whitelist of the marker detector. *)
Definition whitelist_AZ : string := "ABCDEFGHIJKLMNOPQRSTUVWXYZ".

(** A string of one or two capital letters. *)
Definition one_or_two_capitals (s : string) : Prop :=
  exists c : ascii,
    is_AZ c = true /\
    (s = String c "" \/
     exists d : ascii, is_AZ d = true /\ s = String c (String d "")).

Section MarkerCandidates.

Variable image : Type.
Variable ocr_text : image -> string -> Z -> option string -> string.

(** The OCR attempts of the multi-ROI search in evaluation order, each
    with its region, its mode and its base score. *)
Definition attempts_of (rois : list string) : list (string * Z * Z) :=
  flat_map (fun r => [(r, 10, 10); (r, 8, 8)]) rois.

(** The scored candidate of one attempt, when its text yields one. *)
Definition candidate_at (img : image) (whitelist : string)
    (room_re : string -> bool) (a : string * Z * Z) : option best_t :=
  let '(r, p, base) := a in
  let txt := ocr_text img r p (Some whitelist) in
  match best_candidate_from_text room_re txt with
  | Some cand =>
      if truthy cand
      then Some (mkBest (candidate_score base cand txt) cand txt r p)
      else None
  | None => None
  end.

Definition candidates_of (img : image) (whitelist : string)
    (room_re : string -> bool) (atts : list (string * Z * Z)) : list best_t :=
  flat_map (fun a => match candidate_at img whitelist room_re a with
                     | Some b => [b]
                     | None => []
                     end) atts.

(** All candidates of a page, in evaluation order. *)
Definition candidates (img : image) (whitelist : string)
    (room_re : string -> bool) : list best_t :=
  candidates_of img whitelist room_re (attempts_of roi_list).

End MarkerCandidates.

(** [w] is the first element of [l] that reaches the highest score. *)
Definition first_best (l : list best_t) (w : best_t) : Prop :=
  exists pre post : list best_t,
    l = (pre ++ w :: post)%list /\
    Forall (fun b => b_score b < b_score w) pre /\
    Forall (fun b => b_score b <= b_score w) post.

(** Keeping the better of the running best and the next candidate. *)
Definition keep_better (best : option best_t) (c : best_t) : option best_t :=
  match best with
  | None => Some c
  | Some b => if b_score b <? b_score c then Some c else best
  end.

Section ZeroSimilarity.

Variable pt : Type.
Variable findHomography : list pt -> list pt -> option (list Z).


(** An edge that records the score of its pair, at or above the threshold. *)
Definition edge_scored (kps : string -> list pt)
    (feats : string -> option (list descriptor)) (inlier_threshold : Z)
    (e : string * string * Z) : Prop :=
  ransac_inliers pt findHomography
    (kps (fst (fst e))) (feats (fst (fst e)))
    (kps (snd (fst e))) (feats (snd (fst e))) = Ok (snd e) /\
  inlier_threshold <= snd e.

(** The number of descriptor rows of an image, when it has descriptors. *)
Definition rows_between (lo hi : nat) (des : option (list descriptor)) : Prop :=
  exists d, des = Some d /\ (lo <= List.length d < hi)%nat.

End ZeroSimilarity.

(** Two pages for which the two orders of scoring differ.  Page A shows
    twelve distinct features on a grid and a thirteenth that repeats the
    first descriptor elsewhere; page B shows the twelve. *)
Definition grid12 : list (Z * Z) :=
  [(0, 0); (10, 0); (20, 0); (30, 0);
   (0, 10); (10, 10); (20, 10); (30, 10);
   (0, 20); (10, 20); (20, 20); (30, 20)].

Definition des12 : list descriptor :=
  [1; 2; 3; 4; 5; 6; 7; 8; 9; 10; 11; 12]%N.

Definition kpA : list (Z * Z) := (grid12 ++ [(200, 200)])%list.
Definition desA : list descriptor := (des12 ++ [1%N])%list.
Definition kpB : list (Z * Z) := grid12.
Definition desB : list descriptor := des12.

(** A stand-in for the robust estimator: the consensus of the identity
    transform, which marks a match as an inlier when both of its points
    coincide. *)
Definition identity_consensus (pts1 pts2 : list (Z * Z)) : option (list Z) :=
  Some (map (fun pq => if ((fst (fst pq) =? fst (snd pq)) &&
                           (snd (fst pq) =? snd (snd pq)))%bool
                       then 1 else 0)
            (combine pts1 pts2)).

(** Two pages with three and four features, of which three match, and an
    estimator that never returns a mask. *)
Definition kps_small (name : string) : list (Z * Z) :=
  if String.eqb name "a" then [(0, 0); (10, 0); (20, 0)]
  else [(0, 0); (10, 0); (20, 0); (30, 0)].

Definition feats_small (name : string) : option (list descriptor) :=
  if String.eqb name "a" then Some [1; 2; 4]%N else Some [1; 2; 4; 255]%N.




(** The ID range of a segment, and the ranges of a state's segments: the
    closed ones in the order they were closed, then the open one. *)
Definition span (s : segment) : Z * Z := (start_efta_id s, end_efta_id s).

Definition open_segment (st : seg_state) : list segment :=
  match cur st with
  | Some c => [c]
  | None => []
  end.

Definition all_segments (st : seg_state) : list segment :=
  (segments st ++ open_segment st)%list.

Definition spans (st : seg_state) : list (Z * Z) := map span (all_segments st).

(** One range ends before the other starts. *)
Definition span_before (a b : Z * Z) : Prop := snd a < fst b.

(** The ranges follow one another and none reaches past [last]. *)
Definition ordered_upto (last : Z) (sp : list (Z * Z)) : Prop :=
  StronglySorted span_before sp /\ Forall (fun a => snd a <= last) sp.

(** The IDs of the slate pages of a stream. *)
Definition slate_ids (rows : list page) : list Z :=
  map efta_id (filter is_slate rows).

(** What the fold maintains about the slate pages seen so far: their IDs
    and the ends of all ranges are at most [last], no slate ID lies in a
    range, and the open segment started after every slate. *)
Definition slate_inv (last : Z) (slates : list Z) (st : seg_state) : Prop :=
  Forall (fun z => z <= last) slates /\
  Forall (fun a => snd a <= last) (spans st) /\
  Forall (fun a => forall z, In z slates -> ~ (fst a <= z <= snd a)) (spans st) /\
  (forall c, cur st = Some c -> forall z, In z slates -> z < start_efta_id c).

(** A marker text that a segment may carry: a valid marker, or the
    placeholder when placeholders are kept. *)
Definition marker_ok (keep : bool) (mk : string) : Prop :=
  is_valid_marker (Some mk) = true \/ (keep = true /\ mk = "UNMARKED").

(** The last element of a list, when there is one. *)
Fixpoint last_opt {A : Type} (l : list A) : option A :=
  match l with
  | [] => None
  | [a] => Some a
  | _ :: tl => last_opt tl
  end.

(** Whenever a segment was closed because the marker changed, the segment
    that follows it carries another marker. *)
Fixpoint changes_ok (l : list segment) : Prop :=
  match l with
  | [] => True
  | s :: tl =>
      match tl with
      | [] => True
      | t :: _ =>
          reset_reason s = "marker_change" -> marker_text t <> marker_text s
      end /\ changes_ok tl
  end.

(** What the fold maintains about marker changes: the segments so far obey
    [changes_ok], and a segment closed for a marker change is never left
    without a successor. *)
Definition marker_change_inv (st : seg_state) : Prop :=
  changes_ok (all_segments st) /\
  (cur st = None ->
   forall s, last_opt (segments st) = Some s ->
             reset_reason s <> "marker_change").

(** A page ID lies in the ID range of a segment. *)
Definition in_segment (x : Z) (s : segment) : Prop :=
  start_efta_id s <= x <= end_efta_id s.

(** No page ID lies in the ranges of two segments of the list. *)
Definition pairwise_disjoint (L : list segment) : Prop :=
  forall i j s t,
    i <> j -> nth_error L i = Some s -> nth_error L j = Some t ->
    forall x, ~ (in_segment x s /\ in_segment x t).

(** The page carries no valid marker. *)
Definition no_valid_marker (p : page) : Prop :=
  has_marker p <> Some true \/ is_valid_marker (marker p) = false.

(** Every field of [c'] but the end of the range and the file count is
    that of [c]. *)
Definition same_identity (c c' : segment) : Prop :=
  segment_id c' = segment_id c /\ location_label c' = location_label c /\
  shoot_index c' = shoot_index c /\ marker_text c' = marker_text c /\
  start_efta_id c' = start_efta_id c /\ start_file_id c' = start_file_id c /\
  reset_reason c' = reset_reason c.

(** Every field of [c'] but the reset reason is that of [c]. *)
Definition same_identity_but_reason (c c' : segment) : Prop :=
  segment_id c' = segment_id c /\ location_label c' = location_label c /\
  shoot_index c' = shoot_index c /\ marker_text c' = marker_text c /\
  start_efta_id c' = start_efta_id c /\ start_file_id c' = start_file_id c /\
  end_efta_id c' = end_efta_id c /\ end_file_id c' = end_file_id c /\
  n_files c' = n_files c.

(** A stream in the spirit of the scenarios: five pages marked B, a slate,
    three pages without a marker, two pages marked CC. *)
Definition marked_page (id : Z) (mk : option string) : page :=
  mkPage id "EFTA" (Some "L1") (Some 1) false
         (match mk with Some _ => Some true | None => Some false end) mk.

Definition slate_page (id : Z) : page :=
  mkPage id "EFTA" (Some "L1") (Some 1) true (Some false) None.

(** The state after the first five pages of the stream below: a segment
    marked B is open. *)
Definition five_B_pages : list page :=
  [marked_page 1 (Some "B"); marked_page 2 (Some "B"); marked_page 3 (Some "B");
   marked_page 4 (Some "B"); marked_page 5 (Some "B")].

Definition state_after_five : seg_state := main_loop false five_B_pages.

Definition scenario_rows : list page :=
  [marked_page 1 (Some "B"); marked_page 2 (Some "B"); marked_page 3 (Some "B");
   marked_page 4 (Some "B"); marked_page 5 (Some "B");
   slate_page 6;
   marked_page 7 None; marked_page 8 None; marked_page 9 None;
   marked_page 10 (Some "CC"); marked_page 11 (Some "CC")].

(** The boolean test of [in_segment]. *)
Definition in_segmentb (x : Z) (s : segment) : bool :=
  ((start_efta_id s <=? x) && (x <=? end_efta_id s))%bool.

(** The page is of the kind that a segment takes in: no slate, of the
    segment's location and shoot, and with no valid marker or with the
    segment's marker. *)
Definition joined (p : page) (s : segment) : Prop :=
  is_slate p = false /\
  page_loc p = location_label s /\
  shoot p = shoot_index s /\
  (new_marker p = None \/ new_marker p = Some (marker_text s)).

(** The segment against the pages of the stream: its file count is the
    number of pages in its ID range, every such page is of its kind, its
    first page carries its marker (or none, for a placeholder), and its
    last page gives its end. *)
Definition members_ok (rows : list page) (s : segment) : Prop :=
  n_files s
  = Z.of_nat (List.length (filter (fun p => in_segmentb (efta_id p) s) rows)) /\
  (forall p, In p rows -> in_segment (efta_id p) s -> joined p s) /\
  (exists p0, In p0 rows /\ efta_id p0 = start_efta_id s /\
              file_id p0 = start_file_id s /\
              (new_marker p0 = Some (marker_text s) \/
               (new_marker p0 = None /\ marker_text s = "UNMARKED"))) /\
  (exists p1, In p1 rows /\ efta_id p1 = end_efta_id s /\
              file_id p1 = end_file_id s).

(** What the fold maintains about the pages seen so far. *)
Definition member_inv (last : Z) (seen : list page) (st : seg_state) : Prop :=
  Forall (fun p => efta_id p <= last) seen /\
  Forall (fun s => end_efta_id s <= last) (all_segments st) /\
  Forall (members_ok seen) (all_segments st) /\
  (forall c, cur st = Some c ->
             end_efta_id c = last /\
             prev_loc st = Some (location_label c) /\
             prev_shoot st = shoot_index c).

(** The segment numbers 1, 2, ..., n. *)
Definition numbers_upto (n : nat) : list Z := map Z.of_nat (seq 1 n).

(** What the fold maintains about segment numbers. *)
Definition numbering_inv (st : seg_state) : Prop :=
  map segment_id (all_segments st)
  = numbers_upto (List.length (all_segments st)) /\
  seg_id st = Z.of_nat (List.length (all_segments st)).

(** The reasons for which a segment is closed before the stream ends. *)
Definition closed_early (s : segment) : Prop :=
  reset_reason s = "location_change" \/ reset_reason s = "shoot_change" \/
  reset_reason s = "slate" \/ reset_reason s = "marker_change".

(** A segment of the first segmentation as the second one writes it: the
    missing location becomes "UNKNOWN", the confidence is still to be set,
    and the reset reason is given. *)
Definition upgrade_segment (reason : string) (s : segment_v1) : segment :=
  mkSegment (v1_segment_id s)
            (match v1_location_label s with Some l => l | None => "UNKNOWN" end)
            (v1_shoot_index s) (v1_marker_text s)
            (v1_start_efta_id s) (v1_start_file_id s)
            (v1_end_efta_id s) (v1_end_file_id s) (v1_n_files s) 0 reason.

(** All segments but the last were closed by a change of marker, the last
    one by the end of the stream. *)
Fixpoint upgrade_segments (l : list segment_v1) : list segment :=
  match l with
  | [] => []
  | s :: tl =>
      match tl with
      | [] => [upgrade_segment "eof" s]
      | _ :: _ => upgrade_segment "marker_change" s :: upgrade_segments tl
      end
  end.

(** A stream without slates whose pages share one location and shoot. *)
Definition uniform_stream (lo : option string) (sh : option Z)
    (rows : list page) : Prop :=
  Forall (fun p => is_slate p = false /\ loc p = lo /\ shoot p = sh) rows.

(** The two folds side by side. *)
Definition folds_agree (lo : option string) (sh : option Z)
    (st1 : v1_state) (st2 : seg_state) : Prop :=
  segments st2 = map (upgrade_segment "marker_change") (v1_segments st1) /\
  cur st2 = option_map (upgrade_segment "") (v1_cur st1) /\
  seg_id st2 = v1_seg_id st1 /\
  (v1_cur st1 = None -> v1_segments st1 = []) /\
  (prev_loc st2 = None \/
   (prev_loc st2 = Some (match lo with Some l => l | None => "UNKNOWN" end) /\
    prev_shoot st2 = sh)).

(** [a] stands before [b] in the list of names. *)
Definition stands_before (names : list string) (a b : string) : Prop :=
  exists pre mid post, names = (pre ++ a :: mid ++ b :: post)%list.

(** No pair budget: [limit_pairs] is [None] or 0. *)
Definition no_budget (limit_pairs : option Z) : Prop :=
  limit_pairs = None \/ limit_pairs = Some 0.

(** No edge of [l] starts at a name of [todo], and no edge from [a] ends
    at one. *)
Definition starts_clear (a : string) (todo : list string)
    (l : list (string * string * Z)) : Prop :=
  forall e, In e l ->
    ~ In (fst (fst e)) todo /\ (fst (fst e) = a -> ~ In (snd (fst e)) todo).

(** [G[a][b]["weight"]], when an edge joins [a] and [b]. *)
Definition edge_weight (G : graph) (a b : string) : option Z :=
  option_map snd (find (joins a b) (edges G)).

(** The two pages A and B of above, by name. *)
Definition kps_AB (name : string) : list (Z * Z) :=
  if String.eqb name "A" then kpA else kpB.

Definition feats_AB (name : string) : option (list descriptor) :=
  if String.eqb name "A" then Some desA else Some desB.

(** A key without a dot. *)
Definition dot_free (k : string) : bool :=
  all_chars (fun c => negb (Ascii.eqb c ".")) k.

(** The shoots of all seed entries in the order in which they are tried,
    each with the location of its entry. *)
Definition all_shoots (entries : list seed_entry)
    : list (option string * shoot_cfg) :=
  flat_map (fun e => map (fun sh => (seed_location e, sh))
                         (match seed_shoots e with Some l => l | None => [] end))
           entries.

(** The shoot has both bounds, and its range holds the ID. *)
Definition shoot_bounded (sh : shoot_cfg) : Prop :=
  efta_start sh <> None /\ efta_end sh <> None.

Definition shoot_covers (efta : Z) (lsh : option string * shoot_cfg) : bool :=
  match efta_start (snd lsh), efta_end (snd lsh) with
  | Some a, Some b => ((a <=? efta) && (efta <=? b))%bool
  | _, _ => false
  end.

(** The assignment that a shoot gives, and the one of a page outside every
    range. *)
Definition assignment_of (lsh : option string * shoot_cfg) : assignment :=
  (fst lsh, shoot_index_cfg (snd lsh), "range_seed",
   match confidence_cfg (snd lsh) with Some c => c | None => 9 # 10 end).

Definition unassigned : assignment := (None, None, "range_seed", 1 # 2).

(** A configuration in the shape of the project's: two shoots at one
    location, an open-ended one at another. *)
Definition sample_seeds : list seed_entry :=
  [mkSeed (Some "NY") (Some [mkShoot (Some 1) (Some 836) (Some 1) (Some (95 # 100));
                             mkShoot (Some 837) (Some 1499) (Some 2) None]);
   mkSeed (Some "LSJ") (Some [mkShoot (Some 1500) (Some 99999999) None (Some (8 # 10))]);
   mkSeed None None].

Definition sample_cfg : yaml :=
  YDict [("paths", YDict [("input_dir", YStr "in"); ("db_path", YNull)]);
         ("ocr", YDict [("enabled", YBool true);
                        ("slate", YDict [("psm", YInt 6)])])].

(** The numbers a range stands for. *)
Definition expand (r : Z * Z) : list Z := py_range (fst r) (snd r + 1).

(** A range lies before another and at least one number separates them. *)
Definition apart (r1 r2 : Z * Z) : Prop := snd r1 + 1 < fst r2.

Definition covers (r : Z * Z) (i : Z) : Prop := fst r <= i <= snd r.

(** * Properties *)

(** ** Strings *)

Lemma len_cons (c : ascii) (s : string) : len (String c s) = len s + 1.
Proof. unfold len; cbn [String.length]; lia. Qed.

Lemma len_nonneg (s : string) : 0 <= len s.
Proof. unfold len; lia. Qed.

Lemma len_empty : len "" = 0.
Proof. reflexivity. Qed.

Lemma is_AZ_isalpha (c : ascii) : is_AZ c = true -> isalpha_char c = true.
Proof. unfold isalpha_char; intros ->; reflexivity. Qed.

(** ** The validity predicate of the segmentation *)

(** C4. [is_valid_marker m] holds exactly when [m] is a string of one
    alphabetic character, or of two identical alphabetic characters; any
    other string, and [None], is rejected. *)
Theorem is_valid_marker_spec (m : option string) :
  is_valid_marker m = true <->
  exists c : ascii,
    isalpha_char c = true /\
    (m = Some (String c "") \/ m = Some (String c (String c ""))).
Proof.
  split.
  - destruct m as [s|]; [|discriminate].
    destruct s as [|c0 [|c1 [|c2 s]]]; cbn [is_valid_marker].
    + discriminate.
    + cbn. rewrite andb_true_r.
      destruct (isalpha_char c0) eqn:E; [|discriminate].
      intros _; exists c0; auto.
    + cbn -[isalpha_char Ascii.eqb].
      destruct (Ascii.eqb_spec c0 c1) as [->|]; [|discriminate].
      rewrite andb_true_r, andb_diag.
      destruct (isalpha_char c1) eqn:E; [|discriminate].
      intros _; exists c1; auto.
    + rewrite !len_cons.
      pose proof (len_nonneg s).
      destruct (len s + 1 + 1 + 1 =? 1) eqn:E1; [lia|].
      destruct (len s + 1 + 1 + 1 =? 2) eqn:E2; [lia|].
      discriminate.
  - intros (c & Hc & [-> | ->]); cbn -[isalpha_char Ascii.eqb].
    + now rewrite Hc.
    + now rewrite Hc, Ascii.eqb_refl.
Qed.

(** ** Slate detection *)

Section SlateFacts.

Variable image : Type.
Variable ocr_text : image -> string -> Z -> option string -> string.

Local Abbreviation detect := (detect_slate image ocr_text).
Local Abbreviation hit img roi psm :=
  (keyword_hit (slate_up image ocr_text img roi psm)
               (slate_compact image ocr_text img roi psm)).

Lemma slate_found_eq img roi psm kws mn strong :
  slate_found (detect img roi psm kws mn strong)
  = filter (hit img roi psm) kws.
Proof. reflexivity. Qed.

Lemma slate_flag_eq img roi psm kws mn strong :
  slate_flag (detect img roi psm kws mn strong)
  = ((mn <=? Z.of_nat (List.length (slate_found (detect img roi psm kws mn strong))))
     || strong_rule (slate_up image ocr_text img roi psm)
                    (slate_compact image ocr_text img roi psm) strong)%bool.
Proof. reflexivity. Qed.

(** C10. With an empty strong-keyword list the strong rule is false, not
    vacuously true: the flag is then just the comparison of the number of
    matched keywords with [min_keywords]. *)
Theorem detect_slate_empty_strong img roi psm kws mn :
  strong_rule (slate_up image ocr_text img roi psm)
              (slate_compact image ocr_text img roi psm) [] = false /\
  slate_flag (detect img roi psm kws mn [])
  = (mn <=? Z.of_nat (List.length (slate_found (detect img roi psm kws mn [])))).
Proof.
  split; [reflexivity|].
  rewrite slate_flag_eq. cbn [strong_rule]. apply orb_false_r.
Qed.

(** C7, amended. When the strong-keyword list is not empty, the flag is
    set exactly when the number of matched keywords reaches
    [min_keywords] or every strong keyword is matched, in the raw
    upper-cased text or in the compacted one. *)
Theorem detect_slate_flag img roi psm kws mn strong :
  strong <> [] ->
  (slate_flag (detect img roi psm kws mn strong) = true <->
   (mn <= Z.of_nat (List.length (slate_found (detect img roi psm kws mn strong))) \/
    forall k, In k strong -> hit img roi psm k = true)).
Proof.
  intros Hne. rewrite slate_flag_eq, orb_true_iff, Z.leb_le.
  destruct strong as [|k0 ks]; [congruence|].
  cbn [strong_rule]. rewrite forallb_forall. reflexivity.
Qed.

End SlateFacts.

(** ** Marker detection *)

Lemma re_sub_not_all (class : ascii -> bool) (s : string) :
  all_chars class (re_sub_not class s) = true.
Proof.
  induction s as [|c s IH]; cbn; [reflexivity|].
  destruct (class c) eqn:E; cbn; [now rewrite E|exact IH].
Qed.

Lemma is_AZ_newline : is_AZ newline = false.
Proof. reflexivity. Qed.

Lemma room_re_default_capitals (s : string) :
  room_re_default s = true -> all_chars is_AZ s = true ->
  one_or_two_capitals s.
Proof.
  destruct s as [|c [|d [|e s]]]; cbn -[is_AZ newline]; intros Hre Hall.
  - discriminate.
  - rewrite andb_true_r in Hall. exists c; auto.
  - apply andb_true_iff in Hall as [Hc Hd].
    rewrite andb_true_r in Hd. exists c; split; [exact Hc|].
    right; exists d; auto.
  - apply andb_true_iff in Hall as [_ Hall].
    apply andb_true_iff in Hall as [_ Hall].
    apply andb_true_iff in Hall as [He _].
    destruct s; rewrite ?andb_false_r, ?orb_false_r in Hre;
      try discriminate.
    rewrite !andb_true_iff in Hre. destruct Hre as (_ & _ & Hre).
    apply Ascii.eqb_eq in Hre; subst e.
    rewrite is_AZ_newline in He; discriminate.
Qed.

(** Every token of [re.findall(r"[A-Z]{1,2}", s)] is one or two capitals;
    the scan steps over one or two characters, hence the paired statement. *)
Lemma findall_tokens_capitals (s : string) :
  Forall one_or_two_capitals (findall_AZ_1_2 s) /\
  forall c, Forall one_or_two_capitals (findall_AZ_1_2 (String c s)).
Proof.
  induction s as [|d s [IH1 IH2]].
  - split; [constructor|].
    intros c; cbn -[is_AZ]. destruct (is_AZ c) eqn:Hc; constructor; [|constructor].
    exists c; auto.
  - split; [apply IH2|].
    intros c. cbn -[is_AZ]. fold (findall_AZ_1_2 (String d s)).
    destruct (is_AZ c) eqn:Hc; [|apply IH2].
    destruct (is_AZ d) eqn:Hd; constructor; try apply IH1; try apply IH2.
    + exists c; split; [exact Hc|]. right; exists d; auto.
    + exists c; auto.
Qed.

Lemma filter_head_In {A : Type} (f : A -> bool) (l : list A) (x : A) (r : list A) :
  filter f l = x :: r -> In x l /\ f x = true.
Proof.
  intros H. apply filter_In. rewrite H. left; reflexivity.
Qed.

Lemma best_candidate_capitals (txt s : string) :
  best_candidate_from_text room_re_default txt = Some s ->
  one_or_two_capitals s.
Proof.
  unfold best_candidate_from_text.
  destruct (room_re_default (clean_letters txt)) eqn:Hre.
  - intros [= <-]. apply room_re_default_capitals; [exact Hre|].
    apply re_sub_not_all.
  - destruct (filter room_re_default (findall_AZ_1_2 (upper txt))) as [|t r] eqn:Hf;
      [discriminate|].
    intros [= <-]. apply filter_head_In in Hf as [Hin _].
    pose proof (proj1 (findall_tokens_capitals (upper txt))) as Hall.
    rewrite Forall_forall in Hall. now apply Hall.
Qed.

Section MarkerFacts.

Variable image : Type.
Variable ocr_text : image -> string -> Z -> option string -> string.

Local Abbreviation cand_at := (candidate_at image ocr_text).
Local Abbreviation try_cfg := (try_config image ocr_text).

Lemma try_config_keep_better img wl room_re r p base best :
  try_cfg img wl room_re r p base best
  = match cand_at img wl room_re (r, p, base) with
    | Some c => keep_better best c
    | None => best
    end.
Proof.
  unfold try_config, candidate_at.
  destruct (best_candidate_from_text room_re _) as [cand|]; [|reflexivity].
  destruct (truthy cand); [|reflexivity].
  destruct best as [b|]; reflexivity.
Qed.

Lemma fold_roi_step_candidates img wl room_re rois best :
  fold_left (roi_step image ocr_text img wl room_re) rois best
  = fold_left keep_better
      (candidates_of image ocr_text img wl room_re (attempts_of rois)) best.
Proof.
  revert best. induction rois as [|r rois IH]; intros best; [reflexivity|].
  cbn [fold_left]. rewrite IH. unfold roi_step.
  rewrite !try_config_keep_better.
  unfold candidates_of, attempts_of. cbn [flat_map app].
  destruct (cand_at img wl room_re (r, 10, 10)) as [c1|];
    destruct (cand_at img wl room_re (r, 8, 8)) as [c2|]; reflexivity.
Qed.

End MarkerFacts.

Lemma first_best_head_le (c w : best_t) (l : list best_t) :
  first_best (c :: l) w -> b_score c <= b_score w.
Proof.
  intros (pre & post & Heq & Hpre & _).
  destruct pre as [|x pre]; cbn in Heq; injection Heq as -> _; [lia|].
  inversion Hpre; subst; lia.
Qed.

Lemma fold_keep_better_some (l : list best_t) (b : best_t) :
  exists w, fold_left keep_better l (Some b) = Some w /\ first_best (b :: l) w.
Proof.
  revert b. induction l as [|c l IH]; intros b.
  - exists b. split; [reflexivity|]. exists [], []. repeat split; constructor.
  - cbn [fold_left keep_better].
    destruct (b_score b <? b_score c) eqn:E.
    + apply Z.ltb_lt in E.
      destruct (IH c) as (w & Hw & Hfb). exists w; split; [exact Hw|].
      pose proof (first_best_head_le _ _ _ Hfb) as Hle.
      destruct Hfb as (pre & post & Heq & Hpre & Hpost).
      exists (b :: pre), post. repeat split.
      * cbn. now rewrite Heq.
      * constructor; [lia|exact Hpre].
      * exact Hpost.
    + apply Z.ltb_ge in E.
      destruct (IH b) as (w & Hw & Hfb). exists w; split; [exact Hw|].
      destruct Hfb as (pre & post & Heq & Hpre & Hpost).
      destruct pre as [|x pre]; cbn in Heq; injection Heq as <- ->.
      * exists [], (c :: post). repeat split; [constructor|].
        constructor; [lia|exact Hpost].
      * inversion Hpre; subst.
        exists (b :: c :: pre), post. repeat split; [|exact Hpost].
        constructor; [assumption|]. constructor; [lia|assumption].
Qed.

Lemma fold_keep_better_first (l : list best_t) :
  match l with
  | [] => fold_left keep_better l None = None
  | _ :: _ => exists w, fold_left keep_better l None = Some w /\ first_best l w
  end.
Proof.
  destruct l as [|c l]; [reflexivity|]. apply fold_keep_better_some.
Qed.

Lemma first_best_In (l : list best_t) (w : best_t) : first_best l w -> In w l.
Proof.
  intros (pre & post & -> & _). apply in_or_app. right; left; reflexivity.
Qed.

Section MarkerClaims.

Variable image : Type.
Variable ocr_text : image -> string -> Z -> option string -> string.

Local Abbreviation detect := (detect_room_marker image ocr_text).
Local Abbreviation cands := (candidates image ocr_text).

Lemma candidates_of_capitals img wl atts b :
  In b (candidates_of image ocr_text img wl room_re_default atts) ->
  one_or_two_capitals (b_marker b).
Proof.
  unfold candidates_of. rewrite in_flat_map.
  intros ([[r p] base] & _ & Hin). unfold candidate_at in Hin.
  destruct (best_candidate_from_text room_re_default _) as [cand|] eqn:Hc;
    [|contradiction].
  destruct (truthy cand); [|contradiction].
  destruct Hin as [<-|[]]. cbn. now apply best_candidate_capitals in Hc.
Qed.

(** The multi-ROI search returns the first candidate, in evaluation order,
    that reaches the highest score, and no marker when there is no
    candidate at all. *)
Lemma detect_multi_first_best img psm wl room_re :
  match cands img wl room_re with
  | [] => detect img "multi" psm wl room_re = (false, None, "")
  | _ :: _ =>
      exists w, first_best (cands img wl room_re) w /\
                detect img "multi" psm wl room_re
                = (true, Some (b_marker w), debug_text w)
  end.
Proof.
  unfold detect_room_marker. cbn [String.eqb Ascii.eqb Bool.eqb negb].
  rewrite fold_roi_step_candidates. fold (cands img wl room_re).
  pose proof (fold_keep_better_first (cands img wl room_re)) as H.
  destruct (cands img wl room_re) as [|c l]; [now rewrite H|].
  destruct H as (w & -> & Hfb). exists w; split; [exact Hfb|reflexivity].
Qed.

(** C1, amended. Under the default pattern a reported marker is a string
    of one or two capital letters; the two letters need not be equal. *)
Theorem detect_room_marker_capitals img roi psm wl m txt :
  detect img roi psm wl room_re_default = (true, m, txt) ->
  exists s, m = Some s /\ one_or_two_capitals s.
Proof.
  destruct (String.eqb roi "multi") eqn:Hroi.
  - apply String.eqb_eq in Hroi; subst roi.
    pose proof (detect_multi_first_best img psm wl room_re_default) as H.
    destruct (cands img wl room_re_default) as [|c l] eqn:Hc.
    + rewrite H; discriminate.
    + destruct H as (w & Hfb & ->). intros [= <- _].
      exists (b_marker w); split; [reflexivity|].
      apply first_best_In in Hfb. rewrite <- Hc in Hfb.
      now apply candidates_of_capitals in Hfb.
  - unfold detect_room_marker. rewrite Hroi. cbn [negb].
    destruct (best_candidate_from_text room_re_default
                (ocr_text img roi psm (Some wl))) as [s|] eqn:H1; cbn [truthy_opt].
    + destruct (truthy s).
      * intros [= <- _]. exists s; split; [reflexivity|].
        now apply best_candidate_capitals in H1.
      * destruct (best_candidate_from_text room_re_default
                    (ocr_text img roi 10 (Some wl))) as [s2|] eqn:H2;
          cbn [truthy_opt]; [|discriminate].
        destruct (truthy s2); [|discriminate].
        intros [= <- _]. exists s2; split; [reflexivity|].
        now apply best_candidate_capitals in H2.
    + destruct (best_candidate_from_text room_re_default
                  (ocr_text img roi 10 (Some wl))) as [s2|] eqn:H2;
        cbn [truthy_opt]; [|discriminate].
      destruct (truthy s2); [|discriminate].
      intros [= <- _]. exists s2; split; [reflexivity|].
      now apply best_candidate_capitals in H2.
Qed.

Lemma attempts_of_modes (rois : list string) (a : string * Z * Z) :
  In a (attempts_of rois) ->
  (snd (fst a) = 10 /\ snd a = 10) \/ (snd (fst a) = 8 /\ snd a = 8).
Proof.
  unfold attempts_of. rewrite in_flat_map.
  intros (r & _ & [<- | [<- | []]]); cbn [fst snd]; auto.
Qed.

(** C5, amended. In the multi-ROI search every candidate is read at
    single-character mode (psm 10) or at single-word mode (psm 8), and its
    score is 10 at the first and 8 at the second, plus 2 when it has two
    letters, equal or not, and 1 otherwise, plus five minus the length of
    the cleaned text, as far as that is above zero; the winner is the
    first candidate in evaluation order that reaches the highest score. *)
Theorem marker_scoring_and_winner img psm wl room_re :
  (forall a b,
      In a (attempts_of roi_list) ->
      candidate_at image ocr_text img wl room_re a = Some b ->
      b_roi b = fst (fst a) /\ b_psm b = snd (fst a) /\
      b_text b = ocr_text img (b_roi b) (b_psm b) (Some wl) /\
      best_candidate_from_text room_re (b_text b) = Some (b_marker b) /\
      (b_psm b = 10 \/ b_psm b = 8) /\
      b_score b
      = (if b_psm b =? 10 then 10 else 8)
        + (if len (b_marker b) =? 2 then 2 else 1)
        + Z.max 0 (5 - len (clean_letters (b_text b)))) /\
  match cands img wl room_re with
  | [] => detect img "multi" psm wl room_re = (false, None, "")
  | _ :: _ =>
      exists w, first_best (cands img wl room_re) w /\
                detect img "multi" psm wl room_re
                = (true, Some (b_marker w), debug_text w)
  end.
Proof.
  split; [|apply detect_multi_first_best].
  intros [[r p] base] b Hin H. apply attempts_of_modes in Hin.
  cbn [fst snd] in Hin |- *. unfold candidate_at in H.
  destruct (best_candidate_from_text room_re (ocr_text img r p (Some wl)))
    as [cand|] eqn:Hc; [|discriminate].
  destruct (truthy cand); [|discriminate].
  injection H as <-. cbn [b_roi b_psm b_text b_marker b_score].
  split; [reflexivity|]. split; [reflexivity|]. split; [reflexivity|].
  split; [exact Hc|]. unfold candidate_score.
  destruct Hin as [[-> ->] | [-> ->]]; (split; [auto|reflexivity]).
Qed.

End MarkerClaims.

(** ** Keypoint similarity scorer *)

Lemma insert_match_length (m : DMatch) (l : list DMatch) :
  List.length (insert_match m l) = S (List.length l).
Proof.
  induction l as [|x l IH]; cbn; [reflexivity|].
  destruct (distance m <? distance x)%N; cbn; [reflexivity|now rewrite IH].
Qed.

Lemma fold_insert_length (i : nat) (q : descriptor)
    (jts : list (nat * descriptor)) (acc : list DMatch) :
  List.length
    (fold_left (fun acc jt => insert_match (mkDMatch i (fst jt) (hamming q (snd jt))) acc)
               jts acc)
  = (List.length jts + List.length acc)%nat.
Proof.
  revert acc. induction jts as [|jt jts IH]; intros acc; cbn [fold_left]; [reflexivity|].
  rewrite IH, insert_match_length. cbn; lia.
Qed.

Lemma enumerate_length {A : Type} (l : list A) :
  List.length (enumerate l) = List.length l.
Proof.
  unfold enumerate. rewrite length_combine, length_seq. apply Nat.min_id.
Qed.

Lemma ranked_matches_length (i : nat) (q : descriptor) (train : list descriptor) :
  List.length (ranked_matches i q train) = List.length train.
Proof.
  unfold ranked_matches. rewrite fold_insert_length, enumerate_length. cbn; lia.
Qed.

(** A row of two matches. *)
Lemma knn_rows_are_pairs (d1 d2 : list descriptor) (row : list DMatch) :
  (2 <= List.length d2)%nat -> In row (knnMatch d1 d2 2) ->
  exists m n, row = [m; n].
Proof.
  intros Hlen Hin. unfold knnMatch in Hin.
  apply in_map_iff in Hin as (iq & <- & _).
  pose proof (ranked_matches_length (fst iq) (snd iq) d2) as Hr.
  destruct (ranked_matches (fst iq) (snd iq) d2) as [|m [|n r]];
    cbn in Hr; try lia.
  exists m, n; reflexivity.
Qed.

Lemma knn_length_le (d1 d2 : list descriptor) (k : nat) :
  (List.length (knnMatch d1 d2 k) <= List.length d1)%nat.
Proof.
  unfold knnMatch. rewrite length_map, enumerate_length. lia.
Qed.

(** On rows of two matches the ratio loop ends normally and keeps at most
    one match per row. *)
Lemma ratio_test_pairs (knn : list (list DMatch)) (good : list DMatch) :
  (forall row, In row knn -> exists m n, row = [m; n]) ->
  exists good',
    ratio_test knn good = Ok good' /\
    (List.length good' <= List.length good + List.length knn)%nat.
Proof.
  revert good. induction knn as [|row knn IH]; intros good Hrows.
  - exists good; split; [reflexivity|cbn; lia].
  - destruct (Hrows row (or_introl eq_refl)) as (m & n & ->).
    cbn [ratio_test].
    destruct (IH (if passes_ratio m n then (good ++ [m])%list else good))
      as (good' & Hok & Hlen).
    { intros r Hr. apply Hrows. now right. }
    exists good'; split; [exact Hok|].
    destruct (passes_ratio m n); [rewrite length_app in Hlen|]; cbn in *; lia.
Qed.

(** The ratio loop ends normally when there is no query row, or when the
    train matrix has two rows or more. *)
Lemma ratio_test_completes (d1 d2 : list descriptor) :
  d1 = [] \/ (2 <= List.length d2)%nat ->
  exists good,
    ratio_test (knnMatch d1 d2 2) [] = Ok good /\
    (List.length good <= List.length d1)%nat.
Proof.
  intros H.
  destruct (ratio_test_pairs (knnMatch d1 d2 2) []) as (good & Hok & Hlen).
  - intros row Hin. destruct H as [-> | H]; [contradiction|].
    now apply (knn_rows_are_pairs d1 d2).
  - exists good. split; [exact Hok|].
    pose proof (knn_length_le d1 d2 2). cbn [List.length] in Hlen. lia.
Qed.

(** With a query row and a train matrix of fewer than two rows, the first
    row of the result is no pair and the loop raises. *)
Lemma ratio_test_short_train (d1 d2 : list descriptor) (good : list DMatch) :
  d1 <> [] -> (List.length d2 < 2)%nat ->
  ratio_test (knnMatch d1 d2 2) good = Raise ValueError.
Proof.
  intros Hne Hlen. destruct d1 as [|q d1]; [congruence|].
  unfold knnMatch, enumerate. cbn [List.length seq combine map fst snd ratio_test].
  pose proof (ranked_matches_length 0 q d2) as Hr.
  destruct (ranked_matches 0 q d2) as [|m [|n r]]; cbn in Hr |- *;
    try reflexivity; lia.
Qed.

(** ** The graph *)

Lemma has_node_In (G : graph) (n : string) :
  has_node G n = true <-> In n (nodes G).
Proof.
  unfold has_node. rewrite existsb_exists. split.
  - intros (x & Hx & E). apply String.eqb_eq in E. now subst.
  - intros H. exists n. split; [exact H|apply String.eqb_refl].
Qed.

Lemma add_node_present (G : graph) (n : string) :
  In n (nodes G) -> add_node G n = G.
Proof. intros H. unfold add_node. apply has_node_In in H. now rewrite H. Qed.

Lemma add_node_edges (G : graph) (n : string) :
  edges (add_node G n) = edges G.
Proof. unfold add_node. now destruct (has_node G n). Qed.

Lemma add_nodes_edges (names : list string) (G : graph) :
  edges (fold_left add_node names G) = edges G.
Proof.
  revert G. induction names as [|n names IH]; intros G; [reflexivity|].
  cbn [fold_left]. rewrite IH. apply add_node_edges.
Qed.

(** Distinct names that the graph does not have yet are added one after
    the other. *)
Lemma add_nodes_distinct (names : list string) (G : graph) :
  NoDup (nodes G ++ names) ->
  fold_left add_node names G = mkGraph (nodes G ++ names) (edges G).
Proof.
  revert G. induction names as [|n names IH]; intros G Hnd; cbn [fold_left].
  - rewrite app_nil_r. now destruct G.
  - assert (has_node G n = false) as Hn.
    { apply not_true_iff_false. rewrite has_node_In. intros Hin.
      apply NoDup_remove_2 in Hnd. apply Hnd. apply in_or_app. now left. }
    unfold add_node at 2. rewrite Hn. rewrite IH; cbn [nodes edges].
    + now rewrite <- app_assoc.
    + now rewrite <- app_assoc.
Qed.

(** An [add_edge] call adds at most one edge. *)
Lemma add_edge_length (G : graph) (a b : string) (w : Z) :
  (List.length (edges (add_edge G a b w)) <= S (List.length (edges G)))%nat.
Proof.
  unfold add_edge. cbv zeta. rewrite !add_node_edges.
  destruct (existsb (joins a b) (edges G)); cbn [edges].
  - rewrite length_map. lia.
  - rewrite length_app. cbn. lia.
Qed.

Lemma not_joined (a b : string) (l : list (string * string * Z)) :
  (forall e, In e l ->
     ~ (fst (fst e) = a /\ snd (fst e) = b) /\
     ~ (fst (fst e) = b /\ snd (fst e) = a)) ->
  existsb (joins a b) l = false.
Proof.
  intros Hall. apply not_true_iff_false. intros H.
  apply existsb_exists in H as (e & He & Hj). destruct (Hall e He) as [H1 H2].
  unfold joins in Hj. apply orb_true_iff in Hj as [Hj|Hj];
    apply andb_true_iff in Hj as [E1 E2];
    apply String.eqb_eq in E1; apply String.eqb_eq in E2; tauto.
Qed.

(** Between two nodes that no edge joins yet, [add_edge] puts a new edge
    behind the others. *)
Lemma add_edge_new (G : graph) (a b : string) (w : Z) :
  In a (nodes G) -> In b (nodes G) ->
  existsb (joins a b) (edges G) = false ->
  add_edge G a b w = mkGraph (nodes G) (edges G ++ [(a, b, w)]).
Proof.
  intros Ha Hb Hf. unfold add_edge.
  rewrite (add_node_present G a Ha), (add_node_present G b Hb), Hf. reflexivity.
Qed.

Lemma stands_before_cons (x : string) (l : list string) (a b : string) :
  stands_before (x :: l) a b <-> (x = a /\ In b l) \/ stands_before l a b.
Proof.
  split.
  - intros (pre & mid & post & Heq). destruct pre as [|y pre]; cbn [app] in Heq.
    + injection Heq as -> ->. left. split; [reflexivity|].
      apply in_or_app. right; now left.
    + injection Heq as -> ->. right. now exists pre, mid, post.
  - intros [[-> Hb] | (pre & mid & post & ->)].
    + apply in_split in Hb as (mid & post & ->). now exists [], mid, post.
    + now exists (x :: pre), mid, post.
Qed.



Lemma no_budget_over_limit lim pairs :
  no_budget lim -> over_limit lim pairs = false.
Proof. intros [-> | ->]; reflexivity. Qed.

Section RansacFacts.

Variable pt : Type.
Variable findHomography : list pt -> list pt -> option (list Z).

Local Abbreviation score := (ransac_inliers pt findHomography).

Lemma ransac_no_descriptors kp1 des1 kp2 des2 :
  des1 = None \/ des2 = None -> score kp1 des1 kp2 des2 = Ok 0.
Proof.
  intros [-> | ->]; [reflexivity|]. now destruct des1.
Qed.

Lemma ransac_few_rows kp1 des1 kp2 des2 :
  rows_between 0 12 des1 -> rows_between 2 12 des2 ->
  score kp1 des1 kp2 des2 = Ok 0.
Proof.
  intros (d1 & -> & H1) (d2 & -> & H2). unfold ransac_inliers.
  destruct (ratio_test_completes d1 d2) as (good & -> & Hlen); [right; lia|].
  cbn [bind].
  destruct (Z.of_nat (List.length good) <? 12) eqn:E; [reflexivity|].
  apply Z.ltb_ge in E. lia.
Qed.


(** C3, amended. The two orders of scoring agree, on zero, when an image
    has no descriptors, and when both images have at least two and fewer
    than twelve descriptor rows. *)
Theorem ransac_inliers_symmetric_when_sparse kp1 des1 kp2 des2 :
  des1 = None \/ des2 = None \/
  (rows_between 2 12 des1 /\ rows_between 2 12 des2) ->
  score kp1 des1 kp2 des2 = score kp2 des2 kp1 des1 /\
  score kp1 des1 kp2 des2 = Ok 0.
Proof.
  intros H.
  assert (score kp1 des1 kp2 des2 = Ok 0 /\ score kp2 des2 kp1 des1 = Ok 0)
    as [H1 H2].
  { destruct H as [H | [H | [Ha Hb]]].
    - split; apply ransac_no_descriptors; auto.
    - split; apply ransac_no_descriptors; auto.
    - split; apply ransac_few_rows; try assumption.
      + destruct Ha as (d & Hd & Hl); exists d; split; [exact Hd|lia].
      + destruct Hb as (d & Hd & Hl); exists d; split; [exact Hd|lia]. }
  split; [congruence|exact H1].
Qed.

Variable kps : string -> list pt.
Variable feats : string -> option (list descriptor).

Local Abbreviation pair_score a b :=
  (ransac_inliers pt findHomography (kps a) (feats a) (kps b) (feats b)).
Local Abbreviation scored := (edge_scored pt findHomography kps feats).
Local Abbreviation inner := (inner_loop pt findHomography kps feats).
Local Abbreviation outer := (outer_loop pt findHomography kps feats).

(** Scoring a pair adds at most one edge. *)
Lemma score_pair_length thr G a b G' :
  score_pair pt findHomography kps feats thr G a b = Ok G' ->
  (List.length (edges G') <= S (List.length (edges G)))%nat.
Proof.
  unfold score_pair. destruct (pair_score a b) as [inl|e]; cbn [bind]; [|discriminate].
  destruct (thr <=? inl); intros [= <-]; [apply add_edge_length|lia].
Qed.

(** Scoring a pair of nodes that no edge joins yet: the pair has a score,
    and the edge is put behind the others when the score reaches the
    threshold. *)
Lemma score_pair_new thr G a b G' :
  In a (nodes G) -> In b (nodes G) ->
  existsb (joins a b) (edges G) = false ->
  score_pair pt findHomography kps feats thr G a b = Ok G' ->
  nodes G' = nodes G /\
  exists w, pair_score a b = Ok w /\
            edges G' = if thr <=? w then (edges G ++ [(a, b, w)])%list else edges G.
Proof.
  intros Ha Hb Hf. unfold score_pair.
  destruct (pair_score a b) as [inl|e]; cbn [bind]; [|discriminate].
  intros [= <-]. destruct (thr <=? inl) eqn:E.
  - rewrite (add_edge_new G a b inl Ha Hb Hf). cbn [nodes edges].
    split; [reflexivity|]. exists inl. now rewrite E.
  - split; [reflexivity|]. exists inl. now rewrite E.
Qed.

(** The inner loop over distinct names: it puts behind the edges of the
    graph edges from [a] to names of [todo], each with the score of its
    pair, and without a pair budget it leaves out no pair that reaches
    the threshold. *)
Lemma inner_loop_distinct thr lim a todo pairs G pairs' G' :
  NoDup (a :: todo) -> In a (nodes G) -> incl todo (nodes G) ->
  starts_clear a todo (edges G) ->
  inner thr lim a todo pairs G = Ok (pairs', G') ->
  nodes G' = nodes G /\
  exists new,
    edges G' = (edges G ++ new)%list /\
    Forall (fun e => fst (fst e) = a /\ In (snd (fst e)) todo /\ scored thr e) new /\
    (no_budget lim ->
     forall b w, In b todo -> pair_score a b = Ok w -> thr <= w -> In (a, b, w) new).
Proof.
  revert pairs G.
  induction todo as [|b todo IH]; intros pairs G Hnd Ha Hincl Hclear; cbn [inner_loop].
  - intros [= _ <-]. split; [reflexivity|]. exists []. rewrite app_nil_r.
    split; [reflexivity|]. split; [constructor|]. intros _ b w [].
  - destruct (over_limit lim (pairs + 1)) eqn:Eo.
    + intros [= _ <-]. split; [reflexivity|]. exists []. rewrite app_nil_r.
      split; [reflexivity|]. split; [constructor|].
      intros Hlim. rewrite (no_budget_over_limit _ _ Hlim) in Eo. discriminate.
    + destruct (score_pair pt findHomography kps feats thr G a b) as [G1|e] eqn:Hsp;
        cbn [bind]; [|discriminate].
      intros Hin.
      assert (~ In a (b :: todo) /\ ~ In b todo /\ NoDup (a :: todo)) as (Hab & Hb & Hnd').
      { apply NoDup_cons_iff in Hnd as [Ha' Hnd]. split; [exact Ha'|].
        apply NoDup_cons_iff in Hnd as [Hb' Hnd]. split; [exact Hb'|].
        constructor; [|exact Hnd]. intros Hc. apply Ha'. now right. }
      destruct (score_pair_new thr G a b G1 Ha (Hincl b (or_introl eq_refl)))
        as (Hn1 & w & Hs & He1); [|exact Hsp|].
      { apply not_joined. intros e He. destruct (Hclear e He) as [H1 H2]. split.
        - intros [Hx Hy]. apply (H2 Hx). left. now symmetry.
        - intros [Hx _]. apply H1. left. now symmetry. }
      destruct (IH (pairs + 1) G1) as (Hn2 & new & He2 & Hnew & Hall);
        [exact Hnd'|now rewrite Hn1| | |exact Hin|].
      * intros x Hx. rewrite Hn1. apply Hincl. now right.
      * intros e He. rewrite He1 in He.
        assert (In e (edges G) \/ e = (a, b, w)) as [He' | ->].
        { destruct (thr <=? w); [|now left].
          apply in_app_or in He as [He|[<-|[]]]; [now left|now right]. }
        -- destruct (Hclear e He') as [H1 H2]. split.
           ++ intros Hc. apply H1. now right.
           ++ intros Hx Hc. apply (H2 Hx). now right.
        -- cbn [fst snd]. split; [intros Hc; apply Hab; now right|]. intros _; exact Hb.
      * split; [now rewrite Hn2|].
        exists ((if thr <=? w then [(a, b, w)] else []) ++ new)%list.
        split; [rewrite He2, He1; destruct (thr <=? w);
                [now rewrite <- app_assoc|reflexivity]|].
        split.
        -- apply Forall_app. split.
           ++ destruct (thr <=? w) eqn:E; constructor; [|constructor].
              cbn [fst snd]. split; [reflexivity|]. split; [now left|].
              split; [exact Hs|]. cbn [snd]. now apply Z.leb_le.
           ++ eapply Forall_impl; [|exact Hnew]. cbn beta.
              intros e (H1 & H2 & H3). split; [exact H1|]. split; [now right|exact H3].
        -- intros Hlim b0 w0 [<-|Hb0] Hs0 Hle; apply in_or_app.
           ++ left. rewrite Hs in Hs0. injection Hs0 as <-.
              apply Z.leb_le in Hle. rewrite Hle. now left.
           ++ right. now apply (Hall Hlim).
Qed.

(** The two loops over distinct names: every edge they add runs from a
    name to a later one and carries the score of that pair, and without
    a pair budget no pair that reaches the threshold is left out. *)
Lemma outer_loop_distinct thr lim names pairs G G' :
  NoDup names -> incl names (nodes G) ->
  (forall e, In e (edges G) -> ~ In (fst (fst e)) names) ->
  outer thr lim names pairs G = Ok G' ->
  nodes G' = nodes G /\
  exists new,
    edges G' = (edges G ++ new)%list /\
    Forall (fun e => stands_before names (fst (fst e)) (snd (fst e)) /\ scored thr e)
           new /\
    (no_budget lim ->
     forall a b w, stands_before names a b -> pair_score a b = Ok w -> thr <= w ->
                   In (a, b, w) new).
Proof.
  revert pairs G.
  induction names as [|a rest IH]; intros pairs G Hnd Hincl Hclear; cbn [outer_loop].
  - intros [= <-]. split; [reflexivity|]. exists []. rewrite app_nil_r.
    split; [reflexivity|]. split; [constructor|].
    intros _ a b w (pre & mid & post & Heq). destruct pre; discriminate.
  - destruct (inner thr lim a rest pairs G) as [[pairs1 G1]|e] eqn:Hin;
      cbn [bind]; [|discriminate].
    cbn [fst snd].
    pose proof Hnd as Hnd0. apply NoDup_cons_iff in Hnd0 as [Ha Hrest].
    destruct (inner_loop_distinct thr lim a rest pairs G pairs1 G1)
      as (Hn1 & new1 & He1 & Hnew1 & Hall1);
      [exact Hnd|apply Hincl; now left|intros x Hx; apply Hincl; now right| |exact Hin|].
    { intros e He. specialize (Hclear e He). split.
      - intros Hc. apply Hclear. now right.
      - intros Hx. destruct Hclear. now left. }
    assert (Forall (fun e => stands_before (a :: rest) (fst (fst e)) (snd (fst e)) /\
                             scored thr e) new1) as Hnew1'.
    { eapply Forall_impl; [|exact Hnew1]. cbn beta. intros e (H1 & H2 & H3).
      split; [|exact H3]. apply stands_before_cons. left. now split. }
    destruct (over_limit lim pairs1) eqn:Eo.
    + intros [= <-]. split; [exact Hn1|]. exists new1.
      split; [exact He1|]. split; [exact Hnew1'|].
      intros Hlim. rewrite (no_budget_over_limit _ _ Hlim) in Eo. discriminate.
    + intros Hout.
      destruct (IH pairs1 G1) as (Hn2 & new2 & He2 & Hnew2 & Hall2);
        [exact Hrest| | |exact Hout|].
      * intros x Hx. rewrite Hn1. apply Hincl. now right.
      * intros e He. rewrite He1 in He. apply in_app_or in He as [He|He].
        -- intros Hc. apply (Hclear e He). now right.
        -- rewrite Forall_forall in Hnew1. destruct (Hnew1 e He) as (-> & _).
           exact Ha.
      * split; [now rewrite Hn2|]. exists (new1 ++ new2)%list.
        split; [now rewrite He2, He1, <- app_assoc|]. split.
        -- apply Forall_app. split; [exact Hnew1'|].
           eapply Forall_impl; [|exact Hnew2]. cbn beta. intros e (H1 & H2).
           split; [|exact H2]. apply stands_before_cons. now right.
        -- intros Hlim x y w Hxy Hs Hle. apply in_or_app.
           apply stands_before_cons in Hxy as [[<- Hy] | Hxy].
           ++ left. now apply (Hall1 Hlim).
           ++ right. now apply (Hall2 Hlim).
Qed.

(** The graph built over distinct names: its nodes are the names, every
    edge runs from a name to a later one with the score of that pair,
    which reaches the threshold, and without a pair budget every such
    pair has its edge. *)
Lemma build_graph_distinct names thr lim G :
  NoDup names ->
  build_graph pt findHomography kps feats names thr lim = Ok G ->
  nodes G = names /\
  Forall (fun e => stands_before names (fst (fst e)) (snd (fst e)) /\ scored thr e)
         (edges G) /\
  (no_budget lim ->
   forall a b w, stands_before names a b -> pair_score a b = Ok w -> thr <= w ->
                 In (a, b, w) (edges G)).
Proof.
  intros Hnd Hb. unfold build_graph in Hb.
  rewrite (add_nodes_distinct names (mkGraph [] []) Hnd) in Hb. cbn [nodes edges app] in Hb.
  destruct (outer_loop_distinct thr lim names 0 (mkGraph names []) G Hnd)
    as (Hn & new & He & Hnew & Hall); [apply incl_refl|intros e []|exact Hb|].
  cbn [nodes edges app] in Hn, He. rewrite He. auto.
Qed.


End RansacFacts.

(** ** Sequential segmentation *)

Lemma strongly_sorted_snoc {A : Type} (R : A -> A -> Prop) (l : list A) (a : A) :
  StronglySorted R (l ++ [a]) <->
  StronglySorted R l /\ Forall (fun y => R y a) l.
Proof.
  induction l as [|x l IH]; cbn [app].
  - split; [intros _; split; constructor|intros _; repeat constructor].
  - split.
    + intros H. apply StronglySorted_inv in H as [Hs Hf].
      apply IH in Hs as [Hs Ha]. apply Forall_app in Hf as [Hf Hx].
      split; constructor; auto. now inversion Hx.
    + intros [Hs Hf]. apply StronglySorted_inv in Hs as [Hs Hx].
      inversion Hf; subst. constructor.
      * apply IH; auto.
      * apply Forall_app; split; [exact Hx|]. constructor; [assumption|constructor].
Qed.

Lemma strongly_sorted_nth {A : Type} (R : A -> A -> Prop) (l : list A) :
  StronglySorted R l ->
  forall i j a b, (i < j)%nat ->
    nth_error l i = Some a -> nth_error l j = Some b -> R a b.
Proof.
  induction 1 as [|x l Hs IH Hf]; intros i j a b Hij Hi Hj.
  - destruct i; discriminate.
  - destruct j as [|j]; [lia|]. cbn in Hj. destruct i as [|i]; cbn in Hi.
    + injection Hi as <-. rewrite Forall_forall in Hf.
      apply Hf. eapply nth_error_In; eassumption.
    + apply (IH i j); [lia|assumption|assumption].
Qed.

Lemma strongly_sorted_filter_map {A B : Type} (R : B -> B -> Prop)
    (g : A -> B) (f : A -> bool) (l : list A) :
  StronglySorted R (map g l) -> StronglySorted R (map g (filter f l)).
Proof.
  induction l as [|x l IH]; cbn [map filter]; [auto|].
  intros H. apply StronglySorted_inv in H as [Hs Hf].
  destruct (f x); [|auto]. cbn [map]. constructor; [auto|].
  rewrite Forall_forall in *. intros y Hy. apply Hf.
  apply in_map_iff in Hy as (z & <- & Hz). apply in_map.
  apply filter_In in Hz. tauto.
Qed.

(** Ordered ranges are disjoint. *)
Lemma ordered_spans_disjoint (L : list segment) :
  StronglySorted span_before (map span L) -> pairwise_disjoint L.
Proof.
  intros Hs i j s t Hij Hi Hj x [[Hs1 Hs2] [Ht1 Ht2]].
  assert (forall i j s t, (i < j)%nat ->
            nth_error L i = Some s -> nth_error L j = Some t ->
            end_efta_id s < start_efta_id t) as Hlt.
  { intros i' j' s' t' Hlt Hi' Hj'.
    apply (strongly_sorted_nth _ _ Hs i' j' (span s') (span t') Hlt).
    - now rewrite nth_error_map, Hi'.
    - now rewrite nth_error_map, Hj'. }
  destruct (Nat.lt_total i j) as [Hlt'|[Heq|Hgt]]; [|contradiction|].
  - specialize (Hlt i j s t Hlt' Hi Hj). lia.
  - specialize (Hlt j i t s Hgt Hj Hi). lia.
Qed.

(** *** The ranges of a state through the operations of the loop *)

Lemma span_set_reset_reason r c : span (set_reset_reason r c) = span c.
Proof. reflexivity. Qed.

Lemma span_set_confidence q c : span (set_confidence q c) = span c.
Proof. reflexivity. Qed.

Lemma spans_close_cur r st : spans (close_cur r st) = spans st.
Proof.
  unfold close_cur. destruct (cur st) as [c|] eqn:Hc; [|reflexivity].
  unfold spans, all_segments, open_segment. cbn. rewrite Hc.
  now rewrite app_nil_r, !map_app.
Qed.

Lemma cur_close_cur r st : cur (close_cur r st) = None.
Proof. unfold close_cur. destruct (cur st) eqn:E; [reflexivity|exact E]. Qed.

Lemma spans_set_prev l sh st : spans (set_prev l sh st) = spans st.
Proof. reflexivity. Qed.

Lemma spans_hard_reset st p : spans (hard_reset st p) = spans st.
Proof.
  unfold hard_reset. destruct (prev_loc st) as [pl|]; [|reflexivity].
  destruct (negb (String.eqb (page_loc p) pl)).
  - now rewrite spans_set_prev, spans_close_cur.
  - destruct (negb (opt_Z_eqb (shoot p) (prev_shoot st))); [|reflexivity].
    now rewrite spans_set_prev, spans_close_cur.
Qed.

Lemma spans_start_segment l sh mk eid fid st :
  cur st = None ->
  spans (start_segment l sh mk eid fid st) = (spans st ++ [(eid, eid)])%list.
Proof.
  intros Hc. unfold spans, all_segments, open_segment, start_segment.
  cbn. rewrite Hc. now rewrite app_nil_r, map_app.
Qed.

Lemma spans_extend eid fid c st :
  cur st = Some c ->
  spans st = (map span (segments st) ++ [(start_efta_id c, end_efta_id c)])%list /\
  spans (set_cur (extend_segment eid fid c) st)
  = (map span (segments st) ++ [(start_efta_id c, eid)])%list.
Proof.
  intros Hc. unfold spans, all_segments, open_segment, set_cur.
  cbn. rewrite Hc. now rewrite !map_app.
Qed.

Lemma cur_hard_reset st p :
  cur (hard_reset st p) = cur st \/ cur (hard_reset st p) = None.
Proof.
  unfold hard_reset. destruct (prev_loc st) as [pl|]; [|now left].
  destruct (negb (String.eqb (page_loc p) pl)).
  - right. apply cur_close_cur.
  - destruct (negb (opt_Z_eqb (shoot p) (prev_shoot st))); [|now left].
    right. apply cur_close_cur.
Qed.

(** What one page does to the ranges and to the open segment: a slate
    leaves the ranges alone and nothing open; any other page leaves the
    ranges alone and nothing open, or opens a range that holds the page
    alone, or stretches the range of the segment that was open. *)
Lemma main_step_cases keep st p :
  (is_slate p = true /\
   spans (main_step keep st p) = spans st /\ cur (main_step keep st p) = None) \/
  (is_slate p = false /\
   spans (main_step keep st p) = spans st /\ cur (main_step keep st p) = None) \/
  (is_slate p = false /\
   spans (main_step keep st p) = (spans st ++ [(efta_id p, efta_id p)])%list /\
   exists c, cur (main_step keep st p) = Some c /\ start_efta_id c = efta_id p) \/
  (is_slate p = false /\
   exists pre c c',
     cur st = Some c /\ spans st = (pre ++ [span c])%list /\
     cur (main_step keep st p) = Some c' /\
     start_efta_id c' = start_efta_id c /\
     spans (main_step keep st p) = (pre ++ [(start_efta_id c, efta_id p)])%list).
Proof.
  unfold main_step. rewrite <- (spans_hard_reset st p).
  pose proof (cur_hard_reset st p) as Hcur.
  set (st1 := hard_reset st p) in *.
  destruct (is_slate p).
  { left. split; [reflexivity|]. split; [apply spans_close_cur|apply cur_close_cur]. }
  right.
  assert (forall c, cur st1 = Some c ->
            exists pre d c',
              cur st = Some d /\ spans st1 = (pre ++ [span d])%list /\
              cur (set_cur (extend_segment (efta_id p) (file_id p) c) st1) = Some c' /\
              start_efta_id c' = start_efta_id d /\
              spans (set_cur (extend_segment (efta_id p) (file_id p) c) st1)
              = (pre ++ [(start_efta_id d, efta_id p)])%list) as Hext.
  { intros c Hc.
    destruct (spans_extend (efta_id p) (file_id p) c st1 Hc) as [H1 H2].
    exists (map span (segments st1)), c, (extend_segment (efta_id p) (file_id p) c).
    destruct Hcur as [Hcur|Hcur]; [|congruence].
    rewrite <- Hcur. repeat split; assumption. }
  destruct (new_marker p) as [nm|].
  - destruct (cur st1) as [c|] eqn:Hc.
    + destruct (negb (String.eqb nm (marker_text c))).
      * right; left. split; [reflexivity|].
        rewrite spans_start_segment by apply cur_close_cur.
        rewrite spans_close_cur. split; [reflexivity|].
        eexists; split; reflexivity.
      * right; right. split; [reflexivity|]. now apply Hext.
    + right; left. split; [reflexivity|].
      rewrite spans_start_segment by exact Hc. split; [reflexivity|].
      eexists; split; reflexivity.
  - destruct (cur st1) as [c|] eqn:Hc.
    + right; right. split; [reflexivity|]. now apply Hext.
    + destruct keep.
      * right; left. split; [reflexivity|].
        rewrite spans_start_segment by exact Hc. split; [reflexivity|].
        eexists; split; reflexivity.
      * left. repeat split; assumption.
Qed.

Lemma main_step_spans keep st p :
  spans (main_step keep st p) = spans st \/
  spans (main_step keep st p) = (spans st ++ [(efta_id p, efta_id p)])%list \/
  exists pre s e,
    spans st = (pre ++ [(s, e)])%list /\
    spans (main_step keep st p) = (pre ++ [(s, efta_id p)])%list.
Proof.
  destruct (main_step_cases keep st p)
    as [(_ & H & _) | [(_ & H & _) | [(_ & H & _) | (_ & pre & c & c' & _ & H1 & _ & _ & H2)]]];
    [now left|now left|now (right; left)|].
  right; right. exists pre, (start_efta_id c), (end_efta_id c). now split.
Qed.

(** *** Ranges stay ordered *)

Lemma ordered_upto_weaken last last' sp :
  last <= last' -> ordered_upto last sp -> ordered_upto last' sp.
Proof.
  intros Hle [Hs Hf]. split; [exact Hs|].
  eapply Forall_impl; [|exact Hf]. cbn; intros; lia.
Qed.

Lemma ordered_upto_new last x sp :
  last < x -> ordered_upto last sp -> ordered_upto x (sp ++ [(x, x)]).
Proof.
  intros Hlt [Hs Hf]. split.
  - apply strongly_sorted_snoc; split; [exact Hs|].
    eapply Forall_impl; [|exact Hf]. unfold span_before; cbn; intros; lia.
  - apply Forall_app; split.
    + eapply Forall_impl; [|exact Hf]. cbn; intros; lia.
    + constructor; [cbn; lia|constructor].
Qed.

Lemma ordered_upto_stretch last x pre s e :
  last < x -> ordered_upto last (pre ++ [(s, e)]) ->
  ordered_upto x (pre ++ [(s, x)]).
Proof.
  intros Hlt [Hs Hf]. apply strongly_sorted_snoc in Hs as [Hs Hb].
  apply Forall_app in Hf as [Hf _]. split.
  - apply strongly_sorted_snoc; split; [exact Hs|exact Hb].
  - apply Forall_app; split.
    + eapply Forall_impl; [|exact Hf]. cbn; intros; lia.
    + constructor; [cbn; lia|constructor].
Qed.

Lemma main_step_ordered keep st p last :
  last < efta_id p -> ordered_upto last (spans st) ->
  ordered_upto (efta_id p) (spans (main_step keep st p)).
Proof.
  intros Hlt Hinv.
  destruct (main_step_spans keep st p) as [-> | [-> | (pre & s & e & Heq & ->)]].
  - eapply ordered_upto_weaken; [|exact Hinv]. lia.
  - now apply (ordered_upto_new last).
  - rewrite Heq in Hinv. now apply (ordered_upto_stretch last _ _ _ e).
Qed.

Lemma fold_main_step_ordered keep rows st last :
  ordered_upto last (spans st) ->
  HdRel Z.lt last (map efta_id rows) -> Sorted Z.lt (map efta_id rows) ->
  exists last', ordered_upto last' (spans (fold_left (main_step keep) rows st)).
Proof.
  revert st last. induction rows as [|p rows IH]; intros st last Hinv Hhd Hs.
  - exists last; exact Hinv.
  - cbn [map] in Hhd, Hs. apply HdRel_inv in Hhd.
    apply Sorted_inv in Hs as [Hs Hhd'].
    cbn [fold_left]. apply (IH _ (efta_id p)); [|exact Hhd'|exact Hs].
    now apply (main_step_ordered keep st p last).
Qed.

Lemma main_segments_spans keep rows :
  map span (main_segments keep rows) = spans (main_loop keep rows).
Proof.
  unfold main_segments. rewrite <- (spans_close_cur "eof").
  unfold spans, all_segments, open_segment.
  now rewrite cur_close_cur, app_nil_r.
Qed.

Lemma main_segments_ordered keep rows :
  Sorted Z.lt (map efta_id rows) ->
  StronglySorted span_before (map span (main_segments keep rows)).
Proof.
  intros Hs. rewrite main_segments_spans. unfold main_loop.
  destruct rows as [|p rows]; [constructor|].
  destruct (fold_main_step_ordered keep (p :: rows) init_state (efta_id p - 1))
    as (last' & Hord & _).
  - split; constructor.
  - cbn [map]. constructor. lia.
  - exact Hs.
  - exact Hord.
Qed.

(** C2. When the page IDs strictly increase along the stream, no page ID
    lies in the ID ranges of two different segments, neither among the
    segments that the fold emits nor among those kept by the post-pass. *)
Theorem segments_pairwise_disjoint keep min_run rows :
  Sorted Z.lt (map efta_id rows) ->
  pairwise_disjoint (main_segments keep rows) /\
  pairwise_disjoint (main_kept keep min_run rows).
Proof.
  intros Hs. pose proof (main_segments_ordered keep rows Hs) as Hord.
  split; apply ordered_spans_disjoint; [exact Hord|].
  unfold main_kept. apply strongly_sorted_filter_map.
  rewrite map_map. erewrite map_ext; [exact Hord|].
  intros s. apply span_set_confidence.
Qed.

(** *** Slate pages stay outside every range *)

Lemma main_step_slate_inv keep st p last slates :
  last < efta_id p -> slate_inv last slates st ->
  slate_inv (efta_id p)
            (if is_slate p then (slates ++ [efta_id p])%list else slates)
            (main_step keep st p).
Proof.
  intros Hlt (Hz & He & Hout & Hcur).
  assert (Forall (fun z => z <= efta_id p) slates) as Hz'.
  { eapply Forall_impl; [|exact Hz]. cbn; intros; lia. }
  assert (Forall (fun a : Z * Z => snd a <= efta_id p) (spans st)) as He'.
  { eapply Forall_impl; [|exact He]. cbn; intros; lia. }
  rewrite Forall_forall in Hz. unfold slate_inv.
  destruct (main_step_cases keep st p)
    as [(-> & -> & ->) | [(-> & -> & ->) | [(-> & -> & c & -> & Hc)
       | (-> & pre & c & c' & Hc & Hsp & -> & Hst & ->)]]].
  - split; [|split; [exact He'|split; [|discriminate]]].
    + apply Forall_app; split; [exact Hz'|]. constructor; [lia|constructor].
    + rewrite Forall_forall in *. intros a Ha z Hin.
      apply in_app_or in Hin as [Hin|[<-|[]]]; [now apply Hout|].
      specialize (He a Ha). lia.
  - split; [exact Hz'|]. split; [exact He'|]. split; [exact Hout|discriminate].
  - split; [exact Hz'|]. split; [|split].
    + apply Forall_app; split; [exact He'|]. constructor; [cbn; lia|constructor].
    + apply Forall_app; split; [exact Hout|]. constructor; [|constructor].
      cbn. intros z Hin. specialize (Hz z Hin). lia.
    + intros c0 [= <-] z Hin. specialize (Hz z Hin). lia.
  - rewrite Hsp in He', Hout.
    apply Forall_app in He' as [He' _]. apply Forall_app in Hout as [Hout _].
    split; [exact Hz'|]. split; [|split].
    + apply Forall_app; split; [exact He'|]. constructor; [cbn; lia|constructor].
    + apply Forall_app; split; [exact Hout|]. constructor; [|constructor].
      cbn. intros z Hin. specialize (Hcur c Hc z Hin). lia.
    + intros c0 [= <-] z Hin. rewrite Hst. now apply (Hcur c Hc).
Qed.

Lemma fold_main_step_slate_inv keep rows st last slates :
  slate_inv last slates st ->
  HdRel Z.lt last (map efta_id rows) -> Sorted Z.lt (map efta_id rows) ->
  exists last',
    slate_inv last' (slates ++ slate_ids rows)
              (fold_left (main_step keep) rows st).
Proof.
  revert st last slates.
  induction rows as [|p rows IH]; intros st last slates Hinv Hhd Hs.
  - exists last. unfold slate_ids; cbn. now rewrite app_nil_r.
  - cbn [map] in Hhd, Hs. apply HdRel_inv in Hhd.
    apply Sorted_inv in Hs as [Hs Hhd'].
    pose proof (main_step_slate_inv keep st p last slates Hhd Hinv) as Hstep.
    destruct (IH _ _ _ Hstep Hhd' Hs) as (last' & Hfin).
    exists last'. cbn [fold_left]. unfold slate_ids in *. cbn [filter].
    destruct (is_slate p); [|exact Hfin].
    cbn [map]. now rewrite <- app_assoc in Hfin.
Qed.

(** Along a stream of strictly increasing IDs, the ID of a slate page lies
    in the range of no emitted segment. *)
Lemma slate_pages_outside_segments keep rows p s :
  Sorted Z.lt (map efta_id rows) ->
  In p rows -> is_slate p = true ->
  In s (main_segments keep rows) -> ~ in_segment (efta_id p) s.
Proof.
  intros Hs Hp Hsl Hin.
  destruct rows as [|p0 rows]; [contradiction|].
  destruct (fold_main_step_slate_inv keep (p0 :: rows) init_state
              (efta_id p0 - 1) []) as (last' & _ & _ & Hout & _).
  - repeat split; try constructor. discriminate.
  - cbn [map]. constructor. lia.
  - exact Hs.
  - fold (main_loop keep (p0 :: rows)) in Hout.
    rewrite <- main_segments_spans in Hout. rewrite Forall_forall in Hout.
    apply (Hout (span s)); [now apply in_map|].
    cbn [app]. unfold slate_ids. apply in_map. apply filter_In. now split.
Qed.

(** *** The step on a slate page and on a page without a marker *)

Lemma map_all_segments_close_cur {A : Type} (f : segment -> A) r st :
  (forall c, f (set_reset_reason r c) = f c) ->
  map f (all_segments (close_cur r st)) = map f (all_segments st).
Proof.
  intros Hf. unfold close_cur. destruct (cur st) as [c|] eqn:Hc; [|reflexivity].
  unfold all_segments, open_segment. cbn. rewrite Hc.
  now rewrite app_nil_r, !map_app; cbn; rewrite Hf.
Qed.

Lemma map_all_segments_hard_reset {A : Type} (f : segment -> A) st p :
  (forall r c, f (set_reset_reason r c) = f c) ->
  map f (all_segments (hard_reset st p)) = map f (all_segments st).
Proof.
  intros Hf. unfold hard_reset. destruct (prev_loc st) as [pl|]; [|reflexivity].
  destruct (negb (String.eqb (page_loc p) pl)).
  - unfold all_segments at 1, open_segment. cbn [set_prev segments cur].
    now apply (map_all_segments_close_cur f "location_change").
  - destruct (negb (opt_Z_eqb (shoot p) (prev_shoot st))); [|reflexivity].
    unfold all_segments at 1, open_segment. cbn [set_prev segments cur].
    now apply (map_all_segments_close_cur f "shoot_change").
Qed.

Lemma no_valid_marker_none p : no_valid_marker p -> new_marker p = None.
Proof.
  unfold no_valid_marker, new_marker.
  destruct (has_marker p) as [[|]|]; try reflexivity.
  intros [H | ->]; [congruence|reflexivity].
Qed.

(** C8. A slate page, once the location and shoot resets are done, closes
    the open segment with reason "slate" and leaves nothing open; no end ID
    and no file count changes at that page; and along a stream of strictly
    increasing IDs its ID lies in the range of no emitted segment. *)
Theorem slate_page_closes_and_joins_nothing keep st p :
  is_slate p = true ->
  cur (main_step keep st p) = None /\
  match cur (hard_reset st p) with
  | Some c =>
      exists c',
        segments (main_step keep st p) = (segments (hard_reset st p) ++ [c'])%list /\
        reset_reason c' = "slate" /\ same_identity_but_reason c c'
  | None => segments (main_step keep st p) = segments (hard_reset st p)
  end /\
  map end_efta_id (all_segments (main_step keep st p))
  = map end_efta_id (all_segments st) /\
  map n_files (all_segments (main_step keep st p))
  = map n_files (all_segments st) /\
  forall rows s,
    Sorted Z.lt (map efta_id rows) -> In p rows ->
    In s (main_segments keep rows) -> ~ in_segment (efta_id p) s.
Proof.
  intros Hsl. unfold main_step. rewrite Hsl.
  split; [apply cur_close_cur|]. split; [|split; [|split]].
  - unfold close_cur. destruct (cur (hard_reset st p)) as [c|]; [|reflexivity].
    exists (set_reset_reason "slate" c). cbn. repeat split.
  - rewrite (map_all_segments_close_cur end_efta_id) by reflexivity.
    now apply map_all_segments_hard_reset.
  - rewrite (map_all_segments_close_cur n_files) by reflexivity.
    now apply map_all_segments_hard_reset.
  - intros rows s Hs Hp Hin.
    now apply (slate_pages_outside_segments keep rows p s).
Qed.

(** C9. A page that is no slate and carries no valid marker, once the
    resets are done, closes nothing; it stretches the open segment to
    itself and adds one to its file count; with nothing open it opens an
    "UNMARKED" segment when [keep_unmarked] is set and joins no segment
    otherwise. *)
Theorem unmarked_page_extends_open_segment keep st p :
  is_slate p = false -> no_valid_marker p ->
  segments (main_step keep st p) = segments (hard_reset st p) /\
  match cur (hard_reset st p) with
  | Some c =>
      exists c',
        cur (main_step keep st p) = Some c' /\
        end_efta_id c' = efta_id p /\ end_file_id c' = file_id p /\
        n_files c' = n_files c + 1 /\ same_identity c c'
  | None =>
      if keep then
        exists c',
          cur (main_step keep st p) = Some c' /\
          marker_text c' = "UNMARKED" /\
          start_efta_id c' = efta_id p /\ end_efta_id c' = efta_id p /\
          n_files c' = 1
      else cur (main_step keep st p) = None
  end.
Proof.
  intros Hsl Hnm. apply no_valid_marker_none in Hnm.
  unfold main_step. rewrite Hsl, Hnm.
  destruct (cur (hard_reset st p)) as [c|] eqn:Hc.
  - split; [reflexivity|].
    exists (extend_segment (efta_id p) (file_id p) c). cbn. repeat split.
  - destruct keep.
    + split; [reflexivity|]. eexists. cbn. repeat split.
    + split; [reflexivity|exact Hc].
Qed.

(** * Concrete runs *)

(** ** Marker detection *)

(** C1, counterexample. A page whose text reads "AB" in every region is
    reported with the marker "AB", in the multi-ROI search and in the
    single-ROI path alike; the segmentation's predicate rejects "AB". *)
Lemma detect_room_marker_distinct_letters :
  detect_room_marker unit (ocr_const "AB") tt "multi" 8 whitelist_AZ room_re_default
  = (true, Some "AB", "[roi=left_band psm=10] AB") /\
  detect_room_marker unit (ocr_const "AB") tt "center" 8 whitelist_AZ room_re_default
  = (true, Some "AB", "AB") /\
  is_valid_marker (Some "AB") = false.
Proof. repeat split. Qed.

(** C1, witness: a page that reads "CC" between blanks. *)
Lemma detect_room_marker_capitals_witness :
  detect_room_marker unit (ocr_const " CC ") tt "multi" 8 whitelist_AZ room_re_default
  = (true, Some "CC", "[roi=left_band psm=10]  CC ") /\
  exists s, Some "CC" = Some s /\ one_or_two_capitals s.
Proof.
  split; [reflexivity|].
  apply (detect_room_marker_capitals unit (ocr_const " CC ") tt "multi" 8
           whitelist_AZ (Some "CC") "[roi=left_band psm=10]  CC ").
  reflexivity.
Defined.

(** C5, counterexample. On a page that shows "AB" in the left band and
    "CC" in the right band, both candidates of single-character mode score
    15: the two distinct letters earn the 2 of the doubled letter, and
    the marker returned is "AB", which was found first.  A single letter
    that is read alone scores 15 as well. *)
Lemma marker_score_ignores_doubling :
  candidates (string -> string) ocr_by_region page_AB_CC whitelist_AZ room_re_default
  = [mkBest 15 "AB" "AB" "left_band" 10; mkBest 13 "AB" "AB" "left_band" 8;
     mkBest 15 "CC" "CC" "right_band" 10; mkBest 13 "CC" "CC" "right_band" 8] /\
  detect_room_marker (string -> string) ocr_by_region page_AB_CC "multi" 8
    whitelist_AZ room_re_default
  = (true, Some "AB", "[roi=left_band psm=10] AB") /\
  candidate_score 10 "A" "A" = 15 /\
  candidate_score 10 "CC" "CC" = 15.
Proof. repeat split; vm_compute; reflexivity. Qed.

(** ** Slate detection *)

(** C7, counterexample. With no strong keyword every strong keyword is
    matched, vacuously, and the page is still no slate: the text is empty,
    one keyword is asked for and none is found. *)
Lemma detect_slate_no_strong_keywords :
  (forall k, In k [] ->
     keyword_hit (slate_up unit (ocr_const "") tt "top" 6)
                 (slate_compact unit (ocr_const "") tt "top" 6) k = true) /\
  Z.of_nat (List.length
    (slate_found (detect_slate unit (ocr_const "") tt "top" 6 ["DATE"] 1 []))) < 1 /\
  slate_flag (detect_slate unit (ocr_const "") tt "top" 6 ["DATE"] 1 []) = false.
Proof.
  split; [intros k []|]. split; reflexivity.
Qed.

(** C7, witness: the slate text of scenario 5 with its three strong
    keywords. *)
Lemma detect_slate_flag_witness :
  ["DATE"; "CASE ID"; "LOCATION"] <> [] /\
  (slate_flag (detect_slate unit (ocr_const "date: 3 Case-Id 7 LOCATION") tt "top" 6
                 ["DATE"; "CASE ID"; "PHOTOGRAPHER"; "LOCATION"; "FBI"] 5
                 ["DATE"; "CASE ID"; "LOCATION"]) = true <->
   (5 <= Z.of_nat (List.length
            (slate_found
               (detect_slate unit (ocr_const "date: 3 Case-Id 7 LOCATION") tt "top" 6
                  ["DATE"; "CASE ID"; "PHOTOGRAPHER"; "LOCATION"; "FBI"] 5
                  ["DATE"; "CASE ID"; "LOCATION"]))) \/
    forall k, In k ["DATE"; "CASE ID"; "LOCATION"] ->
      keyword_hit (slate_up unit (ocr_const "date: 3 Case-Id 7 LOCATION") tt "top" 6)
                  (slate_compact unit (ocr_const "date: 3 Case-Id 7 LOCATION") tt "top" 6)
                  k = true)).
Proof.
  split; [discriminate|].
  apply (detect_slate_flag unit (ocr_const "date: 3 Case-Id 7 LOCATION")).
  discriminate.
Defined.

(** Scenario 5: the three strong keywords are read, in mixed case and with
    a mangled "CASE ID"; the page is a slate although five keywords are
    asked for and three are found. *)
Example scenario_5_strong_rule :
  detect_slate unit (ocr_const "date: 3 Case-Id 7 LOCATION") tt "top" 6
    ["DATE"; "CASE ID"; "PHOTOGRAPHER"; "LOCATION"; "FBI"] 5
    ["DATE"; "CASE ID"; "LOCATION"]
  = (true, "date: 3 Case-Id 7 LOCATION", ["DATE"; "CASE ID"; "LOCATION"]).
Proof. reflexivity. Qed.

(** ** Keypoint similarity scorer *)

(** C3, counterexample. Page A matched against page B scores twelve, page
    B matched against page A scores zero: the repeated descriptor of A
    makes B's first feature ambiguous, which leaves eleven matches. *)
Lemma ransac_inliers_not_symmetric :
  ransac_inliers (Z * Z) identity_consensus kpA (Some desA) kpB (Some desB) = Ok 12 /\
  ransac_inliers (Z * Z) identity_consensus kpB (Some desB) kpA (Some desA) = Ok 0.
Proof. split; vm_compute; reflexivity. Qed.

(** The zero of the second order does not depend on the estimator, and the
    first order returns whatever the estimator counts on thirteen matches. *)
Lemma ransac_inliers_orders_differ (fh : list (Z * Z) -> list (Z * Z) -> option (list Z)) :
  ransac_inliers (Z * Z) fh kpB (Some desB) kpA (Some desA) = Ok 0 /\
  ransac_inliers (Z * Z) fh kpA (Some desA) kpB (Some desB)
  = match fh kpA (grid12 ++ [(0, 0)])%list with
    | Some mask => Ok (mask_sum mask)
    | None => Ok 0
    end.
Proof. split; reflexivity. Qed.

(** A train image with a single descriptor row gives rows of one match,
    which the ratio loop cannot unpack. *)
Example single_train_row_raises :
  ransac_inliers (Z * Z) identity_consensus kpA (Some desA) [(0, 0)] (Some [1%N])
  = Raise ValueError /\
  ransac_inliers (Z * Z) identity_consensus [(0, 0)] (Some [1%N]) kpA (Some desA)
  = Ok 0.
Proof. split; reflexivity. Qed.

(** C3, witness: two pages with three and four descriptor rows. *)
Lemma ransac_inliers_symmetric_when_sparse_witness :
  (feats_small "a" = None \/ feats_small "b" = None \/
   (rows_between 2 12 (feats_small "a") /\ rows_between 2 12 (feats_small "b"))) /\
  (ransac_inliers (Z * Z) identity_consensus
     (kps_small "a") (feats_small "a") (kps_small "b") (feats_small "b")
   = ransac_inliers (Z * Z) identity_consensus
       (kps_small "b") (feats_small "b") (kps_small "a") (feats_small "a") /\
   ransac_inliers (Z * Z) identity_consensus
     (kps_small "a") (feats_small "a") (kps_small "b") (feats_small "b") = Ok 0).
Proof.
  assert (rows_between 2 12 (feats_small "a") /\ rows_between 2 12 (feats_small "b"))
    as H.
  { split; eexists; (split; [reflexivity|cbn; lia]). }
  split; [right; right; exact H|].
  apply (ransac_inliers_symmetric_when_sparse (Z * Z) identity_consensus).
  right; right; exact H.
Defined.

(** A train image without a descriptor row gives empty rows, which the
    ratio loop cannot unpack either; without a query row there is no row
    to unpack. *)
Example empty_train_raises :
  ransac_inliers (Z * Z) identity_consensus kpA (Some desA) [] (Some [])
  = Raise ValueError /\
  ransac_inliers (Z * Z) identity_consensus [] (Some []) kpA (Some desA)
  = Ok 0.
Proof. split; reflexivity. Qed.



(** ** Sequential segmentation *)

(** Scenario 1: five pages marked B give one segment, closed at the end of
    the stream. *)
Example scenario_1_one_segment :
  map (fun s => (marker_text s, start_efta_id s, end_efta_id s, n_files s, reset_reason s))
      (main_segments false five_B_pages)
  = [("B", 1, 5, 5, "eof")].
Proof. reflexivity. Qed.

(** Scenario 2: a slate at page 6 closes that segment and joins none. *)
Example scenario_2_slate :
  map (fun s => (marker_text s, start_efta_id s, end_efta_id s, n_files s, reset_reason s))
      (main_segments false (five_B_pages ++ [slate_page 6]))
  = [("B", 1, 5, 5, "slate")].
Proof. reflexivity. Qed.

(** Scenario 3: three pages without a marker stretch the open segment. *)
Example scenario_3_inherit :
  map (fun s => (marker_text s, start_efta_id s, end_efta_id s, n_files s, reset_reason s))
      (main_segments false
         (five_B_pages ++ [marked_page 7 None; marked_page 8 None; marked_page 9 None]))
  = [("B", 1, 9, 8, "eof")].
Proof. reflexivity. Qed.

(** The whole stream, with and without the placeholder segments. *)
Example scenario_stream :
  map (fun s => (marker_text s, start_efta_id s, end_efta_id s, n_files s, reset_reason s))
      (main_segments false scenario_rows)
  = [("B", 1, 5, 5, "slate"); ("CC", 10, 11, 2, "eof")] /\
  map (fun s => (marker_text s, start_efta_id s, end_efta_id s, n_files s, reset_reason s))
      (main_segments true scenario_rows)
  = [("B", 1, 5, 5, "slate"); ("UNMARKED", 7, 9, 3, "marker_change");
     ("CC", 10, 11, 2, "eof")].
Proof. split; reflexivity. Qed.

(** C2, witness: the scenario stream, whose IDs run from 1 to 11. *)
Lemma segments_pairwise_disjoint_witness :
  Sorted Z.lt (map efta_id scenario_rows) /\
  (pairwise_disjoint (main_segments true scenario_rows) /\
   pairwise_disjoint (main_kept true 2 scenario_rows)).
Proof.
  assert (Sorted Z.lt (map efta_id scenario_rows)) as H by (repeat constructor).
  split; [exact H|].
  apply (segments_pairwise_disjoint true 2 scenario_rows).
  exact H.
Defined.

(** C8, witness: the slate at page 6, met while the segment of the five
    pages marked B is open. *)
Lemma slate_page_closes_and_joins_nothing_witness :
  is_slate (slate_page 6) = true /\
  (cur (main_step false state_after_five (slate_page 6)) = None /\
   match cur (hard_reset state_after_five (slate_page 6)) with
   | Some c =>
       exists c',
         segments (main_step false state_after_five (slate_page 6))
         = (segments (hard_reset state_after_five (slate_page 6)) ++ [c'])%list /\
         reset_reason c' = "slate" /\ same_identity_but_reason c c'
   | None =>
       segments (main_step false state_after_five (slate_page 6))
       = segments (hard_reset state_after_five (slate_page 6))
   end /\
   map end_efta_id (all_segments (main_step false state_after_five (slate_page 6)))
   = map end_efta_id (all_segments state_after_five) /\
   map n_files (all_segments (main_step false state_after_five (slate_page 6)))
   = map n_files (all_segments state_after_five) /\
   forall rows s,
     Sorted Z.lt (map efta_id rows) -> In (slate_page 6) rows ->
     In s (main_segments false rows) -> ~ in_segment (efta_id (slate_page 6)) s).
Proof.
  split; [reflexivity|].
  apply (slate_page_closes_and_joins_nothing false state_after_five (slate_page 6)).
  reflexivity.
Defined.

(** C9, witness: a page 6 without a marker, met while the segment of the
    five pages marked B is open. *)
Lemma unmarked_page_extends_open_segment_witness :
  is_slate (marked_page 6 None) = false /\
  no_valid_marker (marked_page 6 None) /\
  (segments (main_step false state_after_five (marked_page 6 None))
   = segments (hard_reset state_after_five (marked_page 6 None)) /\
   match cur (hard_reset state_after_five (marked_page 6 None)) with
   | Some c =>
       exists c',
         cur (main_step false state_after_five (marked_page 6 None)) = Some c' /\
         end_efta_id c' = efta_id (marked_page 6 None) /\
         end_file_id c' = file_id (marked_page 6 None) /\
         n_files c' = n_files c + 1 /\ same_identity c c'
   | None =>
       if false then
         exists c',
           cur (main_step false state_after_five (marked_page 6 None)) = Some c' /\
           marker_text c' = "UNMARKED" /\
           start_efta_id c' = efta_id (marked_page 6 None) /\
           end_efta_id c' = efta_id (marked_page 6 None) /\
           n_files c' = 1
       else cur (main_step false state_after_five (marked_page 6 None)) = None
   end).
Proof.
  assert (no_valid_marker (marked_page 6 None)) as Hn.
  { left. discriminate. }
  split; [reflexivity|]. split; [exact Hn|].
  apply (unmarked_page_extends_open_segment false state_after_five (marked_page 6 None)).
  - reflexivity.
  - exact Hn.
Defined.


(** * Further properties *)

(** ** Confidence tiers and the post-pass *)

(** X1. The confidence of a segment does not decrease as its file count
    grows. *)
Theorem confidence_for_monotone (n m : Z) :
  n <= m -> (confidence_for n <= confidence_for m)%Q.
Proof.
  intros Hnm. unfold confidence_for.
  destruct (Z.leb_spec 20 n); destruct (Z.leb_spec 20 m); try lia.
  all: destruct (Z.leb_spec 8 n); destruct (Z.leb_spec 8 m); try lia.
  all: destruct (Z.leb_spec 3 n); destruct (Z.leb_spec 3 m); try lia.
  all: unfold Qle; cbn [Qnum Qden]; lia.
Qed.

(** X1, witness: three files against twenty. *)
Lemma confidence_for_monotone_witness :
  3 <= 20 /\ (confidence_for 3 <= confidence_for 20)%Q.
Proof.
  split; [lia|]. apply (confidence_for_monotone 3 20). lia.
Defined.

(** X2. The post-pass keeps a segment only when it reaches the minimum run
    length, gives it the confidence of its file count, keeps no "UNMARKED"
    segment unless asked to, and changes nothing else of a segment. *)
Theorem kept_segments_filtered keep min_run rows s :
  In s (main_kept keep min_run rows) ->
  min_run <= n_files s /\
  confidence s = confidence_for (n_files s) /\
  (keep = false -> marker_text s <> "UNMARKED") /\
  exists s0, In s0 (main_segments keep rows) /\ span s = span s0 /\
             marker_text s = marker_text s0 /\ n_files s = n_files s0 /\
             reset_reason s = reset_reason s0.
Proof.
  unfold main_kept. intros Hin. apply filter_In in Hin as [Hin Hk].
  apply in_map_iff in Hin as (s0 & <- & Hin0).
  unfold keep_segment in Hk. cbn [set_confidence marker_text n_files] in Hk.
  assert (min_run <= n_files s0 /\ (keep = false -> marker_text s0 <> "UNMARKED"))
    as [Hmin Hun].
  { destruct (String.eqb_spec (marker_text s0) "UNMARKED") as [Heq|Hne];
      cbn [andb] in Hk.
    - destruct keep; cbn [negb] in Hk; [|discriminate].
      apply Z.leb_le in Hk. split; [exact Hk|discriminate].
    - apply Z.leb_le in Hk. split; [exact Hk|intros _; exact Hne]. }
  split; [exact Hmin|]. split; [reflexivity|]. split; [exact Hun|].
  exists s0. split; [exact Hin0|]. repeat split.
Qed.

(** X2, witness: the segment of pages 10 and 11 of the scenario stream. *)
Lemma kept_segments_filtered_witness :
  In (mkSegment 2 "L1" (Some 1) "CC" 10 "EFTA" 11 "EFTA" 2 (60 # 100) "eof")
     (main_kept false 2 scenario_rows) /\
  2 <= 2.
Proof.
  assert (In (mkSegment 2 "L1" (Some 1) "CC" 10 "EFTA" 11 "EFTA" 2 (60 # 100) "eof")
             (main_kept false 2 scenario_rows)) as H.
  { vm_compute. right; left; reflexivity. }
  split; [exact H|].
  apply (proj1 (kept_segments_filtered false 2 scenario_rows _ H)).
Defined.

(** ** Markers of the emitted segments *)

Lemma all_segments_close_cur r st :
  all_segments (close_cur r st)
  = (segments st ++ map (set_reset_reason r) (open_segment st))%list.
Proof.
  unfold close_cur, all_segments, open_segment.
  destruct (cur st) as [c|] eqn:Hc; cbn; [|now rewrite Hc].
  now rewrite app_nil_r.
Qed.

Lemma all_segments_start_segment l sh mk eid fid st :
  cur st = None ->
  all_segments (start_segment l sh mk eid fid st)
  = (all_segments st
     ++ [mkSegment (seg_id st + 1) l sh mk eid fid eid fid 1 0 ""])%list.
Proof.
  intros Hc. unfold all_segments, open_segment, start_segment. cbn.
  now rewrite Hc, app_nil_r.
Qed.

Lemma all_segments_set_cur c c' st :
  cur st = Some c ->
  all_segments st = (segments st ++ [c])%list /\
  all_segments (set_cur c' st) = (segments st ++ [c'])%list.
Proof.
  intros Hc. unfold all_segments, open_segment, set_cur. cbn. now rewrite Hc.
Qed.

Lemma new_marker_valid p nm :
  new_marker p = Some nm -> is_valid_marker (Some nm) = true.
Proof.
  unfold new_marker. destruct (has_marker p) as [[|]|]; try discriminate.
  destruct (is_valid_marker (marker p)) eqn:Hv; [|discriminate].
  now intros <-.
Qed.

Lemma Forall_all_segments_close_cur (P : segment -> Prop) r st :
  (forall c, P c -> P (set_reset_reason r c)) ->
  Forall P (all_segments st) -> Forall P (all_segments (close_cur r st)).
Proof.
  intros HP. rewrite all_segments_close_cur. unfold all_segments.
  rewrite !Forall_app. intros [H1 H2]. split; [exact H1|].
  rewrite Forall_forall in *. intros x Hx.
  apply in_map_iff in Hx as (c & <- & Hc). auto.
Qed.

Lemma Forall_all_segments_hard_reset (P : segment -> Prop) st p :
  (forall r c, P c -> P (set_reset_reason r c)) ->
  Forall P (all_segments st) -> Forall P (all_segments (hard_reset st p)).
Proof.
  intros HP H. unfold hard_reset. destruct (prev_loc st) as [pl|]; [|exact H].
  destruct (negb (String.eqb (page_loc p) pl)).
  - apply (Forall_all_segments_close_cur P "location_change"); auto.
  - destruct (negb (opt_Z_eqb (shoot p) (prev_shoot st))); [|exact H].
    apply (Forall_all_segments_close_cur P "shoot_change"); auto.
Qed.

Lemma main_step_markers keep st p :
  Forall (fun s => marker_ok keep (marker_text s)) (all_segments st) ->
  Forall (fun s => marker_ok keep (marker_text s))
         (all_segments (main_step keep st p)).
Proof.
  intros H.
  apply (Forall_all_segments_hard_reset _ st p) in H; [|auto].
  unfold main_step. set (st1 := hard_reset st p) in *.
  destruct (is_slate p).
  { apply Forall_all_segments_close_cur; auto. }
  destruct (new_marker p) as [nm|] eqn:Hnm.
  - apply new_marker_valid in Hnm.
    destruct (cur st1) as [c|] eqn:Hc.
    + destruct (negb (String.eqb nm (marker_text c))).
      * rewrite all_segments_start_segment by apply cur_close_cur.
        apply Forall_app; split.
        -- apply Forall_all_segments_close_cur; auto.
        -- constructor; [now left|constructor].
      * destruct (all_segments_set_cur c (extend_segment (efta_id p) (file_id p) c)
                    st1 Hc) as [H1 ->].
        rewrite H1 in H. apply Forall_app in H as [Hs Hl].
        apply Forall_app; split; [exact Hs|].
        inversion Hl; subst. constructor; [assumption|constructor].
    + rewrite all_segments_start_segment by exact Hc.
      apply Forall_app; split; [exact H|]. constructor; [now left|constructor].
  - destruct (cur st1) as [c|] eqn:Hc.
    + destruct (all_segments_set_cur c (extend_segment (efta_id p) (file_id p) c)
                  st1 Hc) as [H1 ->].
      rewrite H1 in H. apply Forall_app in H as [Hs Hl].
      apply Forall_app; split; [exact Hs|].
      inversion Hl; subst. constructor; [assumption|constructor].
    + destruct keep eqn:Hk; [|exact H].
      rewrite all_segments_start_segment by exact Hc.
      apply Forall_app; split; [exact H|].
      constructor; [right; split; reflexivity|constructor].
Qed.

Lemma fold_main_step_markers keep rows st :
  Forall (fun s => marker_ok keep (marker_text s)) (all_segments st) ->
  Forall (fun s => marker_ok keep (marker_text s))
         (all_segments (fold_left (main_step keep) rows st)).
Proof.
  revert st. induction rows as [|p rows IH]; intros st H; [exact H|].
  cbn [fold_left]. apply IH. now apply main_step_markers.
Qed.

Lemma main_segments_all keep rows :
  main_segments keep rows
  = all_segments (close_cur "eof" (main_loop keep rows)).
Proof.
  unfold main_segments, all_segments, open_segment.
  now rewrite cur_close_cur, app_nil_r.
Qed.

(** X3. Every emitted segment carries a valid marker, of one letter or of
    one letter doubled, or the placeholder "UNMARKED"; the placeholder
    appears only when placeholders are kept. *)
Theorem emitted_markers_valid keep rows s :
  In s (main_segments keep rows) ->
  is_valid_marker (Some (marker_text s)) = true \/
  (keep = true /\ marker_text s = "UNMARKED").
Proof.
  rewrite main_segments_all.
  assert (Forall (fun s => marker_ok keep (marker_text s))
                 (all_segments (close_cur "eof" (main_loop keep rows)))) as H.
  { apply Forall_all_segments_close_cur; [auto|].
    apply fold_main_step_markers. constructor. }
  rewrite Forall_forall in H. intros Hin. exact (H s Hin).
Qed.

(** X3, witness: the segment of pages 10 and 11 of the scenario stream. *)
Lemma emitted_markers_valid_witness :
  In (mkSegment 2 "L1" (Some 1) "CC" 10 "EFTA" 11 "EFTA" 2 0 "eof")
     (main_segments false scenario_rows) /\
  (is_valid_marker (Some "CC") = true \/ (false = true /\ "CC" = "UNMARKED")).
Proof.
  assert (In (mkSegment 2 "L1" (Some 1) "CC" 10 "EFTA" 11 "EFTA" 2 0 "eof")
             (main_segments false scenario_rows)) as H.
  { vm_compute. right; left; reflexivity. }
  split; [exact H|].
  apply (emitted_markers_valid false scenario_rows _ H).
Defined.

(** ** Segments closed by a change of marker *)

Lemma last_opt_snoc {A : Type} (l : list A) (a : A) :
  last_opt (l ++ [a]) = Some a.
Proof.
  induction l as [|x l IH]; [reflexivity|].
  cbn [app last_opt]. destruct (l ++ [a])%list eqn:E; [|exact IH].
  destruct l; discriminate.
Qed.

Lemma changes_ok_snoc (l : list segment) (t : segment) :
  changes_ok (l ++ [t]) <->
  changes_ok l /\
  (forall s, last_opt l = Some s ->
             reset_reason s = "marker_change" -> marker_text t <> marker_text s).
Proof.
  induction l as [|a l IH].
  - cbn. split; [intros _; split; [exact I|discriminate]|intros _; auto].
  - destruct l as [|b l].
    + cbn. split.
      * intros [H _]. split; [auto|]. now intros s [= <-].
      * intros [_ H]. split; [|auto]. now apply H.
    + change (changes_ok ((a :: b :: l) ++ [t]))
        with ((reset_reason a = "marker_change" -> marker_text b <> marker_text a)
              /\ changes_ok ((b :: l) ++ [t])).
      change (changes_ok (a :: b :: l))
        with ((reset_reason a = "marker_change" -> marker_text b <> marker_text a)
              /\ changes_ok (b :: l)).
      change (last_opt (a :: b :: l)) with (last_opt (b :: l)).
      rewrite IH. tauto.
Qed.

Lemma changes_ok_nth (l : list segment) :
  changes_ok l ->
  forall i s t,
    nth_error l i = Some s -> nth_error l (S i) = Some t ->
    reset_reason s = "marker_change" -> marker_text t <> marker_text s.
Proof.
  induction l as [|a l IH]; intros H i s t Hs Ht.
  - destruct i; discriminate.
  - destruct H as [Ha Hl]. destruct i as [|i].
    + cbn in Hs, Ht. injection Hs as <-.
      destruct l as [|b l]; [discriminate|]. cbn in Ht. injection Ht as <-.
      exact Ha.
    + cbn in Hs. change (nth_error l (S i) = Some t) in Ht.
      now apply (IH Hl i).
Qed.

Lemma marker_change_inv_close_cur r st :
  r <> "marker_change" ->
  marker_change_inv st -> marker_change_inv (close_cur r st).
Proof.
  intros Hr [HA HB]. unfold marker_change_inv.
  rewrite all_segments_close_cur. unfold close_cur.
  unfold all_segments, open_segment in HA.
  unfold open_segment.
  destruct (cur st) as [c|] eqn:Hc.
  - cbn [map segments cur]. apply changes_ok_snoc in HA as [H1 H2]. split.
    + apply changes_ok_snoc. split; [exact H1|exact H2].
    + intros _ s Hs. rewrite last_opt_snoc in Hs. injection Hs as <-. exact Hr.
  - cbn [map]. rewrite Hc. split; [exact HA|]. now apply HB.
Qed.

Lemma marker_change_inv_hard_reset st p :
  marker_change_inv st -> marker_change_inv (hard_reset st p).
Proof.
  intros H. unfold hard_reset. destruct (prev_loc st) as [pl|]; [|exact H].
  destruct (negb (String.eqb (page_loc p) pl)).
  - apply (marker_change_inv_close_cur "location_change") in H; [exact H|discriminate].
  - destruct (negb (opt_Z_eqb (shoot p) (prev_shoot st))); [|exact H].
    apply (marker_change_inv_close_cur "shoot_change") in H; [exact H|discriminate].
Qed.

Lemma marker_change_inv_start l sh mk eid fid st :
  cur st = None -> marker_change_inv st ->
  marker_change_inv (start_segment l sh mk eid fid st).
Proof.
  intros Hc [HA HB]. unfold marker_change_inv.
  rewrite all_segments_start_segment by exact Hc. split; [|discriminate].
  apply changes_ok_snoc. split; [exact HA|].
  intros s Hs Hr. exfalso. unfold all_segments, open_segment in Hs.
  rewrite Hc, app_nil_r in Hs. now apply (HB Hc s Hs).
Qed.

Lemma marker_change_inv_extend c c' st :
  cur st = Some c -> marker_text c' = marker_text c ->
  marker_change_inv st -> marker_change_inv (set_cur c' st).
Proof.
  intros Hc Hm [HA _]. unfold marker_change_inv.
  destruct (all_segments_set_cur c c' st Hc) as [H1 ->]. rewrite H1 in HA.
  split; [|discriminate].
  apply changes_ok_snoc in HA as [H2 H3]. apply changes_ok_snoc.
  split; [exact H2|]. intros s Hs Hr. rewrite Hm. now apply H3.
Qed.

Lemma marker_change_inv_change l sh nm eid fid c st :
  cur st = Some c -> nm <> marker_text c ->
  marker_change_inv st ->
  marker_change_inv
    (start_segment l sh nm eid fid (close_cur "marker_change" st)).
Proof.
  intros Hc Hne [HA _]. unfold marker_change_inv.
  rewrite all_segments_start_segment by apply cur_close_cur.
  rewrite all_segments_close_cur. unfold open_segment. rewrite Hc. cbn [map].
  unfold all_segments, open_segment in HA. rewrite Hc in HA.
  apply changes_ok_snoc in HA as [H1 H2].
  split; [|discriminate].
  apply changes_ok_snoc. split.
  - apply changes_ok_snoc. split; [exact H1|exact H2].
  - intros s Hs _. rewrite last_opt_snoc in Hs. injection Hs as <-. exact Hne.
Qed.

Lemma main_step_marker_change_inv keep st p :
  marker_change_inv st -> marker_change_inv (main_step keep st p).
Proof.
  intros H. apply (marker_change_inv_hard_reset st p) in H.
  unfold main_step. set (st1 := hard_reset st p) in *.
  destruct (is_slate p).
  { apply marker_change_inv_close_cur; [discriminate|exact H]. }
  destruct (new_marker p) as [nm|].
  - destruct (cur st1) as [c|] eqn:Hc.
    + destruct (String.eqb_spec nm (marker_text c)) as [Heq|Hne]; cbn [negb].
      * now apply (marker_change_inv_extend c).
      * now apply (marker_change_inv_change _ _ _ _ _ c).
    + now apply marker_change_inv_start.
  - destruct (cur st1) as [c|] eqn:Hc.
    + now apply (marker_change_inv_extend c).
    + destruct keep; [|exact H]. now apply marker_change_inv_start.
Qed.

Lemma fold_main_step_marker_change_inv keep rows st :
  marker_change_inv st ->
  marker_change_inv (fold_left (main_step keep) rows st).
Proof.
  revert st. induction rows as [|p rows IH]; intros st H; [exact H|].
  cbn [fold_left]. apply IH. now apply main_step_marker_change_inv.
Qed.

(** X4. A segment closed with reason "marker_change" is followed by a
    segment that carries another marker. *)
Theorem marker_change_means_new_marker keep rows i s t :
  nth_error (main_segments keep rows) i = Some s ->
  nth_error (main_segments keep rows) (S i) = Some t ->
  reset_reason s = "marker_change" ->
  marker_text t <> marker_text s.
Proof.
  rewrite main_segments_all.
  apply changes_ok_nth.
  apply (marker_change_inv_close_cur "eof"); [discriminate|].
  apply fold_main_step_marker_change_inv.
  split; [exact I|]. intros _ s0 Hs0. discriminate.
Qed.

(** X4, witness: with placeholders kept, the scenario stream closes the
    placeholder segment of pages 7 to 9 when the marker CC appears. *)
Lemma marker_change_means_new_marker_witness :
  nth_error (main_segments true scenario_rows) 1
  = Some (mkSegment 2 "L1" (Some 1) "UNMARKED" 7 "EFTA" 9 "EFTA" 3 0 "marker_change") /\
  nth_error (main_segments true scenario_rows) 2
  = Some (mkSegment 3 "L1" (Some 1) "CC" 10 "EFTA" 11 "EFTA" 2 0 "eof") /\
  "CC" <> "UNMARKED".
Proof.
  assert (nth_error (main_segments true scenario_rows) 1
          = Some (mkSegment 2 "L1" (Some 1) "UNMARKED" 7 "EFTA" 9 "EFTA" 3 0
                            "marker_change")) as H1 by (vm_compute; reflexivity).
  assert (nth_error (main_segments true scenario_rows) 2
          = Some (mkSegment 3 "L1" (Some 1) "CC" 10 "EFTA" 11 "EFTA" 2 0 "eof"))
    as H2 by (vm_compute; reflexivity).
  split; [exact H1|]. split; [exact H2|].
  apply (marker_change_means_new_marker true scenario_rows 1 _ _ H1 H2).
  reflexivity.
Defined.

(** ** The flag of the marker detector *)

Section MarkerFlag.

Variable image : Type.
Variable ocr_text : image -> string -> Z -> option string -> string.

Lemma candidates_of_truthy img wl room_re atts b :
  In b (candidates_of image ocr_text img wl room_re atts) ->
  truthy (b_marker b) = true.
Proof.
  unfold candidates_of. rewrite in_flat_map.
  intros ([[r p] base] & _ & Hin). unfold candidate_at in Hin.
  destruct (best_candidate_from_text room_re _) as [cand|]; [|contradiction].
  destruct (truthy cand) eqn:Ht; [|contradiction].
  destruct Hin as [<-|[]]. exact Ht.
Qed.

(** X5. Whatever the validity pattern, the detector reports a marker
    exactly when it returns one, and a returned marker is never the empty
    string. *)
Theorem detect_room_marker_flag img roi psm wl room_re :
  match detect_room_marker image ocr_text img roi psm wl room_re with
  | (true, Some s, _) => truthy s = true
  | (false, None, _) => True
  | _ => False
  end.
Proof.
  destruct (String.eqb roi "multi") eqn:Hroi.
  - apply String.eqb_eq in Hroi; subst roi.
    pose proof (detect_multi_first_best image ocr_text img psm wl room_re) as H.
    destruct (candidates image ocr_text img wl room_re) as [|c l] eqn:Hc.
    + now rewrite H.
    + destruct H as (w & Hfb & ->).
      apply first_best_In in Hfb. rewrite <- Hc in Hfb.
      now apply candidates_of_truthy in Hfb.
  - unfold detect_room_marker. rewrite Hroi. cbn [negb].
    destruct (best_candidate_from_text room_re (ocr_text img roi psm (Some wl)))
      as [s|]; cbn [truthy_opt].
    + destruct (truthy s) eqn:Hs; [exact Hs|].
      destruct (best_candidate_from_text room_re (ocr_text img roi 10 (Some wl)))
        as [s2|]; cbn [truthy_opt]; [|exact I].
      destruct (truthy s2) eqn:Hs2; [exact Hs2|exact I].
    + destruct (best_candidate_from_text room_re (ocr_text img roi 10 (Some wl)))
        as [s2|]; cbn [truthy_opt]; [|exact I].
      destruct (truthy s2) eqn:Hs2; [exact Hs2|exact I].
Qed.

End MarkerFlag.

(** ** The finished graph *)

Section GraphFacts.

Variable pt : Type.
Variable findHomography : list pt -> list pt -> option (list Z).
Variable kps : string -> list pt.
Variable feats : string -> option (list descriptor).

(** X6. When the graph builder returns on distinct names, its nodes are
    the given names, and every edge runs from a name to a later one and
    carries the inlier count of that pair, which reaches the threshold. *)
Theorem build_graph_nodes_and_edges names thr lim G :
  NoDup names ->
  build_graph pt findHomography kps feats names thr lim = Ok G ->
  nodes G = names /\
  forall a b w,
    In (a, b, w) (edges G) ->
    stands_before names a b /\
    ransac_inliers pt findHomography (kps a) (feats a) (kps b) (feats b) = Ok w /\
    thr <= w.
Proof.
  intros Hnd H.
  destruct (build_graph_distinct pt findHomography kps feats names thr lim G Hnd H)
    as (Hn & He & _).
  split; [exact Hn|]. intros a b w Hin.
  rewrite Forall_forall in He. exact (He _ Hin).
Qed.

End GraphFacts.

(** X6, witness: pages B, A and a third page at threshold 12; B against A
    scores zero, and the third page is joined to both. *)
Lemma build_graph_nodes_and_edges_witness :
  NoDup ["B"; "A"; "C"] /\
  build_graph (Z * Z) identity_consensus kps_AB feats_AB ["B"; "A"; "C"] 12 None
  = Ok (mkGraph ["B"; "A"; "C"] [("B", "C", 12); ("A", "C", 12)]) /\
  stands_before ["B"; "A"; "C"] "A" "C" /\
  ransac_inliers (Z * Z) identity_consensus
    (kps_AB "A") (feats_AB "A") (kps_AB "C") (feats_AB "C") = Ok 12 /\
  12 <= 12.
Proof.
  assert (NoDup ["B"; "A"; "C"]) as Hnd.
  { repeat constructor; cbn; intros Hc; intuition discriminate. }
  assert (build_graph (Z * Z) identity_consensus kps_AB feats_AB ["B"; "A"; "C"] 12 None
          = Ok (mkGraph ["B"; "A"; "C"] [("B", "C", 12); ("A", "C", 12)])) as H
      by (vm_compute; reflexivity).
  split; [exact Hnd|]. split; [exact H|].
  apply (proj2 (build_graph_nodes_and_edges (Z * Z) identity_consensus
                  kps_AB feats_AB ["B"; "A"; "C"] 12 None _ Hnd H) "A" "C" 12).
  cbn [edges]. right; left; reflexivity.
Defined.

(** A name that is given twice is one node; the pair it forms with itself
    is scored like any other, and a pair that is scored in both orders
    keeps the weight of the later one. *)
Example build_graph_repeated_names :
  build_graph (Z * Z) identity_consensus kps_AB feats_AB ["B"; "B"] 12 None
  = Ok (mkGraph ["B"] [("B", "B", 12)]) /\
  build_graph (Z * Z) identity_consensus kps_AB feats_AB ["A"; "B"; "A"] 0 None
  = Ok (mkGraph ["A"; "B"] [("A", "B", 0); ("A", "A", 0)]) /\
  edge_weight (mkGraph ["A"; "B"] [("A", "B", 0); ("A", "A", 0)]) "B" "A" = Some 0.
Proof. repeat split; vm_compute; reflexivity. Qed.

(** ** Segment numbers and reset reasons *)

Lemma numbers_upto_S (n : nat) :
  numbers_upto (S n) = (numbers_upto n ++ [Z.of_nat n + 1])%list.
Proof.
  unfold numbers_upto. rewrite seq_S, map_app. cbn [map]. f_equal. f_equal. lia.
Qed.

Lemma numbering_inv_close_cur r st :
  numbering_inv st -> numbering_inv (close_cur r st).
Proof.
  intros [H1 H2]. unfold numbering_inv.
  assert (List.length (all_segments (close_cur r st)) = List.length (all_segments st))
    as Hlen.
  { rewrite <- (length_map end_efta_id), <- (length_map end_efta_id (all_segments st)).
    f_equal. now apply map_all_segments_close_cur. }
  rewrite Hlen. split.
  - rewrite (map_all_segments_close_cur segment_id) by reflexivity. exact H1.
  - unfold close_cur. destruct (cur st); exact H2.
Qed.

Lemma numbering_inv_hard_reset st p :
  numbering_inv st -> numbering_inv (hard_reset st p).
Proof.
  intros H. unfold hard_reset. destruct (prev_loc st) as [pl|]; [|exact H].
  destruct (negb (String.eqb (page_loc p) pl)).
  - exact (numbering_inv_close_cur "location_change" st H).
  - destruct (negb (opt_Z_eqb (shoot p) (prev_shoot st))); [|exact H].
    exact (numbering_inv_close_cur "shoot_change" st H).
Qed.

Lemma numbering_inv_start l sh mk eid fid st :
  cur st = None -> numbering_inv st ->
  numbering_inv (start_segment l sh mk eid fid st).
Proof.
  intros Hc [H1 H2]. unfold numbering_inv.
  rewrite all_segments_start_segment by exact Hc.
  rewrite length_app, map_app, Nat.add_comm. cbn [List.length Nat.add map segment_id].
  rewrite numbers_upto_S, H1, H2. split; [reflexivity|].
  cbn [start_segment seg_id]. lia.
Qed.

Lemma numbering_inv_set_cur c c' st :
  cur st = Some c -> segment_id c' = segment_id c ->
  numbering_inv st -> numbering_inv (set_cur c' st).
Proof.
  intros Hc Hid [H1 H2]. unfold numbering_inv.
  destruct (all_segments_set_cur c c' st Hc) as [Ha ->]. rewrite Ha in H1, H2.
  rewrite !length_app, !map_app in *. cbn [List.length map] in *.
  rewrite Hid. split; [exact H1|exact H2].
Qed.

Lemma main_step_numbering_inv keep st p :
  numbering_inv st -> numbering_inv (main_step keep st p).
Proof.
  intros H. apply (numbering_inv_hard_reset st p) in H.
  unfold main_step. set (st1 := hard_reset st p) in *.
  destruct (is_slate p); [now apply numbering_inv_close_cur|].
  destruct (new_marker p) as [nm|].
  - destruct (cur st1) as [c|] eqn:Hc.
    + destruct (negb (String.eqb nm (marker_text c))).
      * apply numbering_inv_start; [apply cur_close_cur|].
        now apply numbering_inv_close_cur.
      * now apply (numbering_inv_set_cur c).
    + now apply numbering_inv_start.
  - destruct (cur st1) as [c|] eqn:Hc.
    + now apply (numbering_inv_set_cur c).
    + destruct keep; [|exact H]. now apply numbering_inv_start.
Qed.

Lemma fold_main_step_numbering_inv keep rows st :
  numbering_inv st -> numbering_inv (fold_left (main_step keep) rows st).
Proof.
  revert st. induction rows as [|p rows IH]; intros st H; [exact H|].
  cbn [fold_left]. apply IH. now apply main_step_numbering_inv.
Qed.

(** X7. The emitted segments are numbered 1, 2, 3, ... in the order in
    which they were opened, without gap or repeat. *)
Theorem segment_ids_consecutive keep rows :
  map segment_id (main_segments keep rows)
  = numbers_upto (List.length (main_segments keep rows)).
Proof.
  rewrite main_segments_all.
  apply (numbering_inv_close_cur "eof").
  apply fold_main_step_numbering_inv. split; reflexivity.
Qed.

Lemma closed_early_close_cur r st :
  (forall c, closed_early (set_reset_reason r c)) ->
  Forall closed_early (segments st) ->
  Forall closed_early (segments (close_cur r st)).
Proof.
  intros Hr H. unfold close_cur. destruct (cur st) as [c|]; [|exact H].
  cbn [segments]. apply Forall_app; split; [exact H|].
  constructor; [apply Hr|constructor].
Qed.

Lemma main_step_closed_early keep st p :
  Forall closed_early (segments st) ->
  Forall closed_early (segments (main_step keep st p)).
Proof.
  intros H.
  assert (Forall closed_early (segments (hard_reset st p))) as H1.
  { unfold hard_reset. destruct (prev_loc st) as [pl|]; [|exact H].
    destruct (negb (String.eqb (page_loc p) pl)).
    - apply (closed_early_close_cur "location_change"); [intros c0; now left|exact H].
    - destruct (negb (opt_Z_eqb (shoot p) (prev_shoot st))); [|exact H].
      apply (closed_early_close_cur "shoot_change");
        [intros c0; right; now left|exact H]. }
  unfold main_step. set (st1 := hard_reset st p) in *.
  destruct (is_slate p).
  { apply (closed_early_close_cur "slate");
      [intros c0; right; right; now left|exact H1]. }
  destruct (new_marker p) as [nm|].
  - destruct (cur st1) as [c|] eqn:Hc; [|exact H1].
    destruct (negb (String.eqb nm (marker_text c))); [|exact H1].
    apply (closed_early_close_cur "marker_change");
      [intros c0; now do 3 right|exact H1].
  - destruct (cur st1) as [c|] eqn:Hc; [exact H1|].
    destruct keep; exact H1.
Qed.

(** X8. Only the last emitted segment can carry the reason "eof": the
    segments before it were closed by a change of location, of shoot or of
    marker, or by a slate. *)
Theorem only_last_segment_ends_at_eof keep rows :
  exists closed last,
    main_segments keep rows = (closed ++ last)%list /\
    Forall closed_early closed /\
    (last = [] \/ exists c, last = [c] /\ reset_reason c = "eof").
Proof.
  unfold main_segments, main_loop.
  assert (Forall closed_early (segments (fold_left (main_step keep) rows init_state)))
    as H.
  { assert (forall st, Forall closed_early (segments st) ->
                       Forall closed_early
                         (segments (fold_left (main_step keep) rows st))) as Hfold.
    { induction rows as [|p rows IH]; intros st Hst; [exact Hst|].
      cbn [fold_left]. apply IH. now apply main_step_closed_early. }
    apply Hfold. constructor. }
  set (st := fold_left (main_step keep) rows init_state) in *.
  unfold close_cur. destruct (cur st) as [c|].
  - exists (segments st), [set_reset_reason "eof" c]. cbn [segments].
    split; [reflexivity|]. split; [exact H|]. right. eexists; split; reflexivity.
  - exists (segments st), []. rewrite app_nil_r.
    split; [reflexivity|]. split; [exact H|]. now left.
Qed.

(** ** The pages of a segment *)

Lemma in_segmentb_iff x s : in_segmentb x s = true <-> in_segment x s.
Proof.
  unfold in_segmentb, in_segment. rewrite andb_true_iff, !Z.leb_le. tauto.
Qed.

Lemma opt_Z_eqb_eq (a b : option Z) : opt_Z_eqb a b = true -> a = b.
Proof.
  destruct a as [x|], b as [y|]; cbn; try discriminate; [|reflexivity].
  intros H. apply Z.eqb_eq in H. now subst.
Qed.

Lemma hard_reset_prev st p :
  prev_loc (hard_reset st p) = Some (page_loc p) /\
  prev_shoot (hard_reset st p) = shoot p.
Proof.
  unfold hard_reset. destruct (prev_loc st) as [pl|] eqn:Hp; [|split; reflexivity].
  destruct (String.eqb_spec (page_loc p) pl) as [Heq|Hne]; cbn [negb].
  - destruct (opt_Z_eqb (shoot p) (prev_shoot st)) eqn:E; cbn [negb].
    + split; [now rewrite Hp, Heq|]. symmetry. now apply opt_Z_eqb_eq.
    + split; reflexivity.
  - split; reflexivity.
Qed.

Lemma filter_none {A : Type} (f : A -> bool) (l : list A) :
  Forall (fun a => f a = false) l -> filter f l = [].
Proof.
  induction 1 as [|a l Ha _ IH]; cbn [filter]; [reflexivity|]. now rewrite Ha.
Qed.

Lemma members_ok_grow seen s p :
  members_ok seen s -> end_efta_id s < efta_id p ->
  members_ok (seen ++ [p]) s.
Proof.
  intros (Hn & Hj & (p0 & Hp0 & H0) & (p1 & Hp1 & H1)) Hlt.
  assert (in_segmentb (efta_id p) s = false) as Hout.
  { destruct (in_segmentb (efta_id p) s) eqn:E; [|reflexivity].
    apply in_segmentb_iff in E. unfold in_segment in E. lia. }
  split; [|split; [|split]].
  - rewrite filter_app, length_app. cbn [filter]. rewrite Hout. cbn [List.length].
    rewrite Hn. lia.
  - intros q Hq Hin. apply in_app_or in Hq as [Hq|[<-|[]]]; [now apply Hj|].
    apply in_segmentb_iff in Hin. congruence.
  - exists p0. split; [apply in_or_app; now left|exact H0].
  - exists p1. split; [apply in_or_app; now left|exact H1].
Qed.

Lemma members_ok_new seen p id mk :
  Forall (fun q => efta_id q < efta_id p) seen ->
  is_slate p = false ->
  (new_marker p = Some mk \/ (new_marker p = None /\ mk = "UNMARKED")) ->
  members_ok (seen ++ [p])
    (mkSegment id (page_loc p) (shoot p) mk (efta_id p) (file_id p)
               (efta_id p) (file_id p) 1 0 "").
Proof.
  intros Hlt Hsl Hmk.
  set (s := mkSegment id (page_loc p) (shoot p) mk (efta_id p) (file_id p)
                      (efta_id p) (file_id p) 1 0 "").
  assert (in_segmentb (efta_id p) s = true) as Hin.
  { apply in_segmentb_iff. unfold in_segment. cbn. lia. }
  assert (In p (seen ++ [p])) as Hp by (apply in_or_app; right; now left).
  split; [|split; [|split]].
  - rewrite filter_app, length_app. cbn [filter]. rewrite Hin.
    rewrite filter_none; [reflexivity|].
    eapply Forall_impl; [|exact Hlt]. cbn. intros q Hq.
    destruct (in_segmentb (efta_id q) s) eqn:E; [|reflexivity].
    apply in_segmentb_iff in E. unfold in_segment in E. cbn in E. lia.
  - intros q Hq Hr. apply in_app_or in Hq as [Hq|[<-|[]]].
    + rewrite Forall_forall in Hlt. specialize (Hlt q Hq).
      unfold in_segment in Hr. cbn in Hr. lia.
    + split; [exact Hsl|]. split; [reflexivity|]. split; [reflexivity|].
      cbn [marker_text s]. destruct Hmk as [H|[H _]]; [now right|now left].
  - exists p. split; [exact Hp|]. repeat split. exact Hmk.
  - exists p. split; [exact Hp|]. split; reflexivity.
Qed.

Lemma members_ok_extend seen c p :
  members_ok seen c ->
  Forall (fun q => efta_id q <= end_efta_id c) seen ->
  end_efta_id c < efta_id p -> joined p c ->
  members_ok (seen ++ [p]) (extend_segment (efta_id p) (file_id p) c).
Proof.
  intros (Hn & Hj & (p0 & Hp0 & H0 & H0') & _) Hle Hlt Hjp.
  set (c' := extend_segment (efta_id p) (file_id p) c).
  rewrite Forall_forall in Hle.
  assert (start_efta_id c <= end_efta_id c) as Hse.
  { rewrite <- H0. now apply Hle. }
  assert (In p (seen ++ [p])) as Hp by (apply in_or_app; right; now left).
  split; [|split; [|split]].
  - rewrite filter_app, length_app. cbn [filter].
    assert (in_segmentb (efta_id p) c' = true) as Hin.
    { apply in_segmentb_iff. unfold in_segment. cbn. lia. }
    rewrite Hin. cbn [List.length n_files c' extend_segment].
    rewrite (filter_ext_in (fun q => in_segmentb (efta_id q) c')
                           (fun q => in_segmentb (efta_id q) c)).
    + rewrite Hn. lia.
    + intros q Hq. specialize (Hle q Hq). unfold in_segmentb. cbn.
      f_equal. destruct (Z.leb_spec (efta_id q) (efta_id p));
        destruct (Z.leb_spec (efta_id q) (end_efta_id c)); try reflexivity; lia.
  - intros q Hq Hr. apply in_app_or in Hq as [Hq|[<-|[]]]; [|exact Hjp].
    apply (Hj q Hq). specialize (Hle q Hq).
    unfold in_segment in *. cbn in Hr. lia.
  - exists p0. split; [apply in_or_app; now left|]. split; [exact H0|exact H0'].
  - exists p. split; [exact Hp|]. split; reflexivity.
Qed.

Lemma member_inv_close_cur r last seen st :
  member_inv last seen st -> member_inv last seen (close_cur r st).
Proof.
  intros (H1 & H2 & H3 & _). split; [exact H1|]. split; [|split].
  - apply Forall_all_segments_close_cur; [auto|exact H2].
  - apply Forall_all_segments_close_cur; [|exact H3]. intros c Hc. exact Hc.
  - rewrite cur_close_cur. discriminate.
Qed.

Lemma member_inv_hard_reset last seen st p :
  member_inv last seen st ->
  member_inv last seen (hard_reset st p) /\
  forall c, cur (hard_reset st p) = Some c ->
            page_loc p = location_label c /\ shoot p = shoot_index c.
Proof.
  intros H. pose proof (hard_reset_prev st p) as [Hl Hs].
  assert (member_inv last seen (hard_reset st p)) as H'.
  { unfold hard_reset in *. destruct (prev_loc st) as [pl|] eqn:Hp.
    - destruct (negb (String.eqb (page_loc p) pl)).
      + apply (member_inv_close_cur "location_change") in H.
        destruct H as (H1 & H2 & H3 & H4).
        split; [exact H1|]. split; [exact H2|]. split; [exact H3|].
        intros c Hc. cbn [set_prev cur] in Hc.
        rewrite cur_close_cur in Hc. discriminate.
      + destruct (negb (opt_Z_eqb (shoot p) (prev_shoot st))); [|exact H].
        apply (member_inv_close_cur "shoot_change") in H.
        destruct H as (H1 & H2 & H3 & H4).
        split; [exact H1|]. split; [exact H2|]. split; [exact H3|].
        intros c Hc. cbn [set_prev cur] in Hc.
        rewrite cur_close_cur in Hc. discriminate.
    - destruct H as (H1 & H2 & H3 & H4).
      split; [exact H1|]. split; [exact H2|]. split; [exact H3|].
      intros c Hc. cbn [set_prev cur] in Hc.
      destruct (H4 c Hc) as (_ & Hq & _). congruence. }
  split; [exact H'|]. intros c Hc.
  destruct H' as (_ & _ & _ & H4). destruct (H4 c Hc) as (_ & Hpl & Hps).
  split; congruence.
Qed.

Lemma prev_close_cur r st :
  prev_loc (close_cur r st) = prev_loc st /\
  prev_shoot (close_cur r st) = prev_shoot st.
Proof. unfold close_cur. destruct (cur st); split; reflexivity. Qed.

Lemma member_inv_grow last seen st p :
  last < efta_id p -> member_inv last seen st ->
  Forall (fun q => efta_id q < efta_id p) seen /\
  Forall (fun q => efta_id q <= efta_id p) (seen ++ [p]) /\
  Forall (fun s => end_efta_id s <= efta_id p) (all_segments st) /\
  Forall (members_ok (seen ++ [p])) (all_segments st).
Proof.
  intros Hlt (Hs & He & Hm & _). split; [|split; [|split]].
  - eapply Forall_impl; [|exact Hs]. cbn; intros; lia.
  - apply Forall_app; split.
    + eapply Forall_impl; [|exact Hs]. cbn; intros; lia.
    + constructor; [lia|constructor].
  - eapply Forall_impl; [|exact He]. cbn; intros; lia.
  - rewrite Forall_forall in *. intros s Hin.
    apply members_ok_grow; [now apply Hm|]. specialize (He s Hin). lia.
Qed.

Lemma member_inv_start seen st p mk :
  cur st = None -> is_slate p = false ->
  Forall (fun q => efta_id q < efta_id p) seen ->
  Forall (fun q => efta_id q <= efta_id p) (seen ++ [p]) ->
  Forall (fun s => end_efta_id s <= efta_id p) (all_segments st) ->
  Forall (members_ok (seen ++ [p])) (all_segments st) ->
  prev_loc st = Some (page_loc p) -> prev_shoot st = shoot p ->
  (new_marker p = Some mk \/ (new_marker p = None /\ mk = "UNMARKED")) ->
  member_inv (efta_id p) (seen ++ [p])
    (start_segment (page_loc p) (shoot p) mk (efta_id p) (file_id p) st).
Proof.
  intros Hc Hsl Hlt Hs He Hm Hpl Hps Hmk. unfold member_inv.
  rewrite all_segments_start_segment by exact Hc.
  split; [exact Hs|]. split; [|split].
  - apply Forall_app; split; [exact He|]. constructor; [cbn; lia|constructor].
  - apply Forall_app; split; [exact Hm|]. constructor; [|constructor].
    now apply members_ok_new.
  - intros c [= <-]. cbn. split; [reflexivity|]. split; [exact Hpl|exact Hps].
Qed.

Lemma member_inv_extend last seen st p c :
  last < efta_id p -> member_inv last seen st ->
  cur st = Some c -> joined p c ->
  member_inv (efta_id p) (seen ++ [p])
    (set_cur (extend_segment (efta_id p) (file_id p) c) st).
Proof.
  intros Hlt H Hc Hj.
  destruct (member_inv_grow last seen st p Hlt H) as (_ & Hs' & He' & Hm').
  destruct H as (Hs & He & Hm & Hcur).
  destruct (Hcur c Hc) as (Hend & Hpl & Hps).
  destruct (all_segments_set_cur c (extend_segment (efta_id p) (file_id p) c) st Hc)
    as [Ha Ha'].
  unfold member_inv. rewrite Ha'. rewrite Ha in He', Hm', Hm.
  apply Forall_app in He' as [He' _]. apply Forall_app in Hm' as [Hm' _].
  apply Forall_app in Hm as [_ Hmc]. apply Forall_inv in Hmc as Hmc'.
  split; [exact Hs'|]. split; [|split].
  - apply Forall_app; split; [exact He'|]. constructor; [cbn; lia|constructor].
  - apply Forall_app; split; [exact Hm'|]. constructor; [|constructor].
    apply members_ok_extend; [exact Hmc'| |lia|exact Hj].
    now rewrite Hend.
  - intros c0 [= <-]. cbn. split; [reflexivity|]. split; [exact Hpl|exact Hps].
Qed.

Lemma main_step_member_inv keep st p last seen :
  last < efta_id p -> member_inv last seen st ->
  member_inv (efta_id p) (seen ++ [p]) (main_step keep st p).
Proof.
  intros Hlt H.
  destruct (member_inv_hard_reset last seen st p H) as [H1 Hsame].
  pose proof (hard_reset_prev st p) as [Hpl Hps].
  unfold main_step. set (st1 := hard_reset st p) in *.
  destruct (member_inv_grow last seen st1 p Hlt H1) as (Hlt' & Hs' & He' & Hm').
  destruct (is_slate p) eqn:Hsl.
  { split; [exact Hs'|]. split; [|split].
    - apply Forall_all_segments_close_cur; [auto|exact He'].
    - apply Forall_all_segments_close_cur; [|exact Hm']. intros c Hc. exact Hc.
    - rewrite cur_close_cur. discriminate. }
  destruct (new_marker p) as [nm|] eqn:Hnm.
  - destruct (cur st1) as [c|] eqn:Hc.
    + destruct (String.eqb_spec nm (marker_text c)) as [Heq|Hne]; cbn [negb].
      * apply (member_inv_extend last); try assumption.
        destruct (Hsame c eq_refl) as [Hl Hs].
        split; [exact Hsl|]. split; [exact Hl|]. split; [exact Hs|].
        right. congruence.
      * destruct (prev_close_cur "marker_change" st1) as [Hq1 Hq2].
        apply member_inv_start; try assumption.
        -- apply cur_close_cur.
        -- apply Forall_all_segments_close_cur; [auto|exact He'].
        -- apply Forall_all_segments_close_cur; [|exact Hm'].
           intros c0 Hc0. exact Hc0.
        -- now rewrite Hq1.
        -- now rewrite Hq2.
        -- now left.
    + apply member_inv_start; try assumption. now left.
  - destruct (cur st1) as [c|] eqn:Hc.
    + apply (member_inv_extend last); try assumption.
      destruct (Hsame c eq_refl) as [Hl Hs].
      split; [exact Hsl|]. split; [exact Hl|]. split; [exact Hs|]. now left.
    + destruct keep.
      * apply member_inv_start; try assumption. right; now split.
      * split; [exact Hs'|]. split; [exact He'|]. split; [exact Hm'|].
        intros c0 Hc0. congruence.
Qed.

Lemma fold_main_step_member_inv keep rows st last seen :
  member_inv last seen st ->
  HdRel Z.lt last (map efta_id rows) -> Sorted Z.lt (map efta_id rows) ->
  exists last',
    member_inv last' (seen ++ rows) (fold_left (main_step keep) rows st).
Proof.
  revert st last seen.
  induction rows as [|p rows IH]; intros st last seen Hinv Hhd Hs.
  - exists last. now rewrite app_nil_r.
  - cbn [map] in Hhd, Hs. apply HdRel_inv in Hhd.
    apply Sorted_inv in Hs as [Hs Hhd'].
    pose proof (main_step_member_inv keep st p last seen Hhd Hinv) as Hstep.
    destruct (IH _ _ _ Hstep Hhd' Hs) as (last' & Hfin).
    exists last'. cbn [fold_left]. now rewrite <- app_assoc in Hfin.
Qed.

(** X9. Along a stream of strictly increasing IDs, the file count of an
    emitted segment is the number of pages whose ID lies in its range; each
    of these pages is no slate, has the segment's location and shoot, and
    carries no valid marker or the segment's marker; the segment starts at
    a page that carries its marker (or none, for a placeholder) and ends at
    a page of the stream. *)
Theorem segment_members keep rows s :
  Sorted Z.lt (map efta_id rows) ->
  In s (main_segments keep rows) ->
  n_files s
  = Z.of_nat (List.length (filter (fun p => in_segmentb (efta_id p) s) rows)) /\
  (forall p, In p rows -> in_segment (efta_id p) s -> joined p s) /\
  (exists p0, In p0 rows /\ efta_id p0 = start_efta_id s /\
              file_id p0 = start_file_id s /\
              (new_marker p0 = Some (marker_text s) \/
               (new_marker p0 = None /\ marker_text s = "UNMARKED"))) /\
  (exists p1, In p1 rows /\ efta_id p1 = end_efta_id s /\
              file_id p1 = end_file_id s).
Proof.
  intros Hs Hin. rewrite main_segments_all in Hin.
  destruct rows as [|p0 rows].
  { cbn in Hin. contradiction. }
  destruct (fold_main_step_member_inv keep (p0 :: rows) init_state
              (efta_id p0 - 1) []) as (last' & Hinv).
  - split; [constructor|]. split; [constructor|]. split; [constructor|].
    discriminate.
  - cbn [map]. constructor. lia.
  - exact Hs.
  - apply (member_inv_close_cur "eof") in Hinv.
    destruct Hinv as (_ & _ & Hm & _). rewrite Forall_forall in Hm.
    exact (Hm s Hin).
Qed.

(** X9, witness: the segment of the five pages marked B in the scenario
    stream. *)
Lemma segment_members_witness :
  Sorted Z.lt (map efta_id scenario_rows) /\
  In (mkSegment 1 "L1" (Some 1) "B" 1 "EFTA" 5 "EFTA" 5 0 "slate")
     (main_segments false scenario_rows) /\
  5 = Z.of_nat (List.length
        (filter (fun p => in_segmentb (efta_id p)
                  (mkSegment 1 "L1" (Some 1) "B" 1 "EFTA" 5 "EFTA" 5 0 "slate"))
                scenario_rows)).
Proof.
  assert (Sorted Z.lt (map efta_id scenario_rows)) as Hs by (repeat constructor).
  assert (In (mkSegment 1 "L1" (Some 1) "B" 1 "EFTA" 5 "EFTA" 5 0 "slate")
             (main_segments false scenario_rows)) as Hin.
  { vm_compute. left; reflexivity. }
  split; [exact Hs|]. split; [exact Hin|].
  apply (proj1 (segment_members false scenario_rows _ Hs Hin)).
Defined.

(** ** The two segmentations compared *)

Lemma v1_new_marker_eq p : v1_new_marker p = new_marker p.
Proof.
  unfold v1_new_marker, new_marker.
  destruct (has_marker p) as [[|]|]; reflexivity.
Qed.

Lemma opt_Z_eqb_refl (a : option Z) : opt_Z_eqb a a = true.
Proof. destruct a; cbn; [apply Z.eqb_refl|reflexivity]. Qed.

Lemma upgrade_segments_snoc (l : list segment_v1) (c : segment_v1) :
  upgrade_segments (l ++ [c])
  = (map (upgrade_segment "marker_change") l ++ [upgrade_segment "eof" c])%list.
Proof.
  induction l as [|a l IH]; [reflexivity|].
  cbn [app map upgrade_segments]. rewrite <- IH.
  destruct (l ++ [c])%list eqn:E; [destruct l; discriminate|reflexivity].
Qed.

Lemma main_step_agrees lo sh st1 st2 p :
  folds_agree lo sh st1 st2 ->
  is_slate p = false -> loc p = lo -> shoot p = sh ->
  folds_agree lo sh (v1_step st1 p) (main_step false st2 p).
Proof.
  intros (Hseg & Hcur & Hid & Hnil & Hprev) Hsl Hlo Hsh.
  assert (page_loc p = match lo with Some l => l | None => "UNKNOWN" end) as Hpl.
  { unfold page_loc. now rewrite Hlo. }
  assert (segments (hard_reset st2 p) = segments st2 /\
          cur (hard_reset st2 p) = cur st2 /\
          seg_id (hard_reset st2 p) = seg_id st2) as (Hs1 & Hc1 & Hi1).
  { unfold hard_reset. destruct Hprev as [Hn|[Hp Hps]].
    - rewrite Hn. repeat split.
    - rewrite Hp, Hps, <- Hpl, String.eqb_refl, Hsh, opt_Z_eqb_refl. repeat split. }
  pose proof (hard_reset_prev st2 p) as [Hp1 Hp2].
  unfold main_step, v1_step. rewrite v1_new_marker_eq, Hsl.
  set (stR := hard_reset st2 p) in *.
  assert (forall st', prev_loc st' = prev_loc stR -> prev_shoot st' = prev_shoot stR ->
            prev_loc st' = None \/
            (prev_loc st' = Some (match lo with Some l => l | None => "UNKNOWN" end) /\
             prev_shoot st' = sh)) as Hprev'.
  { intros st' -> ->. right. rewrite Hp1, Hp2, Hpl, Hsh. split; reflexivity. }
  destruct (new_marker p) as [nm|].
  - rewrite Hc1, Hcur. destruct (v1_cur st1) as [c|] eqn:Hc; cbn [option_map].
    + change (marker_text (upgrade_segment "" c)) with (v1_marker_text c).
      destruct (negb (String.eqb nm (v1_marker_text c))).
      * unfold close_cur. rewrite Hc1, Hcur. cbn [option_map].
        split; [|split; [|split; [|split]]].
        -- cbn. rewrite Hs1, Hseg, map_app. reflexivity.
        -- cbn. rewrite ?Hi1, ?Hid. reflexivity.
        -- cbn. now rewrite Hi1, Hid.
        -- discriminate.
        -- apply Hprev'; reflexivity.
      * split; [|split; [|split; [|split]]].
        -- cbn. now rewrite Hs1.
        -- reflexivity.
        -- cbn. now rewrite Hi1.
        -- discriminate.
        -- apply Hprev'; reflexivity.
    + split; [|split; [|split; [|split]]].
      * cbn. now rewrite Hs1.
      * cbn. rewrite ?Hi1, ?Hid. reflexivity.
      * cbn. now rewrite Hi1, Hid.
      * discriminate.
      * apply Hprev'; reflexivity.
  - rewrite Hc1, Hcur. destruct (v1_cur st1) as [c|] eqn:Hc; cbn [option_map].
    + split; [|split; [|split; [|split]]].
      * cbn. now rewrite Hs1.
      * reflexivity.
      * cbn. now rewrite Hi1.
      * discriminate.
      * apply Hprev'; reflexivity.
    + split; [|split; [|split; [|split]]].
      * now rewrite Hs1.
      * now rewrite Hc1, Hcur, Hc.
      * now rewrite Hi1.
      * intros _. now apply Hnil.
      * apply Hprev'; reflexivity.
Qed.

Lemma fold_main_step_agrees lo sh rows st1 st2 :
  uniform_stream lo sh rows ->
  folds_agree lo sh st1 st2 ->
  folds_agree lo sh (fold_left v1_step rows st1)
              (fold_left (main_step false) rows st2).
Proof.
  intros Hu. revert st1 st2.
  induction Hu as [|p rows (Hsl & Hlo & Hsh) _ IH]; intros st1 st2 H; [exact H|].
  cbn [fold_left]. apply IH. now apply main_step_agrees.
Qed.

(** X10. On a stream without slates whose pages share one location and
    one shoot, the second segmentation, without placeholders, emits the
    segments of the first one, in the same order and with the same
    numbers, ranges, files and counts; it writes "UNKNOWN" for a missing
    location and closes every segment but the last for a change of marker,
    the last one at the end of the stream. *)
Theorem v2_agrees_with_v1 lo sh rows :
  uniform_stream lo sh rows ->
  main_segments false rows = upgrade_segments (v1_main_segments rows).
Proof.
  intros Hu.
  pose proof (fold_main_step_agrees lo sh rows (mkState1 [] None 0) init_state Hu)
    as H.
  destruct H as (Hseg & Hcur & _ & Hnil & _).
  { repeat split. now left. }
  unfold main_segments, main_loop, v1_main_segments, close_cur.
  rewrite Hcur. destruct (v1_cur (fold_left v1_step rows (mkState1 [] None 0)))
    as [c|] eqn:Hc; cbn [option_map segments].
  - rewrite upgrade_segments_snoc, Hseg. reflexivity.
  - rewrite Hseg, (Hnil eq_refl). reflexivity.
Qed.

(** X10, witness: the five pages marked B. *)
Lemma v2_agrees_with_v1_witness :
  uniform_stream (Some "L1") (Some 1) five_B_pages /\
  main_segments false five_B_pages
  = upgrade_segments (v1_main_segments five_B_pages).
Proof.
  assert (uniform_stream (Some "L1") (Some 1) five_B_pages) as H.
  { repeat constructor. }
  split; [exact H|].
  apply (v2_agrees_with_v1 (Some "L1") (Some 1) five_B_pages H).
Defined.

(** ** The pairs that the graph builder scores *)

Section GraphPairs.

Variable pt : Type.
Variable findHomography : list pt -> list pt -> option (list Z).
Variable kps : string -> list pt.
Variable feats : string -> option (list descriptor).

Local Abbreviation score a b :=
  (ransac_inliers pt findHomography (kps a) (feats a) (kps b) (feats b)).
Local Abbreviation inner := (inner_loop pt findHomography kps feats).
Local Abbreviation outer := (outer_loop pt findHomography kps feats).

(** X11. Without a pair budget the graph builder misses no pair of
    distinct names: when it returns, every pair of names, the earlier one
    as the query image, whose inlier count reaches the threshold is joined
    by an edge of that weight. *)
Theorem build_graph_complete names thr lim G a b w :
  NoDup names ->
  no_budget lim ->
  build_graph pt findHomography kps feats names thr lim = Ok G ->
  stands_before names a b ->
  score a b = Ok w -> thr <= w ->
  In (a, b, w) (edges G).
Proof.
  intros Hnd Hlim Hb Hpos Hs Hle.
  destruct (build_graph_distinct pt findHomography kps feats names thr lim G Hnd Hb)
    as (_ & _ & H).
  now apply (H Hlim a b w).
Qed.

Lemma inner_loop_budget thr l a rest pairs G pairs' G' :
  0 < l -> pairs <= l ->
  inner thr (Some l) a rest pairs G = Ok (pairs', G') ->
  pairs <= pairs' <= l + 1 /\
  Z.of_nat (List.length (edges G')) - Z.of_nat (List.length (edges G))
  <= Z.min pairs' l - pairs.
Proof.
  intros Hl. revert pairs G.
  induction rest as [|b0 rest IH]; intros pairs G Hp; cbn [inner_loop].
  - intros [= <- <-]. lia.
  - unfold over_limit. destruct (l =? 0) eqn:E0; [apply Z.eqb_eq in E0; lia|].
    cbn [negb andb]. destruct (l <? pairs + 1) eqn:E.
    + intros [= <- <-]. apply Z.ltb_lt in E. lia.
    + apply Z.ltb_ge in E.
      destruct (score_pair pt findHomography kps feats thr G a b0) as [G1|e] eqn:Hsp;
        cbn [bind]; [|discriminate].
      intros Hin. destruct (IH _ _ E Hin) as [H1 H2].
      pose proof (score_pair_length _ _ _ _ _ _ _ _ _ Hsp) as Hlen. lia.
Qed.

Lemma outer_loop_budget thr l names pairs G G' :
  0 < l -> pairs <= l ->
  outer thr (Some l) names pairs G = Ok G' ->
  Z.of_nat (List.length (edges G')) - Z.of_nat (List.length (edges G))
  <= l - pairs.
Proof.
  intros Hl. revert pairs G.
  induction names as [|a0 rest IH]; intros pairs G Hp; cbn [outer_loop].
  - intros [= <-]. lia.
  - destruct (inner thr (Some l) a0 rest pairs G) as [[pairs1 G1]|e] eqn:Hin;
      cbn [bind]; [|discriminate].
    cbn [fst snd]. destruct (inner_loop_budget _ _ _ _ _ _ _ _ Hl Hp Hin) as [H1 H2].
    unfold over_limit. destruct (l =? 0) eqn:E0; [apply Z.eqb_eq in E0; lia|].
    cbn [negb andb]. destruct (l <? pairs1) eqn:E.
    + intros [= <-]. lia.
    + apply Z.ltb_ge in E. intros Hout. specialize (IH _ _ E Hout). lia.
Qed.

(** X12. With a pair budget of [l] pairs the graph builder scores at most
    [l] pairs: the graph it returns has at most [l] edges. *)
Theorem build_graph_budget names thr l G :
  0 < l ->
  build_graph pt findHomography kps feats names thr (Some l) = Ok G ->
  Z.of_nat (List.length (edges G)) <= l.
Proof.
  intros Hl Hb. unfold build_graph in Hb.
  apply outer_loop_budget in Hb; [|exact Hl|lia].
  rewrite add_nodes_edges in Hb. cbn in Hb. lia.
Qed.

End GraphPairs.

(** X11, witness: pages A and B at threshold 12; page A is the query image
    and the pair scores twelve. *)
Lemma build_graph_complete_witness :
  NoDup ["A"; "B"] /\
  no_budget None /\
  build_graph (Z * Z) identity_consensus kps_AB feats_AB ["A"; "B"] 12 None
  = Ok (mkGraph ["A"; "B"] [("A", "B", 12)]) /\
  stands_before ["A"; "B"] "A" "B" /\
  ransac_inliers (Z * Z) identity_consensus
    (kps_AB "A") (feats_AB "A") (kps_AB "B") (feats_AB "B") = Ok 12 /\
  12 <= 12 /\
  In ("A", "B", 12) (edges (mkGraph ["A"; "B"] [("A", "B", 12)])).
Proof.
  assert (build_graph (Z * Z) identity_consensus kps_AB feats_AB ["A"; "B"] 12 None
          = Ok (mkGraph ["A"; "B"] [("A", "B", 12)])) as Hb
      by (vm_compute; reflexivity).
  assert (stands_before ["A"; "B"] "A" "B") as Hp by (now exists [], [], []).
  assert (ransac_inliers (Z * Z) identity_consensus
            (kps_AB "A") (feats_AB "A") (kps_AB "B") (feats_AB "B") = Ok 12) as Hs
      by (vm_compute; reflexivity).
  assert (NoDup ["A"; "B"]) as Hnd.
  { repeat constructor; cbn; intros Hc; intuition discriminate. }
  split; [exact Hnd|].
  split; [now left|]. split; [exact Hb|]. split; [exact Hp|].
  split; [exact Hs|]. split; [lia|].
  apply (build_graph_complete (Z * Z) identity_consensus kps_AB feats_AB
           ["A"; "B"] 12 None _ "A" "B" 12 Hnd (or_introl eq_refl) Hb Hp Hs).
  lia.
Defined.

(** X12, witness: the same two pages with a budget of one pair. *)
Lemma build_graph_budget_witness :
  0 < 1 /\
  build_graph (Z * Z) identity_consensus kps_AB feats_AB ["A"; "B"] 12 (Some 1)
  = Ok (mkGraph ["A"; "B"] [("A", "B", 12)]) /\
  Z.of_nat (List.length (edges (mkGraph ["A"; "B"] [("A", "B", 12)]))) <= 1.
Proof.
  assert (build_graph (Z * Z) identity_consensus kps_AB feats_AB ["A"; "B"] 12 (Some 1)
          = Ok (mkGraph ["A"; "B"] [("A", "B", 12)])) as Hb
      by (vm_compute; reflexivity).
  split; [lia|]. split; [exact Hb|].
  apply (build_graph_budget (Z * Z) identity_consensus kps_AB feats_AB
           ["A"; "B"] 12 1 _ ltac:(lia) Hb).
Defined.

(** The order of the names decides: with page B first the pair scores zero
    and the graph has no edge. *)
Example build_graph_order_matters :
  build_graph (Z * Z) identity_consensus kps_AB feats_AB ["B"; "A"] 12 None
  = Ok (mkGraph ["B"; "A"] []).
Proof. vm_compute. reflexivity. Qed.

(** ** File names and the selection of a run *)

Lemma int_of_digits_from_app (acc : Z) (s t : string) :
  int_of_digits_from acc (s ++ t)
  = int_of_digits_from (int_of_digits_from acc s) t.
Proof.
  revert acc. induction s as [|c s IH]; intros acc; [reflexivity|].
  cbn [append int_of_digits_from]. apply IH.
Qed.

Lemma digit_cases (d : Z) :
  0 <= d < 10 ->
  d = 0 \/ d = 1 \/ d = 2 \/ d = 3 \/ d = 4 \/ d = 5 \/ d = 6 \/ d = 7 \/
  d = 8 \/ d = 9.
Proof. lia. Qed.

Lemma digit_char_value (d : Z) :
  0 <= d < 10 ->
  Z.of_nat (nat_of_ascii (digit_char d) - 48) = d /\ is_09 (digit_char d) = true.
Proof.
  intros H. destruct (digit_cases d H) as [->|[->|[->|[->|[->|[->|[->|[->|[->| ->]]]]]]]]];
    split; reflexivity.
Qed.

Lemma int_of_pad_digits (w : nat) (n acc : Z) :
  int_of_digits_from acc (pad_digits w n) = acc * 10 ^ Z.of_nat w + n mod 10 ^ Z.of_nat w.
Proof.
  revert n acc. induction w as [|w IH]; intros n acc.
  - cbn [pad_digits int_of_digits_from]. change (10 ^ Z.of_nat 0) with 1.
    rewrite Z.mod_1_r. lia.
  - cbn [pad_digits]. rewrite int_of_digits_from_app, IH.
    cbn [int_of_digits_from].
    destruct (digit_char_value (n mod 10)) as [-> _].
    { apply Z.mod_pos_bound. lia. }
    rewrite Nat2Z.inj_succ, Z.pow_succ_r by lia.
    rewrite (Z.rem_mul_r n 10 (10 ^ Z.of_nat w)) by lia. lia.
Qed.

Lemma pad_digits_shape (w : nat) (n : Z) :
  String.length (pad_digits w n) = w /\ all_chars is_09 (pad_digits w n) = true.
Proof.
  revert n. induction w as [|w IH]; intros n; [split; reflexivity|].
  cbn [pad_digits]. destruct (IH (n / 10)) as [Hl Hd].
  assert (forall s c, String.length (s ++ String c "") = S (String.length s)) as Hlen.
  { induction s as [|x s IHs]; intros c; cbn; [reflexivity|now rewrite IHs]. }
  assert (forall s c, all_chars is_09 s = true -> is_09 c = true ->
                      all_chars is_09 (s ++ String c "") = true) as Hall.
  { induction s as [|x s IHs]; intros c Hs Hc; cbn in *.
    - now rewrite Hc.
    - apply andb_true_iff in Hs as [Hx Hs]. rewrite Hx. cbn. now apply IHs. }
  split; [now rewrite Hlen, Hl|]. apply Hall; [exact Hd|].
  apply digit_char_value. apply Z.mod_pos_bound. lia.
Qed.

Lemma take_digits_prefix (s t : string) :
  all_chars is_09 s = true ->
  take_digits (String.length s) (s ++ t) = Some s.
Proof.
  induction s as [|c s IH]; intros H; [reflexivity|].
  cbn in H. apply andb_true_iff in H as [Hc Hs].
  cbn [String.length append take_digits]. rewrite Hc, (IH Hs). reflexivity.
Qed.

Lemma append_assoc (s t u : string) : ((s ++ t) ++ u = s ++ (t ++ u))%string.
Proof. induction s as [|c s IH]; cbn; [reflexivity|now rewrite IH]. Qed.

(** X13. A file ID read back gives the page ID: for an ID below 10^8 the
    name made of "EFTA", the ID on eight digits and any suffix parses to
    that ID. *)
Theorem parse_file_id_round_trip (n : Z) (suffix : string) :
  0 <= n < 10 ^ 8 ->
  parse_efta_id (file_id_of n ++ suffix) = Ok n.
Proof.
  intros Hn. unfold parse_efta_id, file_id_of, fmt08.
  destruct (Z.leb_spec 0 n); [|lia]. destruct (Z.ltb_spec n (10 ^ 8)); [|lia].
  cbn [andb]. rewrite append_assoc.
  destruct (pad_digits_shape 8 n) as [Hl Hd].
  assert (efta_search ("EFTA" ++ pad_digits 8 n ++ suffix) = Some (pad_digits 8 n))
    as Hs.
  { cbn [append efta_search efta_at].
    change (letter_ci "E" "E" && letter_ci "F" "F" && letter_ci "T" "T"
            && letter_ci "A" "A")%bool with true. cbv iota.
    rewrite <- Hl at 1. now rewrite take_digits_prefix. }
  rewrite Hs. unfold int_of_digits. rewrite int_of_pad_digits.
  f_equal. change (Z.of_nat 8) with 8. rewrite Z.mod_small by lia. lia.
Qed.

(** X13, witness: page 1234 and the suffix ".pdf". *)
Lemma parse_file_id_round_trip_witness :
  0 <= 1234 < 10 ^ 8 /\
  file_id_of 1234 = "EFTA00001234" /\
  parse_efta_id (file_id_of 1234 ++ ".pdf") = Ok 1234.
Proof.
  split; [lia|]. split; [reflexivity|].
  apply (parse_file_id_round_trip 1234 ".pdf"). lia.
Defined.

Lemma Forall_firstn_of {A : Type} (P : A -> Prop) (k : nat) (l : list A) :
  Forall P l -> Forall P (firstn k l).
Proof.
  revert k. induction l as [|a l IH]; intros k H; destruct k; cbn; auto.
  inversion H; subst. constructor; auto.
Qed.

Lemma parse_all_in_range lo hi names :
  Forall (fun nm => name_in_range lo hi nm = true) names ->
  exists ids,
    parse_all names = inr ids /\
    Forall (fun i => lo <= i <= hi) ids /\
    List.length ids = List.length names.
Proof.
  induction 1 as [|nm names Hnm _ (ids & Hp & Hr & Hl)].
  - exists []. repeat split. constructor.
  - unfold name_in_range in Hnm. cbn [parse_all]. unfold parse_efta_id.
    destruct (efta_search nm) as [d|]; [|discriminate].
    apply andb_true_iff in Hnm as [H1 H2]. apply Z.leb_le in H1, H2.
    rewrite Hp. exists (int_of_digits d :: ids).
    split; [reflexivity|]. split; [constructor; [lia|exact Hr]|].
    cbn. now rewrite Hl.
Qed.

Lemma select_pdfs_ranged pdfs s e lim :
  s <> None \/ e <> None ->
  match select_pdfs pdfs s e lim with
  | inl (BadFileName _) => False
  | inl _ => True
  | inr names =>
      Forall (fun nm => name_in_range (fst (range_bounds s e))
                                      (snd (range_bounds s e)) nm = true) names /\
      forall n, lim = Some n -> Z.of_nat (List.length names) <= Z.max 0 n
  end.
Proof.
  intros Hr. unfold select_pdfs.
  destruct pdfs as [|p0 pdfs]; [exact I|].
  set (lo := fst (range_bounds s e)). set (hi := snd (range_bounds s e)).
  assert (range_bounds s e = (lo, hi)) as Hb by (subst lo hi; now destruct (range_bounds s e)).
  assert (Forall (fun nm => name_in_range lo hi nm = true)
                 (filter (name_in_range lo hi) (p0 :: pdfs))) as Hf.
  { apply Forall_forall. intros x Hx. now apply filter_In in Hx. }
  assert (match filter (name_in_range lo hi) (p0 :: pdfs) with
          | [] => True
          | f =>
              Forall (fun nm => name_in_range lo hi nm = true)
                     (match lim with
                      | Some n => firstn (Z.to_nat (Z.max 0 n)) f
                      | None => f
                      end) /\
              forall n, lim = Some n ->
                Z.of_nat (List.length (match lim with
                                       | Some n => firstn (Z.to_nat (Z.max 0 n)) f
                                       | None => f
                                       end)) <= Z.max 0 n
          end) as Hmain.
  { destruct (filter (name_in_range lo hi) (p0 :: pdfs)) as [|f0 f]; [exact I|].
    split.
    - destruct lim; [now apply Forall_firstn_of|exact Hf].
    - intros n ->. rewrite length_firstn. lia. }
  destruct s as [s0|]; [|destruct e as [e0|]; [|destruct Hr; congruence]].
  - rewrite Hb. destruct (filter (name_in_range lo hi) (p0 :: pdfs)); exact Hmain.
  - rewrite Hb. destruct (filter (name_in_range lo hi) (p0 :: pdfs)); exact Hmain.
Qed.

(** X14. A run with a range filter never stops on a file name without the
    pattern: such names are left out; the IDs it reads lie in the range
    asked for, and their number is at most the limit. *)
Theorem ranged_run_skips_bad_names pdfs s e lim :
  s <> None \/ e <> None ->
  match main_ids pdfs s e lim with
  | inl (BadFileName _) => False
  | inl _ => True
  | inr ids =>
      Forall (fun i => fst (range_bounds s e) <= i <= snd (range_bounds s e)) ids /\
      forall n, lim = Some n -> Z.of_nat (List.length ids) <= Z.max 0 n
  end.
Proof.
  intros Hr. unfold main_ids.
  pose proof (select_pdfs_ranged pdfs s e lim Hr) as H.
  destruct (select_pdfs pdfs s e lim) as [err|names]; [exact H|].
  destruct H as [Hall Hlim].
  destruct (parse_all_in_range _ _ names Hall) as (ids & -> & Hin & Hlen).
  split; [exact Hin|]. rewrite Hlen. exact Hlim.
Qed.

(** X14, witness: a listing with a stray name, read from ID 0 on. *)
Lemma ranged_run_skips_bad_names_witness :
  (Some 0 <> None \/ @None Z <> None) /\
  match main_ids ["EFTA00000002.pdf"; "notes.pdf"; "efta00000007.pdf"]
                 (Some 0) None (Some 5) with
  | inl (BadFileName _) => False
  | inl _ => True
  | inr ids =>
      Forall (fun i => fst (range_bounds (Some 0) None) <= i
                       <= snd (range_bounds (Some 0) None)) ids /\
      forall n, Some 5 = Some n -> Z.of_nat (List.length ids) <= Z.max 0 n
  end.
Proof.
  assert (Some 0 <> None \/ @None Z <> None) as H by (left; discriminate).
  split; [exact H|].
  apply (ranged_run_skips_bad_names
           ["EFTA00000002.pdf"; "notes.pdf"; "efta00000007.pdf"]
           (Some 0) None (Some 5) H).
Defined.

(** The listing of the witness gives the IDs 2 and 7 under the range
    filter; without the filter the stray name stops the run. *)
Example stray_name_with_and_without_range :
  main_ids ["EFTA00000002.pdf"; "notes.pdf"; "efta00000007.pdf"] (Some 0) None (Some 5)
  = inr [2; 7] /\
  main_ids ["EFTA00000002.pdf"; "notes.pdf"; "efta00000007.pdf"] None None None
  = inl (BadFileName "notes.pdf").
Proof. split; vm_compute; reflexivity. Qed.

(** ** Configuration *)

Lemma split_dot_nonempty (s : string) : split_dot s <> [].
Proof.
  destruct s as [|c s]; cbn [split_dot]; [discriminate|].
  destruct (Ascii.eqb c "."); [discriminate|].
  destruct (split_dot s); discriminate.
Qed.

Lemma split_dot_key (k : string) : dot_free k = true -> split_dot k = [k].
Proof.
  unfold dot_free. induction k as [|c k IH]; intros H; [reflexivity|].
  cbn in H. apply andb_true_iff in H as [Hc Hk].
  cbn [split_dot]. apply negb_true_iff in Hc. rewrite Hc, (IH Hk). reflexivity.
Qed.

Lemma split_dot_app (k rest : string) :
  dot_free k = true ->
  split_dot (k ++ String "." rest) = k :: split_dot rest.
Proof.
  unfold dot_free. induction k as [|c k IH]; intros H; [reflexivity|].
  cbn in H. apply andb_true_iff in H as [Hc Hk].
  cbn [append split_dot]. apply negb_true_iff in Hc. rewrite Hc, (IH Hk).
  reflexivity.
Qed.

(** X15. A dotted path is a chain of look-ups: on a mapping, a key without
    a dot gives the value bound to it, a null included, and the default
    when the key is missing; a path that goes on after the key goes on in
    that value; and on anything but a mapping every path gives the
    default. *)
Theorem cfg_get_dotted (cfg : yaml) (k rest : string) (default : yaml) :
  dot_free k = true ->
  match cfg with
  | YDict d =>
      cfg_get cfg k default
      = match dict_get k d with Some v => v | None => default end /\
      cfg_get cfg (k ++ String "." rest) default
      = match dict_get k d with
        | Some v => cfg_get v rest default
        | None => default
        end
  | _ => forall dotted, cfg_get cfg dotted default = default
  end.
Proof.
  intros Hk.
  assert (forall c, (forall d, c <> YDict d) ->
            forall dotted, cfg_get c dotted default = default) as Hnd.
  { intros c Hc dotted. unfold cfg_get.
    pose proof (split_dot_nonempty dotted) as Hne.
    destruct (split_dot dotted) as [|k0 ks]; [congruence|].
    destruct c; try reflexivity. now destruct (Hc d). }
  destruct cfg as [| | | | |d]; try (apply Hnd; discriminate).
  unfold cfg_get. rewrite (split_dot_key k Hk), (split_dot_app k rest Hk).
  cbn [cfg_walk]. split; reflexivity.
Qed.

(** X15, witness: the key "ocr" and the path "ocr.enabled" of a sample. *)
Lemma cfg_get_dotted_witness :
  dot_free "ocr" = true /\
  cfg_get sample_cfg "ocr.enabled" YNull = YBool true /\
  cfg_get sample_cfg "paths.db_path" (YStr "x") = YNull /\
  cfg_get sample_cfg "ocr.slate.roi" (YStr "top") = YStr "top".
Proof.
  split; [reflexivity|].
  pose proof (cfg_get_dotted sample_cfg "ocr" "enabled" YNull eq_refl) as [_ H].
  split; [exact H|]. split; reflexivity.
Defined.

Lemma find_app_first {A : Type} (f : A -> bool) (l1 l2 : list A) :
  find f (l1 ++ l2)
  = match find f l1 with Some a => Some a | None => find f l2 end.
Proof.
  induction l1 as [|a l1 IH]; [reflexivity|].
  cbn [app find]. destruct (f a); [reflexivity|exact IH].
Qed.

Lemma seed_in_shoots_find efta l shoots :
  Forall shoot_bounded shoots ->
  seed_in_shoots efta l shoots
  = Some (option_map assignment_of
            (find (shoot_covers efta) (map (fun sh => (l, sh)) shoots))).
Proof.
  induction 1 as [|sh shoots [Ha Hb] _ IH]; [reflexivity|].
  cbn [seed_in_shoots map find]. unfold shoot_covers at 1. cbn [snd].
  destruct (efta_start sh) as [a|]; [|congruence].
  destruct (efta_end sh) as [b|]; [|congruence].
  destruct ((a <=? efta) && (efta <=? b))%bool; [reflexivity|exact IH].
Qed.

(** X16. When every configured shoot has its two bounds, the seed of a
    page is read off the first shoot, in the order of the configuration,
    whose range holds the page ID: its entry's location, its index and its
    confidence, 0.9 when it states none; a page in no range is unassigned,
    with confidence 0.5. *)
Theorem seed_from_config_first_match efta entries :
  Forall (fun lsh => shoot_bounded (snd lsh)) (all_shoots entries) ->
  seed_from_config efta entries
  = Some (match find (shoot_covers efta) (all_shoots entries) with
          | Some lsh => assignment_of lsh
          | None => unassigned
          end).
Proof.
  induction entries as [|e entries IH]; intros H; [reflexivity|].
  unfold all_shoots in *. cbn [flat_map] in *.
  apply Forall_app in H as [He Hrest].
  cbn [seed_from_config]. rewrite seed_in_shoots_find.
  - rewrite find_app_first.
    set (here := map (fun sh => (seed_location e, sh))
                     (match seed_shoots e with Some l => l | None => [] end)).
    destruct (find (shoot_covers efta) here) as [lsh|]; cbn [option_map];
      [reflexivity|]. exact (IH Hrest).
  - rewrite Forall_forall in He |- *. intros sh Hsh.
    apply (He (seed_location e, sh)).
    apply (in_map (fun sh0 => (seed_location e, sh0))). exact Hsh.
Qed.

(** X16, witness: page 900 falls in the second shoot of the first entry of
    a sample, which states no confidence. *)
Lemma seed_from_config_first_match_witness :
  Forall (fun lsh => shoot_bounded (snd lsh)) (all_shoots sample_seeds) /\
  seed_from_config 900 sample_seeds = Some (Some "NY", Some 2, "range_seed", 9 # 10) /\
  seed_from_config 0 sample_seeds = Some unassigned.
Proof.
  assert (Forall (fun lsh => shoot_bounded (snd lsh)) (all_shoots sample_seeds)) as H.
  { repeat constructor; discriminate. }
  split; [exact H|].
  split; [exact (seed_from_config_first_match 900 sample_seeds H)|reflexivity].
Defined.

(** ** The detectors of the two ingest scripts *)

Lemma filter_length_le {A : Type} (f g : A -> bool) (l : list A) :
  (forall a, In a l -> f a = true -> g a = true) ->
  (List.length (filter f l) <= List.length (filter g l))%nat /\
  incl (filter f l) (filter g l).
Proof.
  induction l as [|a l IH]; intros H; [cbn; split; [lia|apply incl_refl]|].
  destruct IH as [IH1 IH2]; [intros b Hb; apply H; now right|].
  cbn [filter]. destruct (f a) eqn:Ef.
  - rewrite (H a (or_introl eq_refl) Ef). cbn [List.length].
    split; [lia|]. intros x [<-|Hx]; [now left|right; now apply IH2].
  - destruct (g a); cbn [List.length]; split; try lia.
    + apply incl_tl. exact IH2.
    + exact IH2.
Qed.

Section TwoScripts.

Variable image : Type.
Variable ocr_text : image -> string -> Z -> option string -> string.

Lemma raw_hit_is_hit up compact k :
  upper k = k -> contains k up = true -> keyword_hit up compact k = true.
Proof. intros Hk Hc. unfold keyword_hit. now rewrite Hk, Hc. Qed.

Lemma slate_keywords_upper k :
  In k ToolsIngest.SLATE_KEYWORDS -> upper k = k.
Proof.
  intros [<-|[<-|[<-|[<-|[<-|[]]]]]]; reflexivity.
Qed.

(** X17. Under the default settings the slate detector of the
    configurable script finds every keyword that the first script finds
    on the same page, and flags every page that the first script flags. *)
Theorem detect_slate_keeps_old_slates img :
  slate_text (ToolsIngest.detect_slate image ocr_text img)
  = slate_text (detect_slate image ocr_text img "top" 6
                  ToolsIngest.SLATE_KEYWORDS 3 ToolsIngest.STRONG_KEYWORDS) /\
  incl (slate_found (ToolsIngest.detect_slate image ocr_text img))
       (slate_found (detect_slate image ocr_text img "top" 6
                       ToolsIngest.SLATE_KEYWORDS 3 ToolsIngest.STRONG_KEYWORDS)) /\
  (slate_flag (ToolsIngest.detect_slate image ocr_text img) = true ->
   slate_flag (detect_slate image ocr_text img "top" 6
                 ToolsIngest.SLATE_KEYWORDS 3 ToolsIngest.STRONG_KEYWORDS) = true).
Proof.
  unfold ToolsIngest.detect_slate, detect_slate, slate_text, slate_found, slate_flag.
  cbn [fst snd].
  set (up := upper (ocr_text img "top" 6 None)).
  set (compact := re_sub_not is_AZ09 up).
  destruct (filter_length_le (fun k => contains k up) (keyword_hit up compact)
              ToolsIngest.SLATE_KEYWORDS) as [Hlen Hincl].
  { intros k Hk. apply raw_hit_is_hit. now apply slate_keywords_upper. }
  split; [reflexivity|]. split; [exact Hincl|].
  rewrite !orb_true_iff, !Z.leb_le. intros [H|H]; [left; lia|right].
  unfold strong_rule, ToolsIngest.STRONG_KEYWORDS in *.
  rewrite forallb_forall in *. intros k Hk.
  apply raw_hit_is_hit; [|now apply H].
  destruct Hk as [<-|[<-|[<-|[]]]]; reflexivity.
Qed.

(** X18. Under the default settings the single-ROI path of the
    configurable marker detector returns every marker that the first
    script returns, with the same text. *)
Theorem detect_room_marker_keeps_old_markers img m txt :
  ToolsIngest.detect_room_marker image ocr_text img = (true, m, txt) ->
  detect_room_marker image ocr_text img "center" 8 whitelist_AZ room_re_default
  = (true, m, txt).
Proof.
  unfold ToolsIngest.detect_room_marker, detect_room_marker, ToolsIngest.ROOM_RE.
  change (negb ("center" =? "multi")%string) with true. cbv iota.
  change "ABCDEFGHIJKLMNOPQRSTUVWXYZ" with whitelist_AZ.
  set (t := ocr_text img "center" 8 (Some whitelist_AZ)).
  unfold best_candidate_from_text, clean_letters.
  destruct (room_re_default (re_sub_not is_AZ (upper t))) eqn:Hre; cbn [negb].
  - rewrite Hre. intros [= <- <-]. unfold truthy_opt.
    destruct (re_sub_not is_AZ (upper t)); [discriminate|reflexivity].
  - destruct (filter room_re_default (findall_AZ_1_2 (upper t))) as [|tok rest] eqn:Hf.
    + cbn. discriminate.
    + destruct (room_re_default tok) eqn:Htok; [|discriminate].
      intros [= <- <-]. unfold truthy_opt.
      destruct tok; [discriminate|reflexivity].
Qed.

End TwoScripts.

(** X18, witness: a page that reads "CC" between blanks. *)
Lemma detect_room_marker_keeps_old_markers_witness :
  ToolsIngest.detect_room_marker unit (ocr_const " CC ") tt = (true, Some "CC", " CC ") /\
  detect_room_marker unit (ocr_const " CC ") tt "center" 8 whitelist_AZ room_re_default
  = (true, Some "CC", " CC ").
Proof.
  assert (ToolsIngest.detect_room_marker unit (ocr_const " CC ") tt
          = (true, Some "CC", " CC ")) as H by reflexivity.
  split; [exact H|].
  apply (detect_room_marker_keeps_old_markers unit (ocr_const " CC ") tt _ _ H).
Defined.

(** ** The gap report *)

Lemma py_range_In i a b : In i (py_range a b) <-> a <= i < b.
Proof.
  unfold py_range. rewrite in_map_iff. split.
  - intros [k [<- Hk]]. apply in_seq in Hk. lia.
  - intros H. exists (Z.to_nat (i - a)). split; [lia|]. apply in_seq. lia.
Qed.

Lemma py_range_snoc a b : a <= b -> py_range a (b + 1) = (py_range a b ++ [b])%list.
Proof.
  intros H. unfold py_range.
  replace (Z.to_nat (b + 1 - a)) with (S (Z.to_nat (b - a))) by lia.
  rewrite seq_S, map_app. cbn [map Nat.add]. f_equal. f_equal. lia.
Qed.

Lemma py_range_single x : py_range x (x + 1) = [x].
Proof.
  unfold py_range. replace (x + 1 - x) with 1 by lia.
  change (Z.to_nat 1) with 1%nat. cbn [seq map]. change (Z.of_nat 0) with 0.
  now rewrite Z.add_0_r.
Qed.

Lemma py_range_length a b : a <= b -> Z.of_nat (List.length (py_range a b)) = b - a.
Proof. intros H. unfold py_range. rewrite length_map, length_seq. lia. Qed.

Lemma py_range_sorted a b : StronglySorted Z.lt (py_range a b).
Proof.
  unfold py_range. generalize (Z.to_nat (b - a)) as n. intros n.
  assert (forall m, StronglySorted Z.lt (map (fun k => a + Z.of_nat k) (seq m n))) as H.
  { induction n as [|n IH]; intros m; cbn; constructor; [apply IH|].
    apply Forall_forall. intros x Hx. apply in_map_iff in Hx as [k [<- Hk]].
    apply in_seq in Hk. lia. }
  apply H.
Qed.

Lemma insert_sorted_In i x l : In i (insert_sorted x l) <-> i = x \/ In i l.
Proof.
  induction l as [|y l IH]; cbn; [intuition|].
  destruct (x <=? y); cbn; [intuition|]. rewrite IH. intuition.
Qed.

Lemma sorted_cons x l : sorted (x :: l) = insert_sorted x (sorted l).
Proof. reflexivity. Qed.

Lemma sorted_In i l : In i (sorted l) <-> In i l.
Proof.
  induction l as [|x l IH]; [cbn; tauto|].
  rewrite sorted_cons, insert_sorted_In, IH. cbn. intuition.
Qed.

Lemma insert_sorted_length x l :
  List.length (insert_sorted x l) = S (List.length l).
Proof.
  induction l as [|y l IH]; cbn; [reflexivity|].
  destruct (x <=? y); cbn; [reflexivity|now rewrite IH].
Qed.

Lemma sorted_length l : List.length (sorted l) = List.length l.
Proof.
  induction l as [|x l IH]; [reflexivity|].
  rewrite sorted_cons, insert_sorted_length, IH. reflexivity.
Qed.

Lemma insert_sorted_strict x l :
  StronglySorted Z.lt l -> ~ In x l -> StronglySorted Z.lt (insert_sorted x l).
Proof.
  induction l as [|y l IH]; intros Hs Hn; cbn.
  - constructor; constructor.
  - apply StronglySorted_inv in Hs as [Hs Hy].
    destruct (Z.leb_spec x y) as [Hxy|Hxy].
    + assert (x < y) as Hlt by (cbn in Hn; lia).
      constructor; [now constructor|].
      constructor; [exact Hlt|].
      eapply Forall_impl; [|exact Hy]. cbn. intros; lia.
    + constructor; [apply IH; [exact Hs|cbn in Hn; tauto]|].
      apply Forall_forall. intros z Hz. apply insert_sorted_In in Hz as [->|Hz]; [lia|].
      rewrite Forall_forall in Hy. now apply Hy.
Qed.

Lemma sorted_strict l : NoDup l -> StronglySorted Z.lt (sorted l).
Proof.
  induction 1 as [|x l Hx Hnd IH]; [constructor|].
  rewrite sorted_cons. apply insert_sorted_strict; [exact IH|]. now rewrite sorted_In.
Qed.

Lemma sorted_of_increasing l : StronglySorted Z.lt l -> sorted l = l.
Proof.
  induction 1 as [|x l Hs IH Hx]; [reflexivity|].
  rewrite sorted_cons, IH. destruct l as [|y l]; [reflexivity|].
  cbn. apply Forall_inv in Hx. destruct (Z.leb_spec x y); [reflexivity|lia].
Qed.

Lemma StronglySorted_snoc {A : Type} (R : A -> A -> Prop) l x :
  StronglySorted R l -> Forall (fun y => R y x) l -> StronglySorted R (l ++ [x]).
Proof.
  induction 1 as [|y l Hs IH Hy]; intros Hx; cbn.
  - constructor; constructor.
  - apply Forall_cons_iff in Hx as [Hyx Hx].
    constructor; [now apply IH|].
    apply Forall_app. split; [exact Hy|]. constructor; [exact Hyx|constructor].
Qed.

(** What the loop keeps: the ranges closed so far and the open one spell
    out the numbers read so far, and every range is well formed. *)
Lemma compress_fold_expand rest :
  forall ranges s e,
    s <= e -> Forall (fun r => fst r <= snd r) ranges ->
    exists r' s' e',
      fold_left compress_step rest (ranges, s, e) = (r', s', e') /\
      s' <= e' /\ Forall (fun r => fst r <= snd r) r' /\
      (flat_map expand r' ++ py_range s' (e' + 1)
       = (flat_map expand ranges ++ py_range s (e + 1)) ++ rest)%list.
Proof.
  induction rest as [|x rest IH]; intros ranges s e Hse Hwf; cbn [fold_left].
  - exists ranges, s, e. rewrite app_nil_r. auto.
  - unfold compress_step at 2. destruct (Z.eqb_spec x (e + 1)) as [->|Hx].
    + destruct (IH ranges s (e + 1)) as (r' & s' & e' & Hf & Hse' & Hwf' & Heq);
        [lia|exact Hwf|].
      exists r', s', e'. repeat (split; [assumption|]).
      rewrite Heq, (py_range_snoc s (e + 1)) by lia.
      now rewrite <- !app_assoc.
    + destruct (IH (ranges ++ [(s, e)])%list x x) as (r' & s' & e' & Hf & Hse' & Hwf' & Heq);
        [lia|apply Forall_app; split; [exact Hwf|constructor; [exact Hse|constructor]]|].
      exists r', s', e'. repeat (split; [assumption|]).
      rewrite Heq, flat_map_app, py_range_single.
      change (flat_map expand [(s, e)]) with (py_range s (e + 1) ++ [])%list.
      rewrite app_nil_r. now rewrite <- !app_assoc.
Qed.

Lemma compress_ranges_expand nums :
  flat_map expand (compress_ranges nums) = sorted nums /\
  Forall (fun r => fst r <= snd r) (compress_ranges nums).
Proof.
  unfold compress_ranges. destruct nums as [|n nums]; [split; [reflexivity|constructor]|].
  destruct (sorted (n :: nums)) as [|n0 rest] eqn:Hs; [split; [reflexivity|constructor]|].
  destruct (compress_fold_expand rest [] n0 n0) as (r' & s' & e' & Hf & Hse' & Hwf' & Heq);
    [lia|constructor|].
  rewrite Hf. split.
  - rewrite flat_map_app.
    change (flat_map expand [(s', e')]) with (py_range s' (e' + 1) ++ [])%list.
    rewrite app_nil_r, Heq. now rewrite py_range_single.
  - apply Forall_app. split; [exact Hwf'|constructor; [exact Hse'|constructor]].
Qed.

Lemma count_missing_sum (rs : list (Z * Z)) :
  Forall (fun r => fst r <= snd r) rs ->
  fold_right Z.add 0 (map count_missing rs) = Z.of_nat (List.length (flat_map expand rs)).
Proof.
  induction 1 as [|r rs Hr Hrs IH]; cbn [map fold_right flat_map]; [reflexivity|].
  rewrite length_app, Nat2Z.inj_add, IH. unfold expand, count_missing.
  rewrite py_range_length by lia. lia.
Qed.

Lemma covered_iff (rs : list (Z * Z)) i :
  (exists r, In r rs /\ covers r i) <-> In i (flat_map expand rs).
Proof.
  rewrite in_flat_map. unfold covers, expand.
  split; intros [r [Hr Hi]]; exists r; (split; [exact Hr|]);
    [apply py_range_In; lia|apply py_range_In in Hi; lia].
Qed.

(** X19. The ranges of [compress_ranges], written out one number after
    the other, are the numbers given in ascending order (each as often
    as it was given), and their sizes add up to how many were given. *)
Theorem compress_ranges_round_trip nums :
  flat_map expand (compress_ranges nums) = sorted nums /\
  fold_right Z.add 0 (map count_missing (compress_ranges nums))
  = Z.of_nat (List.length nums).
Proof.
  destruct (compress_ranges_expand nums) as [Hexp Hwf].
  split; [exact Hexp|].
  now rewrite (count_missing_sum _ Hwf), Hexp, sorted_length.
Qed.

(** The second invariant of the loop, for numbers read in strictly
    increasing order: the closed ranges lie apart from each other and
    from the open one. *)
Lemma compress_fold_apart rest :
  forall ranges s e,
    s <= e -> StronglySorted Z.lt (e :: rest) ->
    StronglySorted apart ranges -> Forall (fun r => snd r + 1 < s) ranges ->
    exists r' s' e',
      fold_left compress_step rest (ranges, s, e) = (r', s', e') /\
      StronglySorted apart (r' ++ [(s', e')]).
Proof.
  induction rest as [|x rest IH]; intros ranges s e Hse Hinc Hap Hbef; cbn [fold_left].
  - exists ranges, s, e. split; [reflexivity|].
    apply StronglySorted_snoc; [exact Hap|exact Hbef].
  - apply StronglySorted_inv in Hinc as [Hinc He].
    pose proof (Forall_inv He) as Hex. apply Forall_inv_tail in He.
    unfold compress_step at 2. destruct (Z.eqb_spec x (e + 1)) as [->|Hx].
    + apply IH; [lia|exact Hinc|exact Hap|exact Hbef].
    + apply IH; [lia|exact Hinc| |].
      * apply StronglySorted_snoc; [exact Hap|exact Hbef].
      * apply Forall_app. split.
        -- eapply Forall_impl; [|exact Hbef]. cbn. intros; lia.
        -- constructor; [cbn; lia|constructor].
Qed.

(** X20. When no number is given twice, every range of
    [compress_ranges] runs from its start up to its end, and between one
    range and the next at least one number is left out: the ranges are as
    long as they can be. *)
Theorem compress_ranges_maximal nums :
  NoDup nums ->
  Forall (fun r => fst r <= snd r) (compress_ranges nums) /\
  StronglySorted apart (compress_ranges nums).
Proof.
  intros Hnd. split; [apply compress_ranges_expand|].
  pose proof (sorted_strict nums Hnd) as Hs.
  unfold compress_ranges. destruct nums as [|n nums]; [constructor|].
  destruct (sorted (n :: nums)) as [|n0 rest]; [constructor|].
  destruct (compress_fold_apart rest [] n0 n0) as (r' & s' & e' & Hf & Hap);
    [lia|exact Hs|constructor|constructor|].
  now rewrite Hf.
Qed.

Lemma missing_in_In s lo hi i :
  In i (missing_in s lo hi) <-> lo <= i <= hi /\ ~ In i s.
Proof.
  unfold missing_in. rewrite filter_In, py_range_In, negb_true_iff.
  assert (existsb (Z.eqb i) s = false <-> ~ In i s) as ->.
  { rewrite <- not_true_iff_false, existsb_exists. split; intros H Hc; apply H.
    - exists i. split; [exact Hc|apply Z.eqb_refl].
    - destruct Hc as [j [Hj Hij]]. apply Z.eqb_eq in Hij. now subst. }
  intuition lia.
Qed.

(** X21. A block of the gap report covers exactly the missing numbers:
    a number lies in one of the ranges computed for the block [lo..hi]
    if and only if it lies in the block and is not among the IDs found. *)
Theorem gap_report_exact s lo hi i :
  (exists r, In r (compress_ranges (missing_in s lo hi)) /\ covers r i) <->
  (lo <= i <= hi /\ ~ In i s).
Proof.
  rewrite covered_iff.
  destruct (compress_ranges_expand (missing_in s lo hi)) as [-> _].
  now rewrite sorted_In, missing_in_In.
Qed.

(** X20, witness: four numbers out of order give two ranges. *)
Lemma compress_ranges_maximal_witness :
  NoDup [5; 1; 2; 6] /\
  compress_ranges [5; 1; 2; 6] = [(1, 2); (5, 6)] /\
  StronglySorted apart (compress_ranges [5; 1; 2; 6]).
Proof.
  assert (NoDup [5; 1; 2; 6]) as H.
  { repeat constructor; cbn; intros Hc; intuition discriminate. }
  split; [exact H|]. split; [reflexivity|].
  exact (proj2 (compress_ranges_maximal [5; 1; 2; 6] H)).
Defined.

(** A number given twice opens a range of its own. *)
Example compress_ranges_repeated :
  compress_ranges [1; 1; 2] = [(1, 1); (1, 2)] /\
  flat_map expand (compress_ranges [1; 1; 2]) = [1; 1; 2].
Proof. split; reflexivity. Qed.

(** The report for IDs 1, 2, 5 and 9 over the block 1..9. *)
Example gap_report_sample :
  compress_ranges (missing_in [1; 2; 5; 9] 1 9) = [(3, 4); (6, 8)] /\
  map count_missing (compress_ranges (missing_in [1; 2; 5; 9] 1 9)) = [2; 3].
Proof. split; reflexivity. Qed.
